(** * Log correlation and reporting pipeline (app.py)

    A shallow embedding of [LogAnalysisRAG]: ingestion of line-delimited
    JSON into the record store, retrieval by correlation id, the outcome
    classifier with its regular-expression parsing of the model's reply,
    and the report builder.

    Conventions.
    - A Python [str] is a list of Unicode code points ([list N]).
    - A dict that is only looked up is a [gmap]; a dict whose key order is
      observable (a report row, which becomes the columns of the data
      frame) is an insertion-ordered association list.
    - The process state that the methods read and write (the collection,
      the printed lines, the prompts sent to the model) is a record
      [World], threaded by a state-and-exception monad [Py]. *)

From Stdlib Require Import ZArith NArith Lia Bool.
From Stdlib Require Import Strings.String Strings.Ascii.
From Stdlib Require Import Numbers.DecimalString Numbers.DecimalNat.
From stdpp Require Import base tactics option list numbers gmap.

Local Open Scope N_scope.

(* ===================================================================== *)
(** ** Python strings *)
(* ===================================================================== *)

Module PyStr.

(** A code point. *)
Definition char := N.
Definition pystr := list char.

(** A literal of the source, written in ASCII. *)
Definition lit (s : string) : pystr :=
  map N_of_ascii (list_ascii_of_string s).
Arguments lit s%_string.

Definition nl : pystr := [10].

(** [str.isspace] on one code point, which is also what [\s] matches in
    a [str] pattern: the code points with the White_Space property or a
    bidirectional type of WS, B or S. *)
Definition whitespace : list char :=
  [ 9; 10; 11; 12; 13; 28; 29; 30; 31; 32; 133; 160; 5760;
    8192; 8193; 8194; 8195; 8196; 8197; 8198; 8199; 8200; 8201; 8202;
    8232; 8233; 8239; 8287; 12288 ].

Definition isspace (c : char) : bool := existsb (N.eqb c) whitespace.

(** [s.lstrip()], [s.rstrip()], [s.strip()]. *)
Fixpoint lstrip (s : pystr) : pystr :=
  match s with
  | c :: s' => if isspace c then lstrip s' else s
  | [] => []
  end.

Definition rstrip (s : pystr) : pystr := rev (lstrip (rev s)).

Definition strip (s : pystr) : pystr := rstrip (lstrip s).

(** [sep.join(parts)]. *)
Fixpoint join (sep : pystr) (parts : list pystr) : pystr :=
  match parts with
  | [] => []
  | [p] => p
  | p :: ps => p ++ sep ++ join sep ps
  end.

(** [str(i)] for a non-negative integer, as an f-string renders it. *)
Definition dec (i : nat) : pystr :=
  lit (NilEmpty.string_of_uint (Nat.to_uint i)).

(** [s[:k]] for an integer [k]: the first [k] items when [k >= 0], all but
    the last [-k] when [k < 0]. *)
Definition slice_to {A} (k : Z) (l : list A) : list A :=
  if (0 <=? k)%Z then take (Z.to_nat k) l
  else take (length l - Z.to_nat (- k))%nat l.

(** The code points that the literal [p] of a pattern matches under
    [re.IGNORECASE], for [p] in ASCII: [p] itself, the other case of a
    letter, and the four non-ASCII letters whose case folding is an ASCII
    letter: U+0130 and U+0131 for [i], U+017F for [s], U+212A for [k]. *)
Definition is_upper (c : char) : bool := (65 <=? c) && (c <=? 90).
Definition is_lower (c : char) : bool := (97 <=? c) && (c <=? 122).

Definition to_lower (c : char) : char := if is_upper c then c + 32 else c.

Definition fold_extras (l : char) : list char :=
  if l =? 105 then [304; 305]
  else if l =? 115 then [383]
  else if l =? 107 then [8490]
  else [].

Definition ci_class (p : char) : list char :=
  let l := to_lower p in
  if is_lower l then l :: (l - 32) :: fold_extras l else [p].

Definition ci_eq (p c : char) : bool := existsb (N.eqb c) (ci_class p).

(** [s.upper()], code point by code point, on the code points that a
    match of an ASCII pattern under [re.IGNORECASE] can hold: an ASCII
    lower-case letter goes to its capital, U+0131 (dotless i) to [I],
    U+017F (long s) to [S]; capitals, U+0130 (capital I with dot above)
    and U+212A stay. Other code points are left alone here: [upper] is
    applied to matched text only. *)
Definition upper_char (c : char) : char :=
  if is_lower c then c - 32
  else if c =? 305 then 73
  else if c =? 383 then 83
  else c.

Definition upper (s : pystr) : pystr := map upper_char s.

End PyStr.
Import PyStr.

(* ===================================================================== *)
(** ** Regular expressions: the fragment of [re] that the classifier uses *)
(* ===================================================================== *)

Module Regex.

(** Items that match one code point: a literal, and [\s]. *)
Inductive atom :=
| Lit (p : char)
| Space.

Inductive regex :=
| Eps
| Atom (a : atom)
| Star (a : atom)             (* greedy repetition of a one-character item *)
| Cat (r1 r2 : regex)
| Alt (r1 r2 : regex)
| Group (r : regex).          (* the capturing group, number 1 *)

(** A match object: where the match starts, and [group(1)]. *)
Record Match := { start : nat; group1 : pystr }.

Definition atom_match (ignorecase : bool) (a : atom) (c : char) : bool :=
  match a with
  | Lit p => if ignorecase then ci_eq p c else p =? c
  | Space => isspace c
  end.

Section Backtracking.
Context {A : Type}.
Variable ignorecase : bool.

(** The matcher tries the alternatives in the order of the backtracking
    engine: the longest repetition first, the left branch of [|] first.
    [k] is what remains to be matched; [g] is the text of group 1. *)
Fixpoint star (a : atom) (s g : pystr)
    (k : pystr -> pystr -> option A) : option A :=
  match s with
  | c :: s' =>
      if atom_match ignorecase a c then
        match star a s' g k with
        | Some x => Some x
        | None => k s g
        end
      else k s g
  | [] => k [] g
  end.

Fixpoint bt (r : regex) (s g : pystr)
    (k : pystr -> pystr -> option A) : option A :=
  match r with
  | Eps => k s g
  | Atom a =>
      match s with
      | c :: s' => if atom_match ignorecase a c then k s' g else None
      | [] => None
      end
  | Star a => star a s g k
  | Cat r1 r2 => bt r1 s g (fun s' g' => bt r2 s' g' k)
  | Alt r1 r2 =>
      match bt r1 s g k with
      | Some x => Some x
      | None => bt r2 s g k
      end
  | Group r1 =>
      bt r1 s g (fun s' _ => k s' (take (length s - length s') s))
  end.
End Backtracking.

(** [re.search(r, s, flags)]: the match at the leftmost position that has
    one. *)
Fixpoint search_from (ignorecase : bool) (r : regex) (i : nat) (s : pystr)
    : option Match :=
  match bt ignorecase r s [] (fun _ g => Some g) with
  | Some g => Some {| start := i; group1 := g |}
  | None =>
      match s with
      | [] => None
      | _ :: s' => search_from ignorecase r (S i) s'
      end
  end.

Definition re_search (r : regex) (s : pystr) (ignorecase : bool)
    : option Match :=
  search_from ignorecase r 0 s.

(** A run of literals. *)
Fixpoint word (w : pystr) : regex :=
  match w with
  | [] => Eps
  | p :: w' => Cat (Atom (Lit p)) (word w')
  end.

End Regex.
Import Regex.

(** The verdicts. *)
Definition SUCCESS : pystr := lit "SUCCESS".
Definition FAILURE : pystr := lit "FAILURE".
Definition UNKNOWN : pystr := lit "UNKNOWN".
Definition NO_LOGS : pystr := lit "NO_LOGS".

(** [r"STATUS:\s*(SUCCESS|FAILURE)"] *)
Definition status_re : regex :=
  Cat (word (lit "STATUS:"))
      (Cat (Star Space) (Group (Alt (word SUCCESS) (word FAILURE)))).

(** Lines 141-142 of [analyze_logs_with_llm]:
    [match = re.search(r"STATUS:\s*(SUCCESS|FAILURE)", response, re.IGNORECASE)]
    [status = match.group(1).upper() if match else "UNKNOWN"]. *)
Definition parse_status (response : pystr) : pystr :=
  match re_search status_re response true with
  | Some m => upper (group1 m)
  | None => UNKNOWN
  end.

(* ===================================================================== *)
(** ** Data model *)
(* ===================================================================== *)

(** [class LogEntry(BaseModel)]: six fields of type [str]. The metadata
    dictionary that the store keeps for an entry holds the same six fields
    under the same names, so a [LogEntry] stands for it as well. *)
Record LogEntry := {
  application : pystr;
  correlation_id : pystr;
  log_level : pystr;
  message : pystr;
  details : pystr;
  timestamp : pystr
}.

(** What [json.loads] returns. A number keeps its text. *)
#[warnings="-register-all"]
Inductive json :=
| JNull
| JBool (b : bool)
| JNum (text : pystr)
| JStr (s : pystr)
| JArr (items : list json)
| JObj (data : gmap pystr json).

(** The exceptions that ingestion can meet: the two that the [except]
    clause of line 74 names; [TypeError], raised when a value that is no
    mapping is unpacked; [ValueError] (one that is no [JSONDecodeError])
    and [RecursionError], which [json.loads] raises for JSON beyond the
    limits of the interpreter (an integer of too many digits, nesting
    that is too deep); and
    [StoreError], which stands for what [collection.add] raises when the
    store refuses a call. *)
Inductive exn :=
| JSONDecodeError
| ValidationError
| TypeError
| ValueError
| RecursionError
| StoreError.

Inductive res (A : Type) :=
| Val (a : A)
| Exc (e : exn).
Arguments Val {A} a.
Arguments Exc {A} e.

(** A value returned to the caller of a method that returns no object of
    the model: [None], or an [int]. *)
Inductive pyval := PyNone | PyInt (n : Z).

(** An entry of the collection. *)
Record StoredEntry := {
  entry_id : pystr;
  entry_document : pystr;
  entry_metadata : LogEntry
}.

(** An item of a bundle: [{'document': doc, 'metadata': metadata}]. *)
Record LogItem := { document : pystr; metadata : LogEntry }.

(** An insertion-ordered dict whose key order is observable. *)
Definition odict := list (pystr * pystr).

Fixpoint odict_set (k v : pystr) (d : odict) : odict :=
  match d with
  | [] => [(k, v)]
  | (k', v') :: d' =>
      if decide (k' = k) then (k, v) :: d' else (k', v') :: odict_set k v d'
  end.

Fixpoint odict_get (k : pystr) (d : odict) : option pystr :=
  match d with
  | [] => None
  | (k', v') :: d' => if decide (k' = k) then Some v' else odict_get k d'
  end.

(** [pd.DataFrame(rows)] for a list of dicts: the columns are the keys in
    the order of their first appearance, and a row holds the value of each
    column, or nothing where the dict has no such key. *)
Record DataFrame := {
  columns : list pystr;
  rows : list (list (option pystr))
}.

Definition add_columns (cols : list pystr) (row : odict) : list pystr :=
  foldl (fun cols kv => if decide (kv.1 ∈ cols) then cols else cols ++ [kv.1])
        cols row.

Definition DataFrame_of (dicts : list odict) : DataFrame :=
  let cols := foldl add_columns [] dicts in
  {| columns := cols;
     rows := map (fun d => map (fun c => odict_get c d) cols) dicts |}.

(** One constructor per [print] of the source, with the values it
    interpolates. *)
Inductive event :=
| PLoading                                        (* line 59 *)
| PNotFound (log_file : pystr)                    (* line 64 *)
| PLineError (log_file : pystr) (line_num : nat) (e : exn)   (* line 75 *)
| PLoaded (n : nat) (app : pystr)                 (* line 79 *)
| PTotal (total_logs : nat)                       (* line 80 *)
| PProcessing (correlation_id : pystr)            (* line 157 *)
| PRetrieved (n : nat)                            (* line 159 *)
| PGenerating (n : nat)                           (* line 164 *)
| PSaved (output_file : pystr).                   (* line 174 *)

(** The state of the process and of what it talks to.
    - [collection]: the entries of the Chroma collection, in insertion
      order. The store is outside the source: [add] keeps the identifiers
      of the collection pairwise distinct, and [get] with a [where] filter
      returns the entries whose metadata match, in insertion order.
    - [files]: the log files that exist, as lists of lines.
    - [stdout]: what has been printed.
    - [llm_calls]: the prompts sent to the model so far.
    - [csv_files]: the data frames written by [to_csv], with their paths.
    - [max_batch_size]: the largest batch that the store takes in one
      call of [add].
    - [storable]: the entries whose texts the store can convert. *)
Record World := {
  collection : list StoredEntry;
  files : gmap pystr (list pystr);
  stdout : list event;
  llm_calls : list pystr;
  csv_files : list (pystr * DataFrame);
  max_batch_size : nat;
  storable : StoredEntry -> bool
}.

Definition set_collection (c : list StoredEntry) (w : World) : World :=
  {| collection := c; files := files w; stdout := stdout w;
     llm_calls := llm_calls w; csv_files := csv_files w;
     max_batch_size := max_batch_size w; storable := storable w |}.
Definition set_stdout (o : list event) (w : World) : World :=
  {| collection := collection w; files := files w; stdout := o;
     llm_calls := llm_calls w; csv_files := csv_files w;
     max_batch_size := max_batch_size w; storable := storable w |}.
Definition set_llm_calls (l : list pystr) (w : World) : World :=
  {| collection := collection w; files := files w; stdout := stdout w;
     llm_calls := l; csv_files := csv_files w;
     max_batch_size := max_batch_size w; storable := storable w |}.
Definition set_csv_files (l : list (pystr * DataFrame)) (w : World) : World :=
  {| collection := collection w; files := files w; stdout := stdout w;
     llm_calls := llm_calls w; csv_files := l;
     max_batch_size := max_batch_size w; storable := storable w |}.

(* ===================================================================== *)
(** ** The monad of the methods: state and exceptions *)
(* ===================================================================== *)

Module PyMonad.

Definition Py (A : Type) : Type := World -> res A * World.

Definition ret {A} (a : A) : Py A := fun w => (Val a, w).

Definition bind {A B} (m : Py A) (f : A -> Py B) : Py B :=
  fun w =>
    match m w with
    | (Val a, w') => f a w'
    | (Exc e, w') => (Exc e, w')
    end.

Definition raise {A} (e : exn) : Py A := fun w => (Exc e, w).

Definition get_world : Py World := fun w => (Val w, w).

Definition modify (f : World -> World) : Py unit := fun w => (Val tt, f w).

Definition print (ev : event) : Py unit :=
  modify (fun w => set_stdout (stdout w ++ [ev]) w).

(** [for x in xs: body], where [acc] holds the local variables that the
    body assigns. *)
Fixpoint for_each {A S} (xs : list A) (acc : S) (body : S -> A -> Py S)
    : Py S :=
  match xs with
  | [] => ret acc
  | x :: xs' => bind (body acc x) (fun acc' => for_each xs' acc' body)
  end.

Module Notations.
Notation "x <- m ;; k" := (bind m (fun x => k))
  (at level 100, m at next level, right associativity).
Notation "m ;;; k" := (bind m (fun _ => k))
  (at level 100, right associativity).
End Notations.

End PyMonad.
Import PyMonad PyMonad.Notations.

(** [enumerate(xs, start)]. *)
Fixpoint enumerate {A} (start : nat) (xs : list A) : list (nat * A) :=
  match xs with
  | [] => []
  | x :: xs' => (start, x) :: enumerate (S start) xs'
  end.

(* ===================================================================== *)
(** ** [class LogAnalysisRAG] *)
(* ===================================================================== *)

(** [self.applications] *)
Definition applications : list pystr :=
  [ lit "AuthService"; lit "EmailService"; lit "NotificationService";
    lit "UserManagement"; lit "AuditService"; lit "DatabaseService";
    lit "FileService"; lit "ReportingService" ].

(** [self.prompt_template.format(app_name=..., correlation_id=...,
    log_content=...)] *)
Definition prompt_format (app_name correlation_id log_content : pystr)
    : pystr :=
  nl ++ lit "You are a log analysis assistant. Analyze the following logs for application '"
     ++ app_name ++ lit "' with correlation ID '" ++ correlation_id
     ++ lit "'." ++ nl
     ++ lit "Determine whether the process was SUCCESSFUL or FAILED." ++ nl
     ++ nl
     ++ lit "Logs:" ++ nl
     ++ log_content ++ nl
     ++ nl
     ++ lit "Respond with exactly one line in the format:" ++ nl
     ++ lit "STATUS: [SUCCESS or FAILURE] - REASON: [brief explanation]" ++ nl.

(** The [except (json.JSONDecodeError, ValidationError)] clause. *)
Definition caught (e : exn) : bool :=
  match e with
  | JSONDecodeError | ValidationError => true
  | TypeError | ValueError | RecursionError | StoreError => false
  end.

(** [collection.add]: the store refuses a call whose identifiers are not
    pairwise distinct, a batch above its maximum batch size and an entry
    it cannot convert; of a batch that it accepts it keeps the entries
    whose identifier it does not hold yet, after those it holds, and
    ignores the others. *)
Definition accepts (w : World) (entries : list StoredEntry) : bool :=
  bool_decide (NoDup (map entry_id entries))
  && (length entries <=? max_batch_size w)%nat
  && forallb (storable w) entries.

Definition new_entries (held entries : list StoredEntry)
    : list StoredEntry :=
  List.filter (fun e => bool_decide (entry_id e ∉ map entry_id held)) entries.

Section App.

(** [json.loads]: the value of a text, or the exception that it raises:
    [JSONDecodeError] for a text that is no JSON, [ValueError] or
    [RecursionError] for JSON beyond the limits of the interpreter. *)
Variable json_loads : pystr -> res json.

(** What pydantic makes of the value given for a field of type [str]: the
    string, or nothing where it reports a validation error. *)
Variable str_field : json -> option pystr.

(** [self.llm.invoke]: the reply to a prompt, which may depend on the
    prompts sent before. The runs covered are those in which the model
    replies: the source has no handling of a failing call, whose exception
    would leave [analyze_logs_with_llm] and its callers. *)
Variable llm : list pystr -> pystr -> pystr.

(** [LogEntry] applied to the unpacked [raw] (line 72): unpacking
    anything but a mapping raises [TypeError]; a missing field, or a
    value that pydantic does not take for a string, raises
    [ValidationError]; keys that name no field are ignored. *)
Definition LogEntry_init (raw : json) : res LogEntry :=
  match raw with
  | JObj data =>
      let field (name : pystr) := data !! name ≫= str_field in
      match field (lit "application"), field (lit "correlation_id"),
            field (lit "log_level"), field (lit "message"),
            field (lit "details"), field (lit "timestamp") with
      | Some a, Some c, Some l, Some m, Some d, Some t =>
          Val {| application := a; correlation_id := c; log_level := l;
                 message := m; details := d; timestamp := t |}
      | _, _, _, _, _, _ => Exc ValidationError
      end
  | _ => Exc TypeError
  end.

(** The body of the [try] of lines 71-72. *)
Definition parse_line (line : pystr) : res LogEntry :=
  match json_loads (strip line) with
  | Exc e => Exc e
  | Val raw => LogEntry_init raw
  end.

(** Lines 69-75: one turn of the loop over the lines of a file. *)
Definition read_line (log_file : pystr) (app_logs : list LogEntry)
    (numbered : nat * pystr) : Py (list LogEntry) :=
  let '(line_num, line) := numbered in
  match parse_line line with
  | Val log_entry => ret (app_logs ++ [log_entry])
  | Exc e =>
      if caught e then
        print (PLineError log_file line_num e) ;;; ret app_logs
      else raise e
  end.

(** Lines 67-75. *)
Definition read_log_file (log_file : pystr) (lines : list pystr)
    : Py (list LogEntry) :=
  for_each (enumerate 1 lines) [] (read_line log_file).

(** Lines 87-93. *)
Definition doc_text (log : LogEntry) : pystr :=
  strip (nl ++ lit "Application: " ++ application log ++ nl
            ++ lit "Level: " ++ log_level log ++ nl
            ++ lit "Message: " ++ message log ++ nl
            ++ lit "Details: " ++ details log ++ nl
            ++ lit "Timestamp: " ++ timestamp log ++ nl).

(** Line 103: [f"{application}_{log.correlation_id}_{i}"]. *)
Definition make_id (application : pystr) (log : LogEntry) (i : nat)
    : pystr :=
  application ++ lit "_" ++ correlation_id log ++ lit "_" ++ dec i.

(** [self.collection.add(documents=..., metadatas=..., ids=...)] *)
Definition collection_add (documents : list pystr)
    (metadatas : list LogEntry) (ids : list pystr) : Py unit :=
  let entries :=
    zip_with (fun i dm => {| entry_id := i; entry_document := dm.1;
                             entry_metadata := dm.2 |})
             ids (zip documents metadatas) in
  w <- get_world ;;
  if accepts w entries then
    modify (set_collection (collection w ++ new_entries (collection w) entries))
  else raise StoreError.

Definition _store_logs_in_chroma (logs : list LogEntry)
    (application : pystr) : Py unit :=
  let documents := map doc_text logs in
  let metadatas := logs in
  let ids := imap (fun i log => make_id application log i) logs in
  match documents with
  | [] => ret tt
  | _ :: _ => collection_add documents metadatas ids
  end.

(** Lines 62-79: one turn of the loop over the applications. *)
Definition load_app (logs_directory : pystr) (total_logs : nat)
    (app : pystr) : Py nat :=
  let log_file : pystr :=
    logs_directory ++ lit "/" ++ app ++ lit "_logs.jsonl" in
  w <- get_world ;;
  match files w !! log_file with
  | None => print (PNotFound log_file) ;;; ret total_logs
  | Some lines =>
      app_logs <- read_log_file log_file lines ;;
      _store_logs_in_chroma app_logs app ;;;
      print (PLoaded (length app_logs) app) ;;;
      ret (total_logs + length app_logs)%nat
  end.

(** The method has no [return]: it gives [None] back. *)
Definition load_application_logs (logs_directory : pystr) : Py pyval :=
  print PLoading ;;;
  total_logs <- for_each applications 0%nat (load_app logs_directory) ;;
  print (PTotal total_logs) ;;;
  ret PyNone.

(** [self.collection.get(where={"correlation_id": correlation_id},
    include=["documents", "metadatas"])] *)
Definition collection_get (correlation_id0 : pystr)
    : Py (list pystr * list LogEntry) :=
  w <- get_world ;;
  let found :=
    filter (fun e => correlation_id (entry_metadata e) = correlation_id0)
           (collection w) in
  ret (map entry_document found, map entry_metadata found).

(** [app_logs[app_name].append(item)] on a [defaultdict(list)]. *)
Definition dd_append (app_name : pystr) (item : LogItem)
    (app_logs : gmap pystr (list LogItem)) : gmap pystr (list LogItem) :=
  <[app_name := default [] (app_logs !! app_name) ++ [item]]> app_logs.

Definition retrieve_logs_by_correlation_id (correlation_id0 : pystr)
    (top_k : Z) : Py (gmap pystr (list LogItem)) :=
  results <- collection_get correlation_id0 ;;
  let app_logs :=
    foldl (fun app_logs dm =>
             let app_name := application dm.2 in
             dd_append app_name {| document := dm.1; metadata := dm.2 |}
                       app_logs)
          ∅ (zip results.1 results.2) in
  let app_logs := slice_to top_k <$> app_logs in
  ret app_logs.

Definition context_line (md : LogEntry) : pystr :=
  let details0 := details md in
  let details1 :=
    if (200 <? length details0)%nat then take 200 details0 ++ lit "..."
    else details0 in
  timestamp md ++ lit " - " ++ log_level md ++ lit ": " ++ message md
    ++ lit " (" ++ details1 ++ lit ")" ++ nl.

Definition _prepare_context_for_llm (logs : list LogItem) : pystr :=
  let context :=
    foldl (fun context log_data => context ++ context_line (metadata log_data))
          [] logs in
  strip context.

Definition llm_invoke (prompt : pystr) : Py pystr :=
  w <- get_world ;;
  modify (set_llm_calls (llm_calls w ++ [prompt])) ;;;
  ret (llm (llm_calls w) prompt).

(** One turn of the loop of [analyze_logs_with_llm]. *)
Definition analyze_app (correlation_id0 : pystr)
    (app_logs : gmap pystr (list LogItem))
    (analysis_results : gmap pystr pystr) (app_name : pystr)
    : Py (gmap pystr pystr) :=
  let logs := default [] (app_logs !! app_name) in
  match logs with
  | [] => ret (<[app_name := NO_LOGS]> analysis_results)
  | _ :: _ =>
      let context := _prepare_context_for_llm logs in
      let prompt := prompt_format app_name correlation_id0 context in
      reply <- llm_invoke prompt ;;
      let response := strip reply in
      let status := parse_status response in
      ret (<[app_name := status]> analysis_results)
  end.

Definition analyze_logs_with_llm (correlation_id0 : pystr)
    (app_logs : gmap pystr (list LogItem)) : Py (gmap pystr pystr) :=
  for_each applications ∅ (analyze_app correlation_id0 app_logs).

Definition process_correlation_id (correlation_id0 : pystr)
    : Py (gmap pystr pystr) :=
  print (PProcessing correlation_id0) ;;;
  app_logs <- retrieve_logs_by_correlation_id correlation_id0 5 ;;
  print (PRetrieved (size app_logs)) ;;;
  analysis_results <- analyze_logs_with_llm correlation_id0 app_logs ;;
  ret analysis_results.

(** Lines 168-170: the row of one correlation id. *)
Definition make_row (corr_id : pystr) (results : gmap pystr pystr)
    : odict :=
  foldl (fun row app => odict_set app (default NO_LOGS (results !! app)) row)
        [(lit "correlation_id", corr_id)] applications.

(** Lines 166-171: one turn of the loop over the correlation ids. *)
Definition add_report_row (all_results : list odict) (corr_id : pystr)
    : Py (list odict) :=
  results <- process_correlation_id corr_id ;;
  let row := make_row corr_id results in
  ret (all_results ++ [row]).

(** Line 173, [df.to_csv(output_file, index=False)], in the runs in which
    the file can be written: the source has no handling of a failing
    write, whose [OSError] would leave [generate_csv_report]. *)
Definition to_csv (df : DataFrame) (output_file : pystr) : Py unit :=
  modify (fun w => set_csv_files (csv_files w ++ [(output_file, df)]) w).

Definition generate_csv_report (correlation_ids : list pystr)
    (output_file : pystr) : Py DataFrame :=
  print (PGenerating (length correlation_ids)) ;;;
  all_results <- for_each correlation_ids [] add_report_row ;;
  let df := DataFrame_of all_results in
  to_csv df output_file ;;;
  print (PSaved output_file) ;;;
  ret df.

End App.

(* ===================================================================== *)
(** ** Sample inputs *)
(* ===================================================================== *)

Module Samples.

(** A [str] field as pydantic 2 reads it: a JSON string and nothing
    else. *)
Definition strict_str (v : json) : option pystr :=
  match v with
  | JStr s => Some s
  | _ => None
  end.

Definition record (app cid level msg det ts : string) : LogEntry :=
  {| application := lit app; correlation_id := lit cid;
     log_level := lit level; message := lit msg; details := lit det;
     timestamp := lit ts |}.

(** The JSON object of a record, and the line of text that holds it. *)
Definition record_json (r : LogEntry) : json :=
  JObj (list_to_map
    [ (lit "application", JStr (application r));
      (lit "correlation_id", JStr (correlation_id r));
      (lit "log_level", JStr (log_level r));
      (lit "message", JStr (message r));
      (lit "details", JStr (details r));
      (lit "timestamp", JStr (timestamp r)) ]).

Definition quoted (s : pystr) : pystr := [34] ++ s ++ [34].

Definition record_line (r : LogEntry) : pystr :=
  lit "{" ++ quoted (lit "application") ++ lit ": " ++ quoted (application r)
    ++ lit ", " ++ quoted (lit "correlation_id") ++ lit ": "
    ++ quoted (correlation_id r)
    ++ lit ", " ++ quoted (lit "log_level") ++ lit ": " ++ quoted (log_level r)
    ++ lit ", " ++ quoted (lit "message") ++ lit ": " ++ quoted (message r)
    ++ lit ", " ++ quoted (lit "details") ++ lit ": " ++ quoted (details r)
    ++ lit ", " ++ quoted (lit "timestamp") ++ lit ": " ++ quoted (timestamp r)
    ++ lit "}" ++ nl.

Definition r_auth : LogEntry :=
  record "AuthService" "CORR-TEST001" "ERROR" "Authentication failed"
         "invalid credentials" "2024-01-01T10:00:00".
Definition r_mail : LogEntry :=
  record "EmailService" "CORR-TEST001" "ERROR" "Network unreachable"
         "smtp" "2024-01-01T10:00:01".
Definition r_auth2 : LogEntry :=
  record "AuthService" "CORR-TEST001" "INFO" "Session created successfully"
         "ok" "2024-01-01T10:00:02".
Definition r_auth3 : LogEntry :=
  record "AuthService" "CORR-TEST001" "DEBUG" "Cache lookup performed"
         "ok" "2024-01-01T10:00:03".
(** A record whose details and timestamp are the empty string. *)
Definition r_blank : LogEntry :=
  record "AuthService" "CORR-TEST002" "INFO" "Cache updated successfully"
         "" "".

(** A line that holds a JSON object without the field [timestamp], a line
    that holds a JSON array, and a line that is no JSON. *)
Definition line_missing : pystr :=
  lit "{" ++ quoted (lit "application") ++ lit ": "
    ++ quoted (lit "AuthService") ++ lit "}" ++ nl.
Definition line_array : pystr := lit "[]" ++ nl.
Definition line_garbage : pystr := lit "not json" ++ nl.

(** A line that holds an integer of 5000 digits. *)
Definition line_huge : pystr := repeat 57 (50 * 100) ++ nl.

(** [json.loads] on the texts above: the value of those that are JSON, and
    [ValueError] for the integer of 5000 digits; any other text is taken
    to be no JSON. *)
Definition sample_table : list (pystr * json) :=
  map (fun r => (strip (record_line r), record_json r))
      [r_auth; r_mail; r_auth2; r_auth3; r_blank]
  ++ [ (strip line_missing,
        JObj (list_to_map [(lit "application", JStr (lit "AuthService"))]));
       (strip line_array, JArr []) ].

Definition sample_loads (s : pystr) : res json :=
  match List.find (fun p => bool_decide (p.1 = s)) sample_table with
  | Some p => Val p.2
  | None =>
      if bool_decide (s = strip line_huge) then Exc ValueError
      else Exc JSONDecodeError
  end.

(** A model that gives the same reply to every prompt. *)
Definition constant_llm (reply : pystr) : list pystr -> pystr -> pystr :=
  fun _ _ => reply.

Definition reply_failure_dotted : pystr :=
  lit "STATUS: FA" ++ [304] ++ lit "LURE - REASON: error detected".

(** Sample states: the store takes batches of up to 166 entries and can
    convert every entry. *)
Definition empty_world : World :=
  {| collection := []; files := ∅; stdout := []; llm_calls := [];
     csv_files := []; max_batch_size := 166; storable := fun _ => true |}.

Definition with_files (fs : list (pystr * list pystr)) : World :=
  {| collection := []; files := list_to_map fs; stdout := []; llm_calls := [];
     csv_files := []; max_batch_size := 166; storable := fun _ => true |}.

Definition auth_file : pystr := lit "synthetic_logs/AuthService_logs.jsonl".
Definition mail_file : pystr := lit "synthetic_logs/EmailService_logs.jsonl".

Definition stored (app : string) (i : nat) (r : LogEntry) : StoredEntry :=
  {| entry_id := lit app ++ lit "_" ++ correlation_id r ++ lit "_" ++ dec i;
     entry_document := [];
     entry_metadata := r |}.

Definition with_collection (c : list StoredEntry) : World :=
  {| collection := c; files := ∅; stdout := []; llm_calls := [];
     csv_files := []; max_batch_size := 166; storable := fun _ => true |}.

(** A state with files and a collection, and one whose store takes
    batches of one entry only. *)
Definition with_both (c : list StoredEntry)
    (fs : list (pystr * list pystr)) : World :=
  {| collection := c; files := list_to_map fs; stdout := []; llm_calls := [];
     csv_files := []; max_batch_size := 166; storable := fun _ => true |}.

Definition with_small_store (fs : list (pystr * list pystr)) : World :=
  {| collection := []; files := list_to_map fs; stdout := []; llm_calls := [];
     csv_files := []; max_batch_size := 1; storable := fun _ => true |}.

Definition item (r : LogEntry) : LogItem :=
  {| document := []; metadata := r |}.

End Samples.

Import Samples.

(* ===================================================================== *)
(** ** The statements of the specification *)
(* ===================================================================== *)

Section Statements.

Variable json_loads : pystr -> res json.
Variable str_field : json -> option pystr.
Variable llm : list pystr -> pystr -> pystr.

(** *** Ingestion *)

Definition log_file_of (logs_directory app : pystr) : pystr :=
  logs_directory ++ lit "/" ++ app ++ lit "_logs.jsonl".

(** The records of the schema-valid lines, in order. *)
Definition valid_records (lines : list pystr) : list LogEntry :=
  omap (fun line =>
          match parse_line json_loads str_field line with
          | Val log_entry => Some log_entry
          | Exc _ => None
          end) lines.

(** The exception that a line raises past the [except] clause, if any;
    and that of the first line of a file that raises one, which ends the
    loop over the lines. *)
Definition uncaught (line : pystr) : option exn :=
  match parse_line json_loads str_field line with
  | Exc e => if caught e then None else Some e
  | Val _ => None
  end.

Fixpoint first_uncaught (lines : list pystr) : option exn :=
  match lines with
  | [] => None
  | line :: rest =>
      match uncaught line with
      | Some e => Some e
      | None => first_uncaught rest
      end
  end.

(** The entries that [_store_logs_in_chroma] hands to the store for a
    batch. *)
Definition batch_entries (app : pystr) (logs : list LogEntry)
    : list StoredEntry :=
  imap (fun i log => {| entry_id := make_id app log i;
                        entry_document := doc_text log;
                        entry_metadata := log |}) logs.

(** The collection after the store has taken a batch that it accepts. *)
Definition store_add (held batch : list StoredEntry) : list StoredEntry :=
  held ++ new_entries held batch.

(** The batch of an application: the entries of the valid records of its
    file. *)
Definition app_batch (logs_directory : pystr)
    (fs : gmap pystr (list pystr)) (app : pystr) : list StoredEntry :=
  match fs !! log_file_of logs_directory app with
  | Some lines => batch_entries app (valid_records lines)
  | None => []
  end.

(** The exception that ends the turn of an application, if any: that of a
    line of its file, or the refusal of its batch by the store. *)
Definition turn_exn (logs_directory : pystr) (w : World) (app : pystr)
    : option exn :=
  match files w !! log_file_of logs_directory app with
  | None => None
  | Some lines =>
      match first_uncaught lines with
      | Some e => Some e
      | None =>
          if accepts w (batch_entries app (valid_records lines)) then None
          else Some StoreError
      end
  end.

(** The applications whose turn the loop of [load_application_logs]
    completes, those before the first whose turn raises; and the
    exception that ends the loop, if any. *)
Fixpoint loaded_prefix (logs_directory : pystr) (w : World)
    (apps : list pystr) : list pystr :=
  match apps with
  | [] => []
  | app :: rest =>
      match turn_exn logs_directory w app with
      | Some _ => []
      | None => app :: loaded_prefix logs_directory w rest
      end
  end.

Fixpoint run_exn (logs_directory : pystr) (w : World) (apps : list pystr)
    : option exn :=
  match apps with
  | [] => None
  | app :: rest =>
      match turn_exn logs_directory w app with
      | Some e => Some e
      | None => run_exn logs_directory w rest
      end
  end.

(** The collection after the batches of the applications [apps] have been
    stored, one after the other. *)
Definition stored_after (logs_directory : pystr)
    (fs : gmap pystr (list pystr)) (held : list StoredEntry)
    (apps : list pystr) : list StoredEntry :=
  foldl (fun c app => store_add c (app_batch logs_directory fs app))
        held apps.

(** The warnings that the loop over the lines prints. *)
Definition line_warnings (log_file : pystr) (start : nat)
    (lines : list pystr) : list event :=
  omap (fun nl0 : nat * pystr =>
          match parse_line json_loads str_field nl0.2 with
          | Exc e => if caught e then Some (PLineError log_file nl0.1 e)
                     else None
          | Val _ => None
          end) (enumerate start lines).

(** Every line of the files of the known applications holds a record or
    raises one of the two exceptions that are caught. *)
Definition lines_caught (logs_directory : pystr) (w : World) : Prop :=
  forall app lines line,
    app ∈ applications ->
    files w !! log_file_of logs_directory app = Some lines ->
    line ∈ lines ->
    uncaught line = None.

(** The store accepts the batch of every known application. *)
Definition batches_accepted (logs_directory : pystr) (w : World) : Prop :=
  forall app,
    app ∈ applications ->
    accepts w (app_batch logs_directory (files w) app) = true.

(** The number of schema-valid lines in the file of an application, and
    in the files of all the known applications. *)
Definition batch_size (logs_directory : pystr)
    (fs : gmap pystr (list pystr)) (app : pystr) : nat :=
  match fs !! log_file_of logs_directory app with
  | Some lines => length (valid_records lines)
  | None => 0%nat
  end.

Definition valid_total (logs_directory : pystr) (w : World) : nat :=
  sum_list (map (batch_size logs_directory (files w)) applications).

(** Schema-valid lines, and lines that are malformed JSON or fail field
    validation, as tests. *)
Definition is_valid (line : pystr) : bool :=
  match parse_line json_loads str_field line with
  | Val _ => true
  | Exc _ => false
  end.

Definition is_skipped (line : pystr) : bool :=
  match parse_line json_loads str_field line with
  | Exc e => caught e
  | Val _ => false
  end.

(** C7 as the specification words it: the operation returns the count of
    the records it loaded. *)
Definition returns_count (logs_directory : pystr) (w : World) : Prop :=
  exists w',
    load_application_logs json_loads str_field logs_directory w
      = (Val (PyInt (Z.of_nat (valid_total logs_directory w))), w').

(** C8 as the specification words it: an accepted record has no empty
    field. *)
Definition fields_nonempty (e : LogEntry) : Prop :=
  application e <> [] /\ correlation_id e <> [] /\ log_level e <> [] /\
  message e <> [] /\ details e <> [] /\ timestamp e <> [].

Definition accepted_nonempty : Prop :=
  forall raw e, LogEntry_init str_field raw = Val e -> fields_nonempty e.

Definition field_names : list pystr :=
  [ lit "application"; lit "correlation_id"; lit "log_level";
    lit "message"; lit "details"; lit "timestamp" ].

Definition field_value (e : LogEntry) (name : pystr) : pystr :=
  if decide (name = lit "application") then application e
  else if decide (name = lit "correlation_id") then correlation_id e
  else if decide (name = lit "log_level") then log_level e
  else if decide (name = lit "message") then message e
  else if decide (name = lit "details") then details e
  else timestamp e.

(** The identifiers of the stored entries are pairwise distinct. *)
Definition ids_unique (w : World) : Prop :=
  NoDup (map entry_id (collection w)).

(** C9 as the specification words it: a second load of the same files
    creates duplicate entries, as many as the first load stored. *)
Definition reload_duplicates (logs_directory : pystr) (w : World) : Prop :=
  let w1 := (load_application_logs json_loads str_field logs_directory w).2 in
  let w2 := (load_application_logs json_loads str_field logs_directory w1).2 in
  (length (collection w2) - length (collection w1)
   = length (collection w1) - length (collection w))%nat.

(** *** Retrieval *)

(** The entries of an application for a correlation id, in store order. *)
Definition matching (c : list StoredEntry) (cid app : pystr)
    : list LogItem :=
  map (fun e => {| document := entry_document e;
                   metadata := entry_metadata e |})
      (filter (fun e => correlation_id (entry_metadata e) = cid /\
                        application (entry_metadata e) = app) c).

Definition item_of (e : StoredEntry) : LogItem :=
  {| document := entry_document e; metadata := entry_metadata e |}.

(** The value of a key after the entries [l] have been appended to what
    the dict held under it. *)
Definition grouped (o : option (list LogItem)) (l : list LogItem)
    : option (list LogItem) :=
  match o, l with
  | None, [] => None
  | _, _ => Some (default [] o ++ l)
  end.

(** C2 as the specification words it. *)
Definition retrieval_spec (w : World) (cid : pystr) (top_k : Z) : Prop :=
  exists bundle,
    retrieve_logs_by_correlation_id cid top_k w = (Val bundle, w) /\
    (forall app,
       is_Some (bundle !! app) <-> matching (collection w) cid app <> []) /\
    (forall app l,
       bundle !! app = Some l ->
       exists n : nat,
         Z.of_nat n
           = Z.min (Z.of_nat (length (matching (collection w) cid app)))
                   top_k /\
         l = take n (matching (collection w) cid app)) /\
    ((forall e, e ∈ collection w ->
                correlation_id (entry_metadata e) <> cid) ->
     bundle = ∅).

(** *** Classification *)

Definition has_logs (app_logs : gmap pystr (list LogItem))
    (app : pystr) : bool :=
  match default [] (app_logs !! app) with
  | [] => false
  | _ :: _ => true
  end.

(** The prompt of an application that has logs. *)
Definition prompt_of (cid : pystr) (app_logs : gmap pystr (list LogItem))
    (app : pystr) : pystr :=
  prompt_format app cid
    (_prepare_context_for_llm (default [] (app_logs !! app))).

Definition verdicts : list pystr := [SUCCESS; FAILURE; UNKNOWN; NO_LOGS].

(** [FAILURE] spelt with U+0130, capital I with dot above. *)
Definition FAILURE_dotted : pystr := lit "FA" ++ [304] ++ lit "LURE".

(** The pattern matches the text at position [i]: [STATUS:], white space,
    and the token, each letter in either case. *)
Definition ci_word (w t : pystr) : Prop :=
  Forall2 (fun p c => ci_eq p c = true) w t.

Definition occurs_at (s : pystr) (i : nat) (tok t : pystr) : Prop :=
  exists a ws rest,
    (i <= length s)%nat /\
    drop i s = a ++ ws ++ t ++ rest /\
    ci_word (lit "STATUS:") a /\
    Forall (fun c => isspace c = true) ws /\
    ci_word tok t.

(** The text starts with the word [w], each letter in either case. *)
Fixpoint ci_prefix (w s : pystr) : bool :=
  match w, s with
  | [], _ => true
  | p :: w', c :: s' => ci_eq p c && ci_prefix w' s'
  | _ :: _, [] => false
  end.

(** What the pattern matches at the start of a text: the token that
    follows [STATUS:] and white space, as the text spells it. *)
Definition token_here (s : pystr) : option pystr :=
  if ci_prefix SUCCESS s then Some (take 7 s)
  else if ci_prefix FAILURE s then Some (take 7 s)
  else None.

Definition match_here (s : pystr) : option pystr :=
  if ci_prefix (lit "STATUS:") s then token_here (lstrip (drop 7 s))
  else None.

(** The code points of the pattern's literals. *)
Definition pattern_letters : list char :=
  [58; 65; 67; 69; 70; 73; 76; 82; 83; 84; 85].

(** C4 as the specification words it. *)
Definition shown_details (d : pystr) : pystr :=
  if (200 <? length d)%nat then take 200 d ++ lit "..." else d.

Definition entry_line (md : LogEntry) : pystr :=
  timestamp md ++ lit " - " ++ log_level md ++ lit ": " ++ message md
    ++ lit " (" ++ shown_details (details md) ++ lit ")".

Definition context_spec (logs : list LogItem) : Prop :=
  _prepare_context_for_llm logs
    = join nl (map (fun log_data => entry_line (metadata log_data)) logs).

(** *** Report *)

Definition header : list pystr := lit "correlation_id" :: applications.

Definition verdict_row (cid : pystr) (results : gmap pystr pystr)
    : list (option pystr) :=
  Some cid
    :: map (fun app => Some (default NO_LOGS (results !! app))) applications.

(** The classifier's results for the ids, one after the other. *)
Inductive processed : World -> list pystr -> list (gmap pystr pystr)
                      -> World -> Prop :=
| processed_nil w : processed w [] [] w
| processed_cons w cid results w1 ids more w2 :
    process_correlation_id llm cid w = (Val results, w1) ->
    processed w1 ids more w2 ->
    processed w (cid :: ids) (results :: more) w2.

(** C5 as the specification words it, with the columns that [cols]
    gives. *)
Definition report_spec (cols : list pystr) (correlation_ids : list pystr)
    (output_file : pystr) (w : World) : Prop :=
  exists df w' all w1,
    generate_csv_report llm correlation_ids output_file w = (Val df, w') /\
    processed (set_stdout (stdout w ++ [PGenerating (length correlation_ids)]) w)
              correlation_ids all w1 /\
    columns df = cols /\
    rows df = zip_with verdict_row correlation_ids all.

End Statements.

(* ===================================================================== *)
(** ** Statements about the whole pipeline *)
(* ===================================================================== *)

Section Pipeline.

Variable llm : list pystr -> pystr -> pystr.

(** The application has a stored entry with the correlation id. *)
Definition logged (c : list StoredEntry) (cid app : pystr) : bool :=
  match matching c cid app with
  | [] => false
  | _ :: _ => true
  end.

(** The prompt that [process_correlation_id] sends for an application:
    its context holds the first five matching entries. *)
Definition prompt_for (c : list StoredEntry) (cid app : pystr) : pystr :=
  prompt_format app cid
    (_prepare_context_for_llm (take 5 (matching c cid app))).

(** The prompts that [process_correlation_id] sends for the applications
    [apps], in order. *)
Definition prompts_for (c : list StoredEntry) (cid : pystr)
    (apps : list pystr) : list pystr :=
  map (prompt_for c cid) (List.filter (logged c cid) apps).

(** The verdict of an application, when the applications [before] come
    before it in the list and the prompts [calls] had been sent when the
    classification started. *)
Definition verdict_for (c : list StoredEntry) (cid : pystr)
    (calls : list pystr) (before : list pystr) (app : pystr) : pystr :=
  if logged c cid app then
    parse_status (llm (calls ++ prompts_for c cid before)
                      (prompt_for c cid app))
  else NO_LOGS.

(** The row of a correlation id when the model gives the same reply to
    every prompt. *)
Definition mock_row (reply : pystr) (c : list StoredEntry) (cid : pystr)
    : list (option pystr) :=
  Some cid
    :: map (fun app => Some (if logged c cid app then parse_status reply
                             else NO_LOGS)) applications.

End Pipeline.

(* ===================================================================== *)
(** ** Text files: what is written and what is read back *)
(* ===================================================================== *)

(** A file opened for reading in text mode: [\r\n] and a lone [\r] are
    read as [\n]. *)
Fixpoint universal_newlines (s : pystr) : pystr :=
  match s with
  | [] => []
  | c :: s' =>
      if c =? 13 then
        match s' with
        | c' :: s'' =>
            if c' =? 10 then 10 :: universal_newlines s''
            else 10 :: universal_newlines s'
        | [] => [10]
        end
      else c :: universal_newlines s'
  end.

(** The lines of a text: each ends after its [\n], which it keeps; the
    last one may have none. [cur] is the line being read, last character
    first. *)
Fixpoint lines_from (cur : pystr) (s : pystr) : list pystr :=
  match s with
  | [] => match cur with [] => [] | _ :: _ => [rev cur] end
  | c :: s' =>
      if c =? 10 then rev (c :: cur) :: lines_from [] s'
      else lines_from (c :: cur) s'
  end.

(** [f.readlines()], and the lines [for line in f] iterates over. *)
Definition readlines (content : pystr) : list pystr :=
  lines_from [] (universal_newlines content).

(** A text without a line break: neither [\n] nor [\r]. *)
Definition no_line_break (s : pystr) : Prop := (10 ∉ s) /\ (13 ∉ s).

(** [main]: [[line.strip() for line in f.readlines()]] *)
Definition read_correlation_ids (content : pystr) : list pystr :=
  map strip (readlines content).

(* ===================================================================== *)
(** ** The generator of synthetic logs (synthetic_data_generation.py) *)
(* ===================================================================== *)

Module Generator.

(** The values of a generated log: [str], [int] and [None]. *)
Inductive gval := GStr (s : pystr) | GInt (n : Z) | GNone.

#[global] Instance gval_eq_dec : EqDecision gval.
Proof. solve_decision. Defined.

(** A log: a [dict] with [str] keys, in insertion order. *)
Definition gen_log := list (pystr * gval).

(** [log[key]]: [None] stands for [KeyError]. *)
Fixpoint getitem (key : pystr) (log : gen_log) : option gval :=
  match log with
  | [] => None
  | (k, v) :: log' => if decide (k = key) then Some v else getitem key log'
  end.

(** [str(v)], as an f-string formats a value. *)
Definition str (v : gval) : pystr :=
  match v with
  | GStr s => s
  | GInt n =>
      if (n <? 0)%Z then lit "-" ++ dec (Z.to_nat (- n)) else dec (Z.to_nat n)
  | GNone => lit "None"
  end.


(** What the generator prints:
    [f"Saved {len(logs_list)} logs for {app} to {filename}"],
    [f"Generating additional logs to ensure {target_logs_per_app} logs per
    application..."] and [f"Generated {n} logs for {app}"]. *)
Inductive gen_event :=
| GSaved (n : nat) (app : gval) (filename : pystr)
| GEnsuring (target_logs_per_app : Z)
| GGenerated (n : nat) (app : pystr).


(** A lower-case hexadecimal digit, and [uuid.uuid4().hex]: 32 of them. *)
Definition is_hex_digit (c : char) : bool :=
  ((48 <=? c) && (c <=? 57)) || ((97 <=? c) && (c <=? 102)).

Definition is_uuid_hex (h : pystr) : bool :=
  (length h =? 32)%nat && forallb is_hex_digit h.

(** An upper-case hexadecimal digit. *)
Definition is_upper_hex (c : char) : bool :=
  ((48 <=? c) && (c <=? 57)) || ((65 <=? c) && (c <=? 70)).

(** [generate_correlation_id], with the value of [uuid.uuid4().hex]. *)
Definition generate_correlation_id (uuid_hex : pystr) : pystr :=
  lit "CORR-" ++ upper (take 12 uuid_hex).




(** The logs of an application, in the order of the list, and the list
    that [app_logs] holds under a key. *)
Definition logs_of (app : gval) (logs : list gen_log) : list gen_log :=
  List.filter
    (fun log => bool_decide (getitem (lit "application") log = Some app))
    logs.



(** The text written by a loop of [f.write(line + '\n')], where the line
    separator of the system is [\n]. *)
Definition written_lines (lines : list pystr) : pystr :=
  concat (map (fun line => line ++ nl) lines).

Section Saving.

(** [json.dumps] *)
Variable json_dumps : gen_log -> pystr.



End Saving.

(** The end of [create_sample_files]: the text of [correlation_ids.txt]. *)
Definition correlation_ids_file (unique_correlation_ids : list pystr)
    : pystr :=
  written_lines unique_correlation_ids.

(** [list(set(ids))]: the ids, each once, in the order that the set
    gives. *)
Definition list_of_set (ids unique : list pystr) : Prop :=
  NoDup unique /\ forall x, x ∈ unique <-> x ∈ ids.
















End Generator.

(** A generated log that the loader reads back as a given record: its
    JSON text holds no line break, and the line written for it parses to
    the record. *)
Section Handover.

Variable json_dumps : Generator.gen_log -> pystr.
Variable json_loads : pystr -> res json.
Variable str_field : json -> option pystr.


End Handover.

(* ===================================================================== *)
(** ** The generator: log entries and workflows *)
(* ===================================================================== *)

(** The generator draws from [random] and [uuid] and reads the clock. The
    values drawn are inputs of the model: the functions below say what is
    generated for given draws. *)
Module Workflows.
Import Generator.

Definition success_patterns : list pystr :=
  [ lit "Request processed successfully";
    lit "Operation completed without errors";
    lit "Transaction committed successfully";
    lit "Data saved to database";
    lit "Response sent to client with status 200";
    lit "Process finished with status: SUCCESS";
    lit "Workflow step completed successfully";
    lit "Authentication successful for user";
    lit "File uploaded successfully";
    lit "Email sent successfully";
    lit "Report generated successfully";
    lit "Cache updated successfully";
    lit "Connection established successfully";
    lit "Session created successfully";
    lit "Validation passed for all fields";
    lit "Backup completed successfully";
    lit "Index rebuilt successfully";
    lit "Synchronization completed" ].

Definition error_patterns : list pystr :=
  [ lit "Connection timeout after 30 seconds";
    lit "Database connection pool exhausted";
    lit "Authentication failed - invalid credentials";
    lit "Permission denied for user access";
    lit "Invalid request format - missing required fields";
    lit "Service temporarily unavailable";
    lit "Internal server error - null pointer exception";
    lit "Transaction rolled back due to constraint violation";
    lit "Validation failed - invalid email format";
    lit "File not found at specified path";
    lit "Disk space insufficient for operation";
    lit "Memory allocation failed";
    lit "Network unreachable";
    lit "SSL certificate expired";
    lit "Rate limit exceeded for API calls";
    lit "Deadlock detected in database";
    lit "Configuration file corrupted";
    lit "External service returned error 500" ].

Definition warning_patterns : list pystr :=
  [ lit "Retry attempt #2 for failed operation";
    lit "Slow query detected - execution time > 5s";
    lit "Memory usage above 80% threshold";
    lit "Rate limit approaching - 90% of quota used";
    lit "Deprecated API endpoint used";
    lit "Connection pool running low";
    lit "Cache miss rate above normal threshold";
    lit "Large file size detected - may cause performance issues";
    lit "Session timeout approaching";
    lit "Backup taking longer than expected";
    lit "High CPU utilization detected";
    lit "Unusual traffic pattern detected" ].

Definition debug_patterns : list pystr :=
  [ lit "Entering method with parameters";
    lit "SQL query executed";
    lit "Cache lookup performed";
    lit "Configuration loaded from file";
    lit "Thread started for background processing";
    lit "Serialization completed";
    lit "HTTP request headers logged";
    lit "Database connection acquired from pool" ].

(** [random.choice(seq)] for the index drawn. *)
Definition choice (seq : list pystr) (k : nat) : pystr := nth k seq [].

Definition choice_int (seq : list Z) (k : nat) : Z := nth k seq 0%Z.

(** What one call of [generate_log_entry] draws: the indices chosen by
    [random.choice], the values of [random.randint] and of
    [uuid.uuid4().hex], and for [method] and [response_code] the index
    chosen, or nothing where [random.random()] is not below the
    threshold. *)
Record EntryDraws := {
  message_index : nat;
  process_index : nat;
  duration_ms : Z;
  thread_no : Z;
  user_no : Z;
  session_uuid : pystr;
  request_uuid : pystr;
  host_no : Z;
  method_draw : option nat;
  response_draw : option nat
}.

(** [log[key] = v] *)
Fixpoint setitem (key : pystr) (v : gval) (log : gen_log) : gen_log :=
  match log with
  | [] => [(key, v)]
  | (k, x) :: rest =>
      if decide (k = key) then (k, v) :: rest
      else (k, x) :: setitem key v rest
  end.

Section Entries.

(** [str.lower] *)
Variable lower : pystr -> pystr.

(** [generate_log_entry]; [timestamp] is the text of
    [timestamp.isoformat()]. *)
Definition generate_log_entry
    (correlation_id app_name timestamp log_level : pystr)
    (d : EntryDraws) : gen_log :=
  let '(message, details) :=
    if decide (log_level = lit "ERROR") then
      let message := choice error_patterns (message_index d) in
      (message,
       lit "Error in " ++ app_name ++ lit ": " ++ message
         ++ lit " | StackTrace: com.company." ++ lower app_name
         ++ lit ".Exception")
    else if decide (log_level = lit "WARN") then
      let message := choice warning_patterns (message_index d) in
      (message,
       lit "Warning in " ++ app_name ++ lit ": " ++ message
         ++ lit " | Action: Monitor closely")
    else if decide (log_level = lit "DEBUG") then
      let message := choice debug_patterns (message_index d) in
      (message,
       lit "Debug " ++ app_name ++ lit ": " ++ message
         ++ lit " | Method: process_"
         ++ choice [lit "request"; lit "data"; lit "transaction"]
              (process_index d))
    else
      let message := choice success_patterns (message_index d) in
      (message,
       app_name ++ lit ": " ++ message ++ lit " | Duration: "
         ++ str (GInt (duration_ms d)) ++ lit "ms") in
  [ (lit "timestamp", GStr timestamp);
    (lit "correlation_id", GStr correlation_id);
    (lit "application", GStr app_name);
    (lit "log_level", GStr log_level);
    (lit "message", GStr message);
    (lit "details", GStr details);
    (lit "thread_id", GStr (lit "thread-" ++ str (GInt (thread_no d))));
    (lit "user_id", GStr (lit "user_" ++ str (GInt (user_no d))));
    (lit "session_id", GStr (lit "session_" ++ take 8 (session_uuid d)));
    (lit "request_id", GStr (lit "req_" ++ take 6 (request_uuid d)));
    (lit "host",
     GStr (lit "server-" ++ str (GInt (host_no d)) ++ lit ".company.com"));
    (lit "method",
     match method_draw d with
     | Some k =>
         GStr (choice [lit "GET"; lit "POST"; lit "PUT"; lit "DELETE";
                       lit "PATCH"] k)
     | None => GNone
     end);
    (lit "response_code",
     match response_draw d with
     | Some k =>
         GInt (choice_int [200; 201; 400; 401; 403; 404; 500; 502; 503]%Z k)
     | None => GNone
     end) ].

(** What one turn of the loop of a workflow draws: the text of
    [step_time.isoformat()]; whether [random.random()] is below the
    threshold of a warning; the draws of the entry; for the context log
    and for the performance log, nothing where [random.random()] is not
    below the threshold, and otherwise the text of the time, the draws
    of the entry and the values of [random.randint]. *)
Record StepDraws := {
  step_time : pystr;
  warn_draw : bool;
  entry_draws : EntryDraws;
  context_draw : option (pystr * EntryDraws);
  perf_draw : option (pystr * EntryDraws * Z * Z)
}.

(** The level of the main log of step [i]. *)
Definition step_level (error_at_step : Z) (i : nat) (d : StepDraws)
    : pystr :=
  if decide (Z.of_nat i = error_at_step) then lit "ERROR"
  else if warn_draw d then lit "WARN"
  else lit "INFO".

(** The context log of step [i]. *)
Definition context_logs (correlation_id : pystr) (i : nat) (app : pystr)
    (d : StepDraws) : list gen_log :=
  match context_draw d with
  | Some (context_time, e) =>
      [ setitem (lit "message")
          (GStr (lit "Processing step " ++ dec (i + 1)
                   ++ lit " for correlation " ++ correlation_id))
          (generate_log_entry correlation_id app context_time
             (lit "DEBUG") e) ]
  | None => []
  end.

(** The body of the loop of [generate_workflow_logs]. *)
Definition workflow_step (correlation_id : pystr) (error_at_step : Z)
    (i : nat) (app : pystr) (d : StepDraws) : list gen_log :=
  generate_log_entry correlation_id app (step_time d)
    (step_level error_at_step i d) (entry_draws d)
  :: context_logs correlation_id i app d.

(** The body of the loop of [generate_targeted_workflow_logs]. *)
Definition targeted_step (correlation_id : pystr) (error_at_step : Z)
    (i : nat) (app : pystr) (d : StepDraws) : list gen_log :=
  generate_log_entry correlation_id app (step_time d)
    (step_level error_at_step i d) (entry_draws d)
  :: context_logs correlation_id i app d
  ++ match perf_draw d with
     | Some (perf_time, e, response_time, memory) =>
         [ setitem (lit "details")
             (GStr (app ++ lit ": Response time: "
                      ++ str (GInt response_time) ++ lit "ms, Memory: "
                      ++ str (GInt memory) ++ lit "MB"))
             (setitem (lit "message")
                (GStr (lit "Performance metrics logged"))
                (generate_log_entry correlation_id app perf_time
                   (lit "INFO") e)) ]
     | None => []
     end.

(** What a workflow draws: the applications ([random.sample] and, for a
    targeted workflow, [random.shuffle]), whether it has an error, the
    step of the error, and the draws of each step. *)
Record WorkflowDraws := {
  drawn_apps : list pystr;
  has_error : bool;
  error_step : Z;
  steps : nat -> StepDraws
}.

Definition error_at_step (d : WorkflowDraws) : Z :=
  if has_error d then error_step d else (-1)%Z.

(** The dict [workflows]. *)
Definition workflows : list (pystr * list pystr) :=
  [ (lit "email_send",
     [lit "AuthService"; lit "UserManagement"; lit "EmailService";
      lit "AuditService"]);
    (lit "report_generation",
     [lit "AuthService"; lit "DatabaseService"; lit "ReportingService";
      lit "FileService"; lit "NotificationService"]);
    (lit "user_registration",
     [lit "UserManagement"; lit "DatabaseService"; lit "EmailService";
      lit "AuditService"]);
    (lit "file_upload",
     [lit "AuthService"; lit "FileService"; lit "DatabaseService";
      lit "NotificationService"]) ].

(** [workflows.get(workflow_type, random.sample(self.applications, 4))] *)
Definition apps_sequence (workflow_type : pystr) (d : WorkflowDraws)
    : list pystr :=
  match List.find (fun p => bool_decide (p.1 = workflow_type)) workflows
  with
  | Some p => p.2
  | None => drawn_apps d
  end.

Definition generate_workflow_logs (correlation_id workflow_type : pystr)
    (d : WorkflowDraws) : list gen_log :=
  concat (imap (fun i app =>
                  workflow_step correlation_id (error_at_step d) i app
                    (steps d i))
               (apps_sequence workflow_type d)).

(** [generate_targeted_workflow_logs]: [drawn_apps] is [workflow_apps]
    after the shuffle. *)
Definition generate_targeted_workflow_logs
    (correlation_id target_app : pystr) (d : WorkflowDraws)
    : list gen_log :=
  concat (imap (fun i app =>
                  targeted_step correlation_id (error_at_step d) i app
                    (steps d i))
               (drawn_apps d)).

(** The draws that [random] can give a targeted workflow: the target and
    two to four other known applications, in some order; an error at
    one of the steps. *)
Definition targeted_draws (target_app : pystr) (d : WorkflowDraws)
    : Prop :=
  (exists sampled,
     drawn_apps d ≡ₚ target_app :: sampled /\
     NoDup sampled /\
     (forall app, app ∈ sampled ->
                  app ∈ applications /\ app <> target_app) /\
     (2 <= length sampled <= 4)%nat) /\
  (has_error d = true ->
   (0 <= error_step d < Z.of_nat (length (drawn_apps d)))%Z).

(** The draws that [random] can give a workflow of a type: four known
    applications; an error at a step after the first. *)
Definition workflow_draws (workflow_type : pystr) (d : WorkflowDraws)
    : Prop :=
  (NoDup (drawn_apps d) /\ length (drawn_apps d) = 4%nat /\
   forall app, app ∈ drawn_apps d -> app ∈ applications) /\
  (has_error d = true ->
   (1 <= error_step d
    <= Z.of_nat (length (apps_sequence workflow_type d)) - 1)%Z).

(** The workflows generated for one application: the correlation id and
    the logs of each; [draws j] is what the [j]-th draws, the uuid of
    its correlation id first. *)
Definition app_workflows (workflows_needed : nat)
    (draws : nat -> pystr * WorkflowDraws) (app : pystr)
    : list (pystr * list gen_log) :=
  map (fun j =>
         let correlation_id := generate_correlation_id (draws j).1 in
         (correlation_id,
          generate_targeted_workflow_logs correlation_id app (draws j).2))
      (seq 0 workflows_needed).

(** [app_logs] and [app_correlation_ids] of an application. *)
Definition app_logs_of (ws : list (pystr * list gen_log)) : list gen_log :=
  concat (map snd ws).

(** [generate_additional_logs_per_app], over the list of the
    applications of the generator, which is that of the analyser:
    [draws i] is what the workflows of the [i]-th application draw. The
    result is [all_logs], [correlation_ids] and what was printed. *)
Definition generate_additional_logs_per_app (target_logs_per_app : Z)
    (draws : nat -> nat -> pystr * WorkflowDraws)
    : list gen_log * list pystr * list gen_event :=
  let workflows_needed := Z.to_nat (target_logs_per_app / 3) in
  let per_app :=
    imap (fun i app => (app, app_workflows workflows_needed (draws i) app))
         applications in
  (concat (map (fun p => app_logs_of p.2) per_app),
   concat (map (fun p => map fst p.2) per_app),
   GEnsuring target_logs_per_app
     :: map (fun p =>
               GGenerated (length (logs_of (GStr p.1) (app_logs_of p.2)))
                 p.1)
            per_app).

(** [generate_dataset]: [draws j] is what the [j]-th turn of the loop
    draws: the uuid of the correlation id, the index of the workflow
    type, and the draws of the workflow. The result is [all_logs] and
    [correlation_ids]. *)
Definition workflow_types : list pystr :=
  [ lit "email_send"; lit "report_generation"; lit "user_registration";
    lit "file_upload" ].

Definition dataset_workflows (num_workflows : Z)
    (draws : nat -> pystr * nat * WorkflowDraws)
    : list (pystr * list gen_log) :=
  map (fun j =>
         let correlation_id := generate_correlation_id (draws j).1.1 in
         let workflow_type := choice workflow_types (draws j).1.2 in
         (correlation_id,
          generate_workflow_logs correlation_id workflow_type (draws j).2))
      (seq 0 (Z.to_nat num_workflows)).

Definition generate_dataset (num_workflows : Z)
    (draws : nat -> pystr * nat * WorkflowDraws)
    : list gen_log * list pystr :=
  let ws := dataset_workflows num_workflows draws in
  (concat (map snd ws), map fst ws).

End Entries.

(** A log with a given correlation id, application and level. *)
Definition log_of (correlation_id app level : pystr) (log : gen_log)
    : Prop :=
  getitem (lit "correlation_id") log = Some (GStr correlation_id) /\
  getitem (lit "application") log = Some (GStr app) /\
  getitem (lit "log_level") log = Some (GStr level).

Definition level_is (level : pystr) (log : gen_log) : bool :=
  bool_decide (getitem (lit "log_level") log = Some (GStr level)).

(** The logs of level [ERROR]. *)
Definition errors (logs : list gen_log) : list gen_log :=
  List.filter (level_is (lit "ERROR")) logs.

(** Sample draws. *)
Definition sample_entry : EntryDraws :=
  {| message_index := 2; process_index := 1; duration_ms := 42;
     thread_no := 1234; user_no := 123;
     session_uuid := lit "0123456789abcdef0123456789abcdef";
     request_uuid := lit "fedcba9876543210fedcba9876543210";
     host_no := 3; method_draw := Some 1%nat; response_draw := None |}.

Definition sample_step : StepDraws :=
  {| step_time := lit "2024-01-01T10:00:00"; warn_draw := false;
     entry_draws := sample_entry;
     context_draw := Some (lit "2024-01-01T10:00:00.250000", sample_entry);
     perf_draw := None |}.

(** A targeted workflow: two other applications, then the target; an
    error at the first step. *)
Definition sample_others (target_app : pystr) : list pystr :=
  take 2 (List.filter (fun app => negb (bool_decide (app = target_app)))
            applications).

Definition sample_targeted (target_app : pystr) : WorkflowDraws :=
  {| drawn_apps := sample_others target_app ++ [target_app];
     has_error := true; error_step := 0;
     steps := fun _ => sample_step |}.

(** A workflow with an error at its third step. *)
Definition sample_workflow : WorkflowDraws :=
  {| drawn_apps := [lit "AuthService"; lit "EmailService";
                    lit "FileService"; lit "AuditService"];
     has_error := true; error_step := 2;
     steps := fun _ => sample_step |}.

Definition sample_draws (i j : nat) : pystr * WorkflowDraws :=
  (lit "0123456789abcdef0123456789abcdef",
   sample_targeted (nth i applications [])).

Definition sample_dataset_draws (j : nat) : pystr * nat * WorkflowDraws :=
  (lit "0123456789abcdef0123456789abcdef", 0%nat, sample_workflow).

(** [str.lower] on the letters A to Z. *)
Definition ascii_lower (s : pystr) : pystr := map to_lower s.

End Workflows.

(* ===================================================================== *)
(** ** Running the monad *)
(* ===================================================================== *)

Lemma bind_val {A B} (m : Py A) (f : A -> Py B) w a w' :
  m w = (Val a, w') -> bind m f w = f a w'.
Proof. intros H. unfold bind. rewrite H. reflexivity. Qed.

Lemma bind_exc {A B} (m : Py A) (f : A -> Py B) w e w' :
  m w = (Exc e, w') -> bind m f w = (Exc e, w').
Proof. intros H. unfold bind. rewrite H. reflexivity. Qed.

Lemma set_stdout_same w : set_stdout (stdout w) w = w.
Proof. destruct w; reflexivity. Qed.

Lemma set_collection_same w : set_collection (collection w) w = w.
Proof. destruct w; reflexivity. Qed.

Lemma print_run ev w :
  print ev w = (Val tt, set_stdout (stdout w ++ [ev]) w).
Proof. reflexivity. Qed.

(* ===================================================================== *)
(** ** Identifiers *)
(* ===================================================================== *)

Lemma lit_inj s1 s2 : lit s1 = lit s2 -> s1 = s2.
Proof.
  unfold lit. intros H.
  rewrite <- (string_of_list_ascii_of_string s1),
          <- (string_of_list_ascii_of_string s2).
  f_equal. revert H.
  generalize (list_ascii_of_string s1) (list_ascii_of_string s2).
  induction l as [|a l IH]; intros [|b l'] H; try discriminate; [reflexivity|].
  injection H as Hab Hl. f_equal; [|apply IH, Hl].
  rewrite <- (ascii_N_embedding a), <- (ascii_N_embedding b), Hab.
  reflexivity.
Qed.

Lemma dec_inj i j : dec i = dec j -> i = j.
Proof.
  unfold dec. intros H. apply lit_inj in H.
  apply Unsigned.to_uint_inj.
  assert (Hs : Some (Nat.to_uint i) = Some (Nat.to_uint j))
    by (rewrite <- !NilEmpty.usu, H; reflexivity).
  congruence.
Qed.

Lemma digits_no_underscore d : 95 ∉ lit (NilEmpty.string_of_uint d).
Proof.
  induction d; cbn;
    try (apply not_elem_of_cons; split; [discriminate|assumption]).
  apply not_elem_of_nil.
Qed.

Lemma dec_no_underscore i : 95 ∉ dec i.
Proof. apply digits_no_underscore. Qed.

(** Two texts cut at their first underscore agree part by part. *)
Lemma cut_at_underscore (a1 a2 x y : pystr) :
  95 ∉ a1 -> 95 ∉ a2 -> a1 ++ 95 :: x = a2 ++ 95 :: y -> a1 = a2 /\ x = y.
Proof.
  revert a2. induction a1 as [|c a1 IH]; intros [|c' a2] H1 H2 H; cbn in H.
  - injection H as ->. auto.
  - injection H as Hc _. subst c'. exfalso. apply H2. left.
  - injection H as Hc _. subst c. exfalso. apply H1. left.
  - injection H as -> H.
    apply not_elem_of_cons in H1 as [_ H1].
    apply not_elem_of_cons in H2 as [_ H2].
    destruct (IH a2 H1 H2 H) as [-> ->]. auto.
Qed.

Lemma make_id_index app log1 log2 i j :
  make_id app log1 i = make_id app log2 j -> i = j.
Proof.
  unfold make_id. intros H. apply app_inv_head in H.
  change (lit "_") with [95] in H. cbn [Datatypes.app] in H.
  injection H as H.
  apply (f_equal (@rev char)) in H.
  rewrite !rev_app_distr in H. cbn [rev Datatypes.app] in H.
  rewrite <- !app_assoc in H. cbn [Datatypes.app] in H.
  apply cut_at_underscore in H as [H _].
  - apply dec_inj. rewrite <- (rev_involutive (dec i)), H, rev_involutive.
    reflexivity.
  - intros Hin. apply list_elem_of_In, in_rev, list_elem_of_In in Hin.
    exact (dec_no_underscore _ Hin).
  - intros Hin. apply list_elem_of_In, in_rev, list_elem_of_In in Hin.
    exact (dec_no_underscore _ Hin).
Qed.

Lemma make_id_app app1 app2 log1 log2 i j :
  95 ∉ app1 -> 95 ∉ app2 ->
  make_id app1 log1 i = make_id app2 log2 j -> app1 = app2.
Proof.
  unfold make_id. change (lit "_") with [95]. cbn [Datatypes.app].
  intros H1 H2 H. apply cut_at_underscore in H as [H _]; assumption.
Qed.

Lemma applications_no_underscore app : app ∈ applications -> 95 ∉ app.
Proof.
  intros H.
  assert (Hall : Forall (fun a => 95 ∉ a) applications).
  { unfold applications. repeat constructor; vm_compute; 
      intros Hin; apply list_elem_of_In in Hin; cbn in Hin; 
      repeat (destruct Hin as [Hin|Hin]; [discriminate|]); exact Hin. }
  rewrite Forall_forall in Hall. apply Hall, H.
Qed.

Lemma applications_NoDup : NoDup applications.
Proof. apply (bool_decide_unpack _). vm_compute. exact I. Qed.

Lemma elem_of_concat {A} (x : A) (ls : list (list A)) :
  x ∈ concat ls <-> exists l, x ∈ l /\ l ∈ ls.
Proof.
  rewrite list_elem_of_In, in_concat. split.
  - intros (l & Hl & Hx). exists l. rewrite !list_elem_of_In. auto.
  - intros (l & Hx & Hl). exists l. rewrite <- !list_elem_of_In. auto.
Qed.

(* ===================================================================== *)
(** ** The store *)
(* ===================================================================== *)

Lemma accepts_nil w : accepts w [] = true.
Proof. reflexivity. Qed.

Lemma new_entries_sub held batch e :
  e ∈ new_entries held batch ->
  e ∈ batch /\ entry_id e ∉ map entry_id held.
Proof.
  unfold new_entries. intros H.
  apply list_elem_of_In, filter_In in H as [Hin Hp].
  split; [apply list_elem_of_In, Hin|].
  apply bool_decide_eq_true in Hp. exact Hp.
Qed.

Lemma new_entries_fresh held batch e :
  e ∈ batch -> entry_id e ∉ map entry_id held ->
  e ∈ new_entries held batch.
Proof.
  intros Hin Hid. unfold new_entries.
  apply list_elem_of_In, filter_In. split; [apply list_elem_of_In, Hin|].
  apply bool_decide_eq_true. exact Hid.
Qed.

(** A batch whose identifiers the store holds adds nothing; one whose
    identifiers it does not hold is added whole. *)
Lemma new_entries_held held batch :
  (forall e, e ∈ batch -> entry_id e ∈ map entry_id held) ->
  new_entries held batch = [].
Proof.
  unfold new_entries. induction batch as [|e batch IH]; intros H;
    [reflexivity|].
  cbn [List.filter].
  rewrite bool_decide_eq_false_2.
  - apply IH. intros x Hx. apply H, elem_of_cons. auto.
  - intros Hn. apply Hn, H, elem_of_cons. auto.
Qed.


Lemma filter_ids_NoDup (p : StoredEntry -> bool) (l : list StoredEntry) :
  NoDup (map entry_id l) -> NoDup (map entry_id (List.filter p l)).
Proof.
  induction l as [|e l IH]; intros H; [constructor|].
  cbn [map] in H. apply NoDup_cons in H as [He Hl].
  cbn [List.filter]. destruct (p e); [|apply IH, Hl].
  cbn [map]. apply NoDup_cons. split; [|apply IH, Hl].
  intros Hin. apply He.
  apply list_elem_of_fmap in Hin as (x & -> & Hx).
  apply list_elem_of_fmap. exists x. split; [reflexivity|].
  apply list_elem_of_In, filter_In in Hx as [Hx _].
  apply list_elem_of_In, Hx.
Qed.

Lemma store_add_elem held batch e :
  e ∈ store_add held batch -> e ∈ held \/ e ∈ batch.
Proof.
  unfold store_add. intros H. apply elem_of_app in H as [H|H]; [auto|].
  right. apply new_entries_sub in H as [H _]. exact H.
Qed.

Lemma store_add_held held batch e : e ∈ held -> e ∈ store_add held batch.
Proof. intros H. apply elem_of_app. auto. Qed.

(** After a batch is stored, the store holds all its identifiers. *)
Lemma store_add_ids held batch x :
  x ∈ map entry_id held \/ x ∈ map entry_id batch ->
  x ∈ map entry_id (store_add held batch).
Proof.
  unfold store_add. rewrite map_app, elem_of_app.
  intros [H|H]; [auto|].
  destruct (decide (x ∈ map entry_id held)) as [Hx|Hx]; [auto|right].
  apply list_elem_of_fmap in H as (e & -> & He).
  apply list_elem_of_fmap. exists e. split; [reflexivity|].
  apply new_entries_fresh; assumption.
Qed.

(** The store keeps its identifiers pairwise distinct. *)
Lemma store_add_NoDup held batch :
  NoDup (map entry_id held) -> NoDup (map entry_id batch) ->
  NoDup (map entry_id (store_add held batch)).
Proof.
  intros Hh Hb. unfold store_add. rewrite map_app.
  apply NoDup_app. split; [exact Hh|split].
  - intros x Hx Hx'.
    apply list_elem_of_fmap in Hx' as (e & -> & He).
    apply new_entries_sub in He as [_ He]. contradiction.
  - apply filter_ids_NoDup, Hb.
Qed.

(* ===================================================================== *)
(** ** Ingestion *)
(* ===================================================================== *)

Section Ingestion.

Variable json_loads : pystr -> res json.
Variable str_field : json -> option pystr.

Local Abbreviation parse_line := (parse_line json_loads str_field).
Local Abbreviation read_log_file := (read_log_file json_loads str_field).
Local Abbreviation load_app := (load_app json_loads str_field).
Local Abbreviation load_application_logs :=
  (load_application_logs json_loads str_field).
Local Abbreviation valid_records := (valid_records json_loads str_field).
Local Abbreviation uncaught := (uncaught json_loads str_field).
Local Abbreviation first_uncaught := (first_uncaught json_loads str_field).
Local Abbreviation line_warnings := (line_warnings json_loads str_field).
Local Abbreviation app_batch := (app_batch json_loads str_field).
Local Abbreviation turn_exn := (turn_exn json_loads str_field).
Local Abbreviation loaded_prefix := (loaded_prefix json_loads str_field).
Local Abbreviation run_exn := (run_exn json_loads str_field).
Local Abbreviation stored_after := (stored_after json_loads str_field).
Local Abbreviation valid_total := (valid_total json_loads str_field).
Local Abbreviation lines_caught := (lines_caught json_loads str_field).
Local Abbreviation batches_accepted :=
  (batches_accepted json_loads str_field).
Local Abbreviation batch_size := (batch_size json_loads str_field).
Local Abbreviation is_valid := (is_valid json_loads str_field).
Local Abbreviation is_skipped := (is_skipped json_loads str_field).

Lemma valid_records_cons line lines :
  valid_records (line :: lines)
  = match parse_line line with
    | Val e => e :: valid_records lines
    | Exc _ => valid_records lines
    end.
Proof. unfold valid_records. cbn. destruct (parse_line line); reflexivity. Qed.

Lemma line_warnings_cons log_file start line lines :
  line_warnings log_file start (line :: lines)
  = match parse_line line with
    | Exc e =>
        if caught e
        then PLineError log_file start e
               :: line_warnings log_file (S start) lines
        else line_warnings log_file (S start) lines
    | Val _ => line_warnings log_file (S start) lines
    end.
Proof.
  unfold line_warnings. cbn.
  destruct (parse_line line) as [|e]; [reflexivity|].
  destruct (caught e); reflexivity.
Qed.

(** The loop over the lines, when no line raises past the [except]
    clause, and when one does. *)
Lemma read_lines_run log_file lines : forall start acc w,
  first_uncaught lines = None ->
  for_each (enumerate start lines) acc
    (read_line json_loads str_field log_file) w
  = (Val (acc ++ valid_records lines),
     set_stdout (stdout w ++ line_warnings log_file start lines) w).
Proof.
  induction lines as [|line lines IH]; intros start acc w Hok.
  - cbn. rewrite !app_nil_r, set_stdout_same. reflexivity.
  - cbn [first_uncaught] in Hok. unfold uncaught in Hok.
    cbn [enumerate for_each]. unfold bind at 1, read_line at 1.
    rewrite valid_records_cons, line_warnings_cons.
    destruct (parse_line line) as [e|e] eqn:Hp.
    + cbn. rewrite IH by exact Hok. rewrite <- app_assoc. reflexivity.
    + destruct (caught e) eqn:Hc; [|discriminate Hok].
      cbn. rewrite IH by exact Hok. cbn.
      rewrite <- app_assoc. reflexivity.
Qed.

Lemma read_lines_abort log_file lines e : forall start acc w,
  first_uncaught lines = Some e ->
  exists out,
    for_each (enumerate start lines) acc
      (read_line json_loads str_field log_file) w
    = (Exc e, set_stdout (stdout w ++ out) w).
Proof.
  induction lines as [|line lines IH]; intros start acc w Hbad;
    [discriminate Hbad|].
  cbn [first_uncaught] in Hbad. unfold uncaught in Hbad.
  cbn [enumerate for_each]. unfold bind at 1, read_line at 1.
  destruct (parse_line line) as [r|e'] eqn:Hp.
  - cbn. apply IH, Hbad.
  - destruct (caught e') eqn:Hc.
    + cbn.
      destruct (IH (S start) acc
                  (set_stdout (stdout w ++ [PLineError log_file start e']) w)
                  Hbad) as [out Hrun].
      exists (PLineError log_file start e' :: out).
      rewrite Hrun. cbn. rewrite <- app_assoc. reflexivity.
    + injection Hbad as <-. exists []. cbn.
      rewrite app_nil_r, set_stdout_same. reflexivity.
Qed.

Lemma read_log_file_ok log_file lines w :
  first_uncaught lines = None ->
  read_log_file log_file lines w
  = (Val (valid_records lines),
     set_stdout (stdout w ++ line_warnings log_file 1 lines) w).
Proof.
  intros H. unfold read_log_file, read_log_file.
  rewrite (read_lines_run log_file lines 1 [] w H). reflexivity.
Qed.

Lemma read_log_file_abort log_file lines e w :
  first_uncaught lines = Some e ->
  exists out,
    read_log_file log_file lines w
    = (Exc e, set_stdout (stdout w ++ out) w).
Proof. intros H. apply read_lines_abort, H. Qed.

Lemma first_uncaught_None lines :
  first_uncaught lines = None <->
  forall line, line ∈ lines -> uncaught line = None.
Proof.
  induction lines as [|line lines IH]; cbn [first_uncaught].
  - split; [|reflexivity]. intros _ l Hl. apply elem_of_nil in Hl.
    contradiction.
  - destruct (uncaught line) as [e|] eqn:Hu.
    + split; [discriminate|]. intros H.
      rewrite (H line) in Hu by (apply elem_of_cons; auto). discriminate.
    + rewrite IH. split.
      * intros H l Hl. apply elem_of_cons in Hl as [->|Hl]; auto.
      * intros H l Hl. apply H, elem_of_cons. auto.
Qed.

Lemma zip_with_imap {A} (mk : pystr -> pystr -> A -> StoredEntry)
    (d : A -> pystr) (l : list A) : forall (g : nat -> A -> pystr),
  zip_with (fun i dm => mk i dm.1 dm.2) (imap g l) (zip (map d l) l)
  = imap (fun i x => mk (g i x) (d x) x) l.
Proof.
  induction l as [|x l IH]; intros g; [reflexivity|].
  cbn. f_equal. apply (IH (g ∘ S)).
Qed.

(** [_store_logs_in_chroma]: the store takes the batch or refuses it. *)
Lemma store_run logs app w :
  _store_logs_in_chroma logs app w
  = if accepts w (batch_entries app logs)
    then (Val tt,
          set_collection
            (store_add (collection w) (batch_entries app logs)) w)
    else (Exc StoreError, w).
Proof.
  unfold _store_logs_in_chroma, batch_entries.
  destruct logs as [|log logs].
  - cbn [map imap]. rewrite accepts_nil. unfold store_add, new_entries.
    cbn [List.filter]. rewrite app_nil_r, set_collection_same. reflexivity.
  - cbn [map]. unfold collection_add.
    change (doc_text log :: map doc_text logs)
      with (map doc_text (log :: logs)).
    rewrite (zip_with_imap
               (fun i d m => {| entry_id := i; entry_document := d;
                                entry_metadata := m |})).
    unfold bind, get_world. cbn beta iota.
    destruct (accepts w _); reflexivity.
Qed.

(** The turn of an application does not look at what is stored or
    printed. *)
Lemma turn_exn_frame dir w c o app :
  turn_exn dir (set_stdout o (set_collection c w)) app = turn_exn dir w app.
Proof. reflexivity. Qed.

Lemma run_exn_frame dir w c o apps :
  run_exn dir (set_stdout o (set_collection c w)) apps = run_exn dir w apps.
Proof.
  induction apps as [|app apps IH]; [reflexivity|].
  cbn [run_exn]. rewrite turn_exn_frame, IH. reflexivity.
Qed.

Lemma loaded_prefix_frame dir w c o apps :
  loaded_prefix dir (set_stdout o (set_collection c w)) apps
  = loaded_prefix dir w apps.
Proof.
  induction apps as [|app apps IH]; [reflexivity|].
  cbn [loaded_prefix]. rewrite turn_exn_frame, IH. reflexivity.
Qed.

(** One turn of the loop over the applications. *)
Lemma load_app_run dir total app w :
  exists out,
    load_app dir total app w
    = (match turn_exn dir w app with
       | Some e => Exc e
       | None => Val (total + batch_size dir (files w) app)%nat
       end,
       set_stdout (stdout w ++ out)
         (set_collection
            (match turn_exn dir w app with
             | Some _ => collection w
             | None => store_add (collection w) (app_batch dir (files w) app)
             end) w)).
Proof.
  unfold load_app, load_app, turn_exn, batch_size,
    app_batch.
  fold (log_file_of dir app).
  unfold bind at 1, get_world at 1. cbn beta iota.
  destruct (files w !! log_file_of dir app) as [lines|] eqn:Hf.
  - destruct (first_uncaught lines) as [e|] eqn:Hab.
    + destruct (read_log_file_abort (log_file_of dir app) lines e w Hab)
        as [out Hrun].
      exists out. rewrite (bind_exc _ _ _ _ _ Hrun).
      rewrite set_collection_same. reflexivity.
    + rewrite (bind_val _ _ _ _ _ (read_log_file_ok _ _ _ Hab)).
      unfold bind at 1. rewrite store_run.
      change (accepts
                (set_stdout
                   (stdout w ++ line_warnings (log_file_of dir app) 1 lines)
                   w)
                (batch_entries app (valid_records lines)))
        with (accepts w (batch_entries app (valid_records lines))).
      destruct (accepts w (batch_entries app (valid_records lines))).
      * eexists.
        rewrite (bind_val _ _ _ _ _ (print_run _ _)).
        unfold ret. cbn. rewrite <- app_assoc. reflexivity.
      * exists (line_warnings (log_file_of dir app) 1 lines).
        rewrite set_collection_same. reflexivity.
  - exists [PNotFound (log_file_of dir app)].
    rewrite (bind_val _ _ _ _ _ (print_run _ _)).
    unfold ret, store_add, new_entries. cbn [List.filter].
    rewrite app_nil_r, set_collection_same, Nat.add_0_r.
    reflexivity.
Qed.

(** The loop of [load_application_logs] over the applications. *)
Lemma load_loop dir apps : forall total w,
  exists out,
    for_each apps total (load_app dir) w
    = (match run_exn dir w apps with
       | Some e => Exc e
       | None =>
           Val (total + sum_list (map (batch_size dir (files w)) apps))%nat
       end,
       set_stdout (stdout w ++ out)
         (set_collection
            (stored_after dir (files w) (collection w)
               (loaded_prefix dir w apps)) w)).
Proof.
  induction apps as [|app apps IH]; intros total w.
  - exists []. cbn. rewrite Nat.add_0_r, !app_nil_r.
    rewrite set_collection_same, set_stdout_same. reflexivity.
  - cbn [for_each run_exn loaded_prefix map sum_list].
    destruct (load_app_run dir total app w) as [out1 Hrun].
    destruct (turn_exn dir w app) as [e|] eqn:Hturn.
    + exists out1. rewrite (bind_exc _ _ _ _ _ Hrun). reflexivity.
    + rewrite (bind_val _ _ _ _ _ Hrun).
      match goal with |- context [for_each apps ?t _ ?w0] =>
        destruct (IH t w0) as [out2 Hrest] end.
      rewrite run_exn_frame, loaded_prefix_frame in Hrest.
      cbn [files collection stdout set_stdout set_collection] in Hrest.
      exists (out1 ++ out2). rewrite Hrest.
      unfold stored_after. cbn [foldl]. f_equal.
      * destruct (run_exn dir w apps); [reflexivity|].
        f_equal. change (id ?x) with x. lia.
      * rewrite <- !app_assoc. reflexivity.
Qed.

(** The whole method. *)
Lemma load_run dir w :
  exists out,
    load_application_logs dir w
    = (match run_exn dir w applications with
       | Some e => Exc e
       | None => Val PyNone
       end,
       set_stdout
         (stdout w ++ PLoading :: out ++
            (match run_exn dir w applications with
             | Some _ => []
             | None => [PTotal (valid_total dir w)]
             end))
         (set_collection
            (stored_after dir (files w) (collection w)
               (loaded_prefix dir w applications)) w)).
Proof.
  unfold load_application_logs.
  rewrite (bind_val _ _ _ _ _ (print_run _ _)).
  destruct (load_loop dir applications 0%nat
              (set_stdout (stdout w ++ [PLoading]) w)) as [out Hloop].
  change (run_exn dir (set_stdout (stdout w ++ [PLoading]) w) applications)
    with (run_exn dir w applications) in Hloop.
  change (loaded_prefix dir (set_stdout (stdout w ++ [PLoading]) w)
            applications)
    with (loaded_prefix dir w applications) in Hloop.
  cbn [files set_stdout collection stdout] in Hloop.
  exists out.
  destruct (run_exn dir w applications) as [e|] eqn:Hall.
  - rewrite (bind_exc _ _ _ _ _ Hloop).
    cbn. rewrite app_nil_r, <- !app_assoc. reflexivity.
  - rewrite (bind_val _ _ _ _ _ Hloop).
    rewrite (bind_val _ _ _ _ _ (print_run _ _)).
    unfold ret. cbn. rewrite <- !app_assoc. reflexivity.
Qed.

(** A run that no exception ends. *)
Lemma run_exn_None dir w apps :
  run_exn dir w apps = None <->
  forall app, app ∈ apps -> turn_exn dir w app = None.
Proof.
  induction apps as [|app apps IH]; cbn [run_exn].
  - split; [|reflexivity]. intros _ a Ha. apply elem_of_nil in Ha.
    contradiction.
  - destruct (turn_exn dir w app) as [e|] eqn:Hturn.
    + split; [discriminate|]. intros H.
      rewrite (H app) in Hturn by (apply elem_of_cons; auto). discriminate.
    + rewrite IH. split.
      * intros H a Ha. apply elem_of_cons in Ha as [->|Ha]; auto.
      * intros H a Ha. apply H, elem_of_cons. auto.
Qed.

Lemma loaded_prefix_all dir w apps :
  run_exn dir w apps = None -> loaded_prefix dir w apps = apps.
Proof.
  induction apps as [|app apps IH]; [reflexivity|].
  cbn [run_exn loaded_prefix].
  destruct (turn_exn dir w app); [discriminate|].
  intros H. f_equal. apply IH, H.
Qed.

Lemma turn_exn_None dir w app :
  turn_exn dir w app = None <->
  (forall lines, files w !! log_file_of dir app = Some lines ->
                 first_uncaught lines = None) /\
  accepts w (app_batch dir (files w) app) = true.
Proof.
  unfold turn_exn, app_batch.
  destruct (files w !! log_file_of dir app) as [lines|].
  - destruct (first_uncaught lines) as [e|] eqn:Hu.
    + split; [discriminate|]. intros [H _].
      specialize (H lines eq_refl). congruence.
    + destruct (accepts w _) eqn:Hacc.
      * split; [|reflexivity]. intros _. split; [|reflexivity].
        intros l [= <-]. exact Hu.
      * split; [discriminate|]. intros [_ H]. discriminate H.
  - split; [|reflexivity]. intros _. split; [discriminate|reflexivity].
Qed.

(** Files whose lines are caught and whose batches the store accepts are
    what a complete run needs, and what it shows. *)
Lemma complete_run dir w :
  lines_caught dir w -> batches_accepted dir w ->
  run_exn dir w applications = None.
Proof.
  intros Hl Hb. apply run_exn_None. intros app Happ.
  apply turn_exn_None. split; [|apply Hb, Happ].
  intros lines Hf. apply first_uncaught_None.
  intros line Hline. exact (Hl app lines line Happ Hf Hline).
Qed.

Lemma complete_run_inv dir w :
  run_exn dir w applications = None ->
  lines_caught dir w /\ batches_accepted dir w.
Proof.
  intros H. rewrite run_exn_None in H. split.
  - intros app lines line Happ Hf Hline.
    pose proof (H app Happ) as Ht. apply turn_exn_None in Ht as [Ht _].
    specialize (Ht lines Hf). rewrite first_uncaught_None in Ht.
    apply Ht, Hline.
  - intros app Happ.
    pose proof (H app Happ) as Ht. apply turn_exn_None in Ht as [_ Ht].
    exact Ht.
Qed.

Lemma loaded_prefix_sub dir w apps app :
  app ∈ loaded_prefix dir w apps -> app ∈ apps.
Proof.
  induction apps as [|a apps IH]; [auto|]. cbn [loaded_prefix].
  destruct (turn_exn dir w a); [intros H; inversion H|].
  intros H. apply elem_of_cons in H as [->|H]; apply elem_of_cons; auto.
Qed.

Lemma length_batch_entries app logs :
  length (batch_entries app logs) = length logs.
Proof. apply length_imap. Qed.

(** The identifiers of a batch. *)
Lemma batch_ids app logs :
  map entry_id (batch_entries app logs)
  = imap (fun i log => make_id app log i) logs.
Proof.
  unfold batch_entries. revert app.
  assert (H : forall (f : nat -> nat) app,
    map entry_id (imap (fun i log => {| entry_id := make_id app log (f i);
                                        entry_document := doc_text log;
                                        entry_metadata := log |}) logs)
    = imap (fun i log => make_id app log (f i)) logs).
  { induction logs as [|log logs IH]; intros f app; [reflexivity|].
    cbn. f_equal. apply (IH (f ∘ S)). }
  intros app. apply (H id).
Qed.

Lemma batch_lookup app logs i entry :
  batch_entries app logs !! i = Some entry ->
  exists log, logs !! i = Some log /\
    entry = {| entry_id := make_id app log i; entry_document := doc_text log;
               entry_metadata := log |}.
Proof.
  unfold batch_entries. rewrite list_lookup_imap.
  destruct (logs !! i) as [log|]; [|discriminate].
  cbn. intros [= <-]. eauto.
Qed.

Lemma batch_ids_NoDup app logs :
  NoDup (map entry_id (batch_entries app logs)).
Proof.
  apply NoDup_alt. intros i j x Hi Hj.
  rewrite list_lookup_fmap in Hi, Hj.
  destruct (batch_entries app logs !! i) as [ei|] eqn:Hei; [|discriminate].
  destruct (batch_entries app logs !! j) as [ej|] eqn:Hej; [|discriminate].
  apply batch_lookup in Hei as (li & _ & ->).
  apply batch_lookup in Hej as (lj & _ & ->).
  cbn in Hi, Hj. injection Hi as <-. injection Hj as Hj.
  symmetry. apply (make_id_index _ _ _ _ _ Hj).
Qed.

Lemma app_batch_NoDup dir fs app :
  NoDup (map entry_id (app_batch dir fs app)).
Proof.
  unfold app_batch. destruct (fs !! log_file_of dir app).
  - apply batch_ids_NoDup.
  - constructor.
Qed.

Lemma app_batch_id dir fs app entry :
  entry ∈ app_batch dir fs app ->
  exists lines i,
    fs !! log_file_of dir app = Some lines /\
    valid_records lines !! i = Some (entry_metadata entry) /\
    entry_id entry = make_id app (entry_metadata entry) i.
Proof.
  unfold app_batch.
  destruct (fs !! log_file_of dir app) as [lines|]; [|intros H; inversion H].
  intros H. apply list_elem_of_lookup in H as [i Hi].
  apply batch_lookup in Hi as (log & Hlog & ->).
  exists lines, i. cbn. auto.
Qed.

(** The batches of applications whose names hold no underscore share no
    identifier. *)
Lemma app_batch_ids_apart dir fs app app' e e' :
  95 ∉ app -> 95 ∉ app' ->
  e ∈ app_batch dir fs app -> e' ∈ app_batch dir fs app' ->
  entry_id e = entry_id e' -> app = app'.
Proof.
  intros Hu Hu' He He' Heq.
  apply app_batch_id in He as (_ & i & _ & _ & Hid).
  apply app_batch_id in He' as (_ & i' & _ & _ & Hid').
  rewrite Hid, Hid' in Heq.
  apply make_id_app in Heq; assumption.
Qed.


(** What the collection holds after a run of batches. *)
Lemma stored_after_elem dir fs apps : forall held e,
  e ∈ stored_after dir fs held apps ->
  e ∈ held \/ exists app, app ∈ apps /\ e ∈ app_batch dir fs app.
Proof.
  unfold stored_after.
  induction apps as [|app apps IH]; intros held e H; [auto|].
  cbn [foldl] in H. apply IH in H as [H|(a & Ha & He)].
  - apply store_add_elem in H as [H|H]; [auto|].
    right. exists app. split; [left|exact H].
  - right. exists a. split; [right; exact Ha|exact He].
Qed.

Lemma stored_after_held dir fs apps : forall held e,
  e ∈ held -> e ∈ stored_after dir fs held apps.
Proof.
  unfold stored_after.
  induction apps as [|app apps IH]; intros held e H; [exact H|].
  cbn [foldl]. apply IH, store_add_held, H.
Qed.

Lemma stored_after_ids dir fs apps : forall held x,
  x ∈ map entry_id held \/
  (exists app e, app ∈ apps /\ e ∈ app_batch dir fs app /\ entry_id e = x) ->
  x ∈ map entry_id (stored_after dir fs held apps).
Proof.
  unfold stored_after.
  induction apps as [|app apps IH]; intros held x H.
  - destruct H as [H|(a & e & Ha & _)]; [exact H|].
    apply elem_of_nil in Ha. contradiction.
  - cbn [foldl]. apply IH.
    destruct H as [H|(a & e & Ha & He & Hid)].
    + left. apply store_add_ids. auto.
    + apply elem_of_cons in Ha as [->|Ha].
      * left. apply store_add_ids. right. subst x.
        apply list_elem_of_fmap. exists e. auto.
      * right. exists a, e. auto.
Qed.

Lemma stored_after_NoDup dir fs apps : forall held,
  NoDup (map entry_id held) ->
  NoDup (map entry_id (stored_after dir fs held apps)).
Proof.
  unfold stored_after.
  induction apps as [|app apps IH]; intros held H; [exact H|].
  cbn [foldl]. apply IH, store_add_NoDup; [exact H|apply app_batch_NoDup].
Qed.

(** Batches whose identifiers the store holds leave it as it is. *)
Lemma stored_after_absorbed dir fs apps : forall held,
  (forall app e, app ∈ apps -> e ∈ app_batch dir fs app ->
                 entry_id e ∈ map entry_id held) ->
  stored_after dir fs held apps = held.
Proof.
  unfold stored_after.
  induction apps as [|app apps IH]; intros held H; [reflexivity|].
  cbn [foldl]. unfold store_add at 2.
  rewrite new_entries_held, app_nil_r.
  - apply IH. intros a e Ha He. apply (H a e); [right; exact Ha|exact He].
  - intros e He. apply (H app e); [left|exact He].
Qed.


(** An entry of a batch whose identifier neither the store nor another
    batch holds is in the collection after the run. *)
Lemma stored_after_keeps dir fs apps : forall held app e,
  app ∈ apps -> e ∈ app_batch dir fs app ->
  entry_id e ∉ map entry_id held ->
  (forall app' e', app' ∈ apps -> app' <> app ->
                   e' ∈ app_batch dir fs app' -> entry_id e' <> entry_id e) ->
  e ∈ stored_after dir fs held apps.
Proof.
  unfold stored_after.
  induction apps as [|a apps IH]; intros held app e Happ He Hid Hother.
  - apply elem_of_nil in Happ. contradiction.
  - cbn [foldl].
    destruct (decide (a = app)) as [->|Hne].
    + apply (stored_after_held dir fs apps).
      apply elem_of_app. right. apply new_entries_fresh; assumption.
    + apply elem_of_cons in Happ as [->|Happ]; [congruence|].
      apply (IH _ app e Happ He).
      * intros Hin. unfold store_add in Hin.
        rewrite map_app in Hin. apply elem_of_app in Hin as [Hin|Hin];
          [contradiction|].
        apply list_elem_of_fmap in Hin as (e' & Heq & He').
        apply new_entries_sub in He' as [He' _].
        apply (Hother a e'); [left|exact Hne|exact He'|auto].
      * intros app' e' Happ' Hne' He'.
        apply (Hother app' e'); [right; exact Happ'|exact Hne'|exact He'].
Qed.

Lemma valid_records_origin lines i e :
  valid_records lines !! i = Some e ->
  exists line, line ∈ lines /\ parse_line line = Val e.
Proof.
  intros H. apply list_elem_of_lookup_2 in H.
  apply list_elem_of_omap in H as (line & Hin & Hp).
  exists line. split; [exact Hin|].
  destruct (parse_line line); congruence.
Qed.

(** What a load leaves in the collection comes from the collection
    before it or from the valid records of a file. *)
Lemma loaded_origin dir w entry :
  entry ∈ collection (load_application_logs dir w).2 ->
  entry ∈ collection w \/
  exists app lines i,
    app ∈ applications /\
    files w !! log_file_of dir app = Some lines /\
    valid_records lines !! i = Some (entry_metadata entry) /\
    entry_id entry = make_id app (entry_metadata entry) i.
Proof.
  destruct (load_run dir w) as [out Hrun]. rewrite Hrun.
  cbn [snd collection set_stdout set_collection]. intros H.
  apply stored_after_elem in H as [H|(app & Happ & He)]; [auto|right].
  apply app_batch_id in He as (lines & i & Hf & Hv & Hid).
  exists app, lines, i. split; [|auto].
  eapply loaded_prefix_sub, Happ.
Qed.

(** A file whose lines are caught: the loop keeps the records of the N
    schema-valid lines, in order, and prints one warning for each of the M
    other lines. *)
Lemma read_log_file_counts log_file lines w :
  first_uncaught lines = None ->
  read_log_file log_file lines w
    = (Val (valid_records lines),
       set_stdout (stdout w ++ line_warnings log_file 1 lines) w) /\
  length (valid_records lines) = length (List.filter is_valid lines) /\
  length (line_warnings log_file 1 lines)
    = length (List.filter is_skipped lines) /\
  (length (List.filter is_valid lines)
     + length (List.filter is_skipped lines) = length lines)%nat.
Proof.
  intros Hok. split; [apply read_log_file_ok, Hok|].
  generalize 1%nat as start. intros start. revert start.
  induction lines as [|line lines IH]; intros start; [cbn; auto|].
  cbn [first_uncaught] in Hok. unfold uncaught in Hok.
  rewrite valid_records_cons, line_warnings_cons.
  cbn [List.filter]. unfold is_valid, is_skipped.
  destruct (parse_line line) as [e|e].
  - destruct (IH Hok (S start)) as (IH1 & IH2 & IH3).
    cbn [length]. fold is_valid. fold is_skipped.
    rewrite IH1, IH2. repeat split; lia.
  - destruct (caught e); [|discriminate Hok].
    destruct (IH Hok (S start)) as (IH1 & IH2 & IH3).
    cbn [length]. fold is_valid. fold is_skipped.
    rewrite IH1, IH2. repeat split; lia.
Qed.

Lemma LogEntry_init_fields raw e :
  LogEntry_init str_field raw = Val e ->
  exists data,
    raw = JObj data /\
    forall name, name ∈ field_names ->
      data !! name ≫= str_field = Some (field_value e name).
Proof.
  destruct raw as [| | | | |data]; try discriminate.
  unfold LogEntry_init. intros H. exists data. split; [reflexivity|].
  destruct (data !! lit "application" ≫= str_field) as [a|] eqn:Ha;
    [|discriminate].
  destruct (data !! lit "correlation_id" ≫= str_field) as [c|] eqn:Hc;
    [|discriminate].
  destruct (data !! lit "log_level" ≫= str_field) as [l|] eqn:Hl;
    [|discriminate].
  destruct (data !! lit "message" ≫= str_field) as [m|] eqn:Hm;
    [|discriminate].
  destruct (data !! lit "details" ≫= str_field) as [d|] eqn:Hd;
    [|discriminate].
  destruct (data !! lit "timestamp" ≫= str_field) as [t|] eqn:Ht;
    [|discriminate].
  injection H as <-.
  intros name Hin. unfold field_names in Hin.
  repeat (apply elem_of_cons in Hin as [->|Hin]; [assumption|]).
  inversion Hin.
Qed.

Lemma LogEntry_init_missing data name :
  name ∈ field_names -> data !! name = None ->
  LogEntry_init str_field (JObj data) = Exc ValidationError.
Proof.
  intros Hin Hnone. unfold LogEntry_init, field_names in *.
  repeat (apply elem_of_cons in Hin as [->|Hin];
          [rewrite Hnone; cbn;
           repeat (match goal with
                   | |- context [match ?x with Some _ => _ | None => _ end] =>
                       destruct x
                   end); reflexivity|]).
  inversion Hin.
Qed.

(** A second load of the same files finds every identifier in the store:
    it ends as the first did and stores nothing. *)
Lemma reload_same dir w :
  let w1 := (load_application_logs dir w).2 in
  collection (load_application_logs dir w1).2 = collection w1.
Proof.
  cbn zeta.
  destruct (load_run dir w) as [out Hrun]. rewrite Hrun. cbn [snd].
  match goal with |- context [load_application_logs dir ?w1] =>
    destruct (load_run dir w1) as [out' Hrun'] end.
  rewrite Hrun'. cbn [snd collection files set_stdout set_collection].
  rewrite loaded_prefix_frame.
  apply stored_after_absorbed. intros app e Happ He.
  apply stored_after_ids. right. exists app, e. auto.
Qed.

End Ingestion.

(** A store that takes one entry per call refuses a batch of two, and
    nothing is stored. *)
Example store_refuses_large_batch :
  _store_logs_in_chroma [r_auth; r_auth2] (lit "AuthService")
    (with_small_store [])
  = (Exc StoreError, with_small_store []).
Proof. vm_compute. reflexivity. Qed.

(** C6. A file of three lines whose second line holds the JSON array [[]]:
    unpacking the array raises [TypeError], which the [except] clause does
    not catch, so the method stops there: no warning is printed and
    nothing is stored, not even the record of the first line. *)
Theorem C6_array_line_aborts_ingestion :
  let w0 := with_files
              [(auth_file, [record_line r_auth; line_array;
                            record_line r_auth2])] in
  let run := load_application_logs sample_loads strict_str
               (lit "synthetic_logs") w0 in
  valid_records sample_loads strict_str
    [record_line r_auth; line_array; record_line r_auth2] = [r_auth; r_auth2]
  /\ run.1 = Exc TypeError
  /\ collection run.2 = []
  /\ stdout run.2 = [PLoading].
Proof. vm_compute. auto. Qed.

(** C7 (as amended). When every line of the files holds a record or raises
    one of the two exceptions that are caught, and the store accepts every
    batch, the ingestion operation returns no value ([None]); the count of
    the records it read, malformed lines excluded, is what it prints
    last. *)
Theorem C7_load_prints_count json_loads str_field dir w :
  lines_caught json_loads str_field dir w ->
  batches_accepted json_loads str_field dir w ->
  exists w',
    load_application_logs json_loads str_field dir w = (Val PyNone, w') /\
    last (stdout w') = Some (PTotal (valid_total json_loads str_field dir w)).
Proof.
  intros Hl Hb.
  pose proof (complete_run json_loads str_field dir w Hl Hb) as Hok.
  destruct (load_run json_loads str_field dir w) as [out Hrun].
  rewrite Hok in Hrun. eexists. split; [exact Hrun|].
  cbn [stdout set_stdout set_collection].
  rewrite app_comm_cons, (app_assoc (stdout w)). apply last_snoc.
Qed.

Lemma C7_load_prints_count_witness :
  exists w',
    load_application_logs sample_loads strict_str (lit "synthetic_logs")
      (with_files [(auth_file, [record_line r_auth; line_garbage;
                                line_missing; record_line r_auth2])])
      = (Val PyNone, w') /\
    last (stdout w') = Some (PTotal 2).
Proof.
  apply (C7_load_prints_count sample_loads strict_str (lit "synthetic_logs")
           (with_files [(auth_file, [record_line r_auth; line_garbage;
                                     line_missing; record_line r_auth2])]));
    apply complete_run_inv; vm_compute; reflexivity.
Defined.

(** C7 as stated fails: with one schema-valid line the method loads one
    record and returns [None], not the count. *)
Lemma C7_counterexample :
  ~ returns_count sample_loads strict_str (lit "synthetic_logs")
      (with_files [(auth_file, [record_line r_auth])]).
Proof. intros [w' H]. vm_compute in H. discriminate H. Qed.

(** C8 (as amended). A record accepted by validation has all six fields,
    each read from the field of that name of the JSON object as a string
    (which may be empty); an object that lacks one of the six fields is
    rejected; and every entry that ingestion adds to the collection holds
    a record accepted by validation. *)
Theorem C8_accepted_fields json_loads str_field :
  (forall raw e,
     LogEntry_init str_field raw = Val e ->
     exists data,
       raw = JObj data /\
       forall name, name ∈ field_names ->
         data !! name ≫= str_field = Some (field_value e name)) /\
  (forall data name,
     name ∈ field_names -> data !! name = None ->
     LogEntry_init str_field (JObj data) = Exc ValidationError) /\
  (forall dir w entry,
     entry ∈ collection (load_application_logs json_loads str_field dir w).2 ->
     entry ∈ collection w \/
     exists raw, LogEntry_init str_field raw = Val (entry_metadata entry)).
Proof.
  split; [|split].
  - apply LogEntry_init_fields.
  - apply LogEntry_init_missing.
  - intros dir w entry Hin.
    apply loaded_origin in Hin as [Hin|(app & lines & i & _ & _ & Hv & _)];
      [left; exact Hin|right].
    apply valid_records_origin in Hv as (line & _ & Hp).
    unfold parse_line in Hp.
    destruct (json_loads (strip line)) as [raw|]; [|discriminate].
    exists raw. exact Hp.
Qed.

(** C8 as stated fails: a record whose details and timestamp are the empty
    string is accepted. *)
Lemma C8_counterexample : ~ accepted_nonempty strict_str.
Proof.
  intros H.
  assert (Hacc : LogEntry_init strict_str (record_json r_blank) = Val r_blank)
    by (vm_compute; reflexivity).
  destruct (H _ _ Hacc) as (_ & _ & _ & _ & Hd & _).
  apply Hd. reflexivity.
Qed.

(** C9 (as amended). The identifier of an entry that ingestion stores is
    made of the application of the file, the correlation id of the record
    and the index of the record among the valid records of the file. When
    the identifiers of the collection are pairwise distinct before a load,
    they are so after it, and after a second load of the same files: the
    store ignores an entry whose identifier it holds, so the second load
    stores nothing and creates no duplicate. *)
Theorem C9_ids_unique_across_runs json_loads str_field dir w :
  ids_unique w ->
  let w1 := (load_application_logs json_loads str_field dir w).2 in
  let w2 := (load_application_logs json_loads str_field dir w1).2 in
  ids_unique w1 /\
  ids_unique w2 /\
  collection w2 = collection w1 /\
  forall entry, entry ∈ collection w1 ->
    entry ∈ collection w \/
    exists app lines i,
      app ∈ applications /\
      files w !! log_file_of dir app = Some lines /\
      valid_records json_loads str_field lines !! i
        = Some (entry_metadata entry) /\
      entry_id entry = make_id app (entry_metadata entry) i.
Proof.
  intros Hw. cbn zeta.
  pose proof (reload_same json_loads str_field dir w) as Hsame.
  cbn zeta in Hsame.
  assert (H1 : ids_unique (load_application_logs json_loads str_field dir w).2).
  { unfold ids_unique.
    destruct (load_run json_loads str_field dir w) as [out Hrun].
    rewrite Hrun. cbn [snd collection set_stdout set_collection].
    apply stored_after_NoDup, Hw. }
  split; [exact H1|]. split; [|split; [exact Hsame|]].
  - unfold ids_unique. rewrite Hsame. exact H1.
  - intros entry. apply loaded_origin.
Qed.

Lemma C9_ids_unique_across_runs_witness :
  let w := with_both [stored "AuthService" 0 r_auth]
             [(auth_file, [record_line r_auth; record_line r_auth2])] in
  let w1 := (load_application_logs sample_loads strict_str
               (lit "synthetic_logs") w).2 in
  let w2 := (load_application_logs sample_loads strict_str
               (lit "synthetic_logs") w1).2 in
  ids_unique w1 /\
  ids_unique w2 /\
  collection w2 = collection w1 /\
  forall entry, entry ∈ collection w1 ->
    entry ∈ collection w \/
    exists app lines i,
      app ∈ applications /\
      files w !! log_file_of (lit "synthetic_logs") app = Some lines /\
      valid_records sample_loads strict_str lines !! i
        = Some (entry_metadata entry) /\
      entry_id entry = make_id app (entry_metadata entry) i.
Proof.
  apply (C9_ids_unique_across_runs sample_loads strict_str
           (lit "synthetic_logs")
           (with_both [stored "AuthService" 0 r_auth]
              [(auth_file, [record_line r_auth; record_line r_auth2])])).
  unfold ids_unique. apply (bool_decide_unpack _). vm_compute. exact I.
Defined.

(** C9 as stated fails: a second load of a file with one record stores
    nothing, where the first stored one entry. *)
Lemma C9_counterexample :
  ~ reload_duplicates sample_loads strict_str (lit "synthetic_logs")
      (with_files [(auth_file, [record_line r_auth])]).
Proof.
  unfold reload_duplicates. intros H. vm_compute in H. discriminate H.
Qed.

(** ** Retrieval *)

Lemma zip_documents_metadatas (found : list StoredEntry) :
  zip (map entry_document found) (map entry_metadata found)
  = map (fun e => (entry_document e, entry_metadata e)) found.
Proof. induction found as [|e found IH]; [reflexivity|]. cbn. f_equal. exact IH. Qed.

Lemma group_lookup (found : list StoredEntry) : forall acc app,
  foldl (fun app_logs (dm : pystr * LogEntry) =>
           dd_append (application dm.2)
             {| document := dm.1; metadata := dm.2 |} app_logs)
        acc (map (fun e => (entry_document e, entry_metadata e)) found)
    !! app
  = grouped (acc !! app)
      (map item_of
         (filter (fun e => application (entry_metadata e) = app) found)).
Proof.
  induction found as [|e found IH]; intros acc app.
  - cbn. unfold grouped. destruct (acc !! app); cbn; [rewrite app_nil_r|];
      reflexivity.
  - cbn [map foldl]. rewrite IH. cbn [fst snd]. unfold dd_append.
    rewrite filter_cons.
    destruct (decide (application (entry_metadata e) = app)) as [->|Hne].
    + rewrite lookup_insert_eq. cbn [map]. unfold grouped.
      fold (item_of e).
      destruct (acc !! app) as [old|]; cbn;
        [rewrite <- app_assoc|]; reflexivity.
    + rewrite lookup_insert_ne by exact Hne. reflexivity.
Qed.

Lemma matching_filter c cid app :
  matching c cid app
  = map item_of
      (filter (fun e => application (entry_metadata e) = app)
         (filter (fun e => correlation_id (entry_metadata e) = cid) c)).
Proof.
  unfold matching. fold item_of. f_equal.
  induction c as [|e c IH]; [reflexivity|].
  rewrite !filter_cons.
  destruct (decide (correlation_id (entry_metadata e) = cid)) as [Hc|Hc].
  - rewrite filter_cons.
    destruct (decide (application (entry_metadata e) = app)) as [Ha|Ha].
    + rewrite decide_True by auto. f_equal. exact IH.
    + rewrite decide_False by tauto. exact IH.
  - rewrite decide_False by tauto. exact IH.
Qed.

(** What the method returns, key by key. *)
Lemma retrieve_run cid top_k w :
  exists bundle,
    retrieve_logs_by_correlation_id cid top_k w = (Val bundle, w) /\
    forall app,
      bundle !! app
      = match matching (collection w) cid app with
        | [] => None
        | l => Some (slice_to top_k l)
        end.
Proof.
  unfold retrieve_logs_by_correlation_id, collection_get.
  unfold bind, get_world, ret. cbn [fst snd].
  eexists. split; [reflexivity|].
  intros app. rewrite lookup_fmap, zip_documents_metadatas, group_lookup.
  rewrite lookup_empty, <- matching_filter.
  destruct (matching (collection w) cid app); reflexivity.
Qed.

Lemma take_min {A} (l : list A) (k : nat) :
  take (Nat.min (length l) k) l = take k l.
Proof.
  destruct (Nat.le_gt_cases (length l) k) as [H|H].
  - rewrite Nat.min_l by exact H. rewrite !take_ge by lia. reflexivity.
  - rewrite Nat.min_r by lia. reflexivity.
Qed.

Lemma matching_none c cid :
  (forall e, e ∈ c -> correlation_id (entry_metadata e) <> cid) ->
  forall app, matching c cid app = [].
Proof.
  intros H app. unfold matching.
  induction c as [|e c IH]; [reflexivity|].
  rewrite filter_cons, decide_False.
  - apply IH. intros e' He'. apply H. right. exact He'.
  - intros [Hc _]. apply (H e); [left|exact Hc].
Qed.

(** C2 (as amended). For every correlation id and every [top_k >= 0],
    retrieval returns a bundle whose keys are exactly the applications that
    have a stored entry with that correlation id; the list of an
    application is the first [min(count, top_k)] of its matching entries in
    store order; a correlation id that no entry has gives the empty
    bundle, and no error. *)
Theorem C2_retrieval_first_top_k w cid top_k :
  (0 <= top_k)%Z -> retrieval_spec w cid top_k.
Proof.
  intros Hk. destruct (retrieve_run cid top_k w) as (bundle & Hrun & Hget).
  exists bundle. split; [exact Hrun|]. split; [|split].
  - intros app. rewrite Hget.
    destruct (matching (collection w) cid app); split.
    + intros [x Hx]. discriminate.
    + intros H. contradiction.
    + discriminate.
    + eauto.
  - intros app l Hl. rewrite Hget in Hl.
    exists (Nat.min (length (matching (collection w) cid app)) (Z.to_nat top_k)).
    split; [lia|].
    rewrite take_min.
    destruct (matching (collection w) cid app) as [|i m] eqn:Hm; [discriminate|].
    injection Hl as <-. unfold slice_to.
    destruct (0 <=? top_k)%Z eqn:Hpos; [reflexivity|lia].
  - intros Hnone. apply map_eq. intros app.
    rewrite Hget, lookup_empty, (matching_none _ _ Hnone). reflexivity.
Qed.

Lemma C2_retrieval_first_top_k_witness :
  retrieval_spec
    (with_collection [stored "AuthService" 0 r_auth;
                      stored "EmailService" 0 r_mail;
                      stored "AuthService" 1 r_auth2;
                      stored "AuthService" 2 r_auth3])
    (lit "CORR-TEST001") 2.
Proof. apply C2_retrieval_first_top_k. lia. Defined.

(** C2 as stated fails for a negative [top_k]: with three matching entries
    and [top_k = -1] the slice keeps the first two, and no list has
    [min(3, -1)] entries. *)
Lemma C2_counterexample :
  ~ retrieval_spec
      (with_collection [stored "AuthService" 0 r_auth;
                        stored "EmailService" 0 r_mail;
                        stored "AuthService" 1 r_auth2;
                        stored "AuthService" 2 r_auth3])
      (lit "CORR-TEST001") (-1).
Proof.
  intros (bundle & Hrun & _ & Hlist & _).
  destruct (retrieve_run (lit "CORR-TEST001") (-1)
              (with_collection [stored "AuthService" 0 r_auth;
                                stored "EmailService" 0 r_mail;
                                stored "AuthService" 1 r_auth2;
                                stored "AuthService" 2 r_auth3]))
    as (bundle' & Hrun' & Hget).
  rewrite Hrun in Hrun'. injection Hrun' as <-.
  specialize (Hget (lit "AuthService")).
  destruct (Hlist (lit "AuthService") [item_of (stored "AuthService" 0 r_auth);
                                       item_of (stored "AuthService" 1 r_auth2)])
    as (n & Hn & _).
  - rewrite Hget. vm_compute. reflexivity.
  - assert (Hlen : length (matching
                (collection
                   (with_collection [stored "AuthService" 0 r_auth;
                                     stored "EmailService" 0 r_mail;
                                     stored "AuthService" 1 r_auth2;
                                     stored "AuthService" 2 r_auth3]))
                (lit "CORR-TEST001") (lit "AuthService")) = 3%nat)
      by (vm_compute; reflexivity).
    rewrite Hlen in Hn. lia.
Qed.

(** ** Stripping *)

Lemma lstrip_nonspace c s : isspace c = false -> lstrip (c :: s) = c :: s.
Proof. intros H. cbn [lstrip]. rewrite H. reflexivity. Qed.

(** Text that holds a character other than white space keeps what follows
    it. *)
Lemma lstrip_app a c b :
  isspace c = false -> lstrip (a ++ c :: b) = lstrip (a ++ [c]) ++ b.
Proof.
  intros Hc. induction a as [|x a IH].
  - cbn [lstrip Datatypes.app]. rewrite Hc. reflexivity.
  - cbn [lstrip Datatypes.app]. destruct (isspace x); [exact IH|].
    cbn [Datatypes.app]. rewrite <- app_assoc. reflexivity.
Qed.

Lemma lstrip_keeps_last a c :
  isspace c = false -> exists y, lstrip (a ++ [c]) = y ++ [c].
Proof.
  intros Hc. induction a as [|x a IH].
  - exists []. cbn [lstrip Datatypes.app]. rewrite Hc. reflexivity.
  - cbn [lstrip Datatypes.app]. destruct (isspace x); [exact IH|].
    exists (x :: a). reflexivity.
Qed.

Lemma rstrip_newline y c :
  isspace c = false -> rstrip (y ++ [c] ++ nl) = y ++ [c].
Proof.
  intros Hc. unfold rstrip, nl.
  rewrite !rev_app_distr. cbn [rev Datatypes.app lstrip].
  change (isspace 10) with true. cbn iota. rewrite Hc.
  change (c :: rev y) with ([c] ++ rev y).
  rewrite rev_app_distr, rev_involutive. reflexivity.
Qed.

Lemma strip_line_end a c :
  isspace c = false -> strip (a ++ [c] ++ nl) = lstrip (a ++ [c]).
Proof.
  intros Hc. unfold strip. cbn [Datatypes.app].
  rewrite (lstrip_app a c nl Hc).
  destruct (lstrip_keeps_last a c Hc) as [y ->].
  rewrite <- app_assoc. apply rstrip_newline, Hc.
Qed.

(** ** The context text *)

Lemma context_line_entry_line md : context_line md = entry_line md ++ nl.
Proof.
  unfold context_line, entry_line, shown_details.
  rewrite <- !app_assoc. reflexivity.
Qed.

Lemma context_fold logs : forall acc,
  foldl (fun context log_data => context ++ context_line (metadata log_data))
        acc logs
  = acc ++ concat (map (fun log_data => entry_line (metadata log_data) ++ nl)
                       logs).
Proof.
  induction logs as [|log logs IH]; intros acc; cbn.
  - rewrite app_nil_r. reflexivity.
  - rewrite IH, context_line_entry_line, <- app_assoc. reflexivity.
Qed.

Lemma concat_lines_join (lines : list pystr) :
  lines <> [] -> concat (map (fun l => l ++ nl) lines) = join nl lines ++ nl.
Proof.
  induction lines as [|l lines IH]; [congruence|]. intros _.
  destruct lines as [|l' lines].
  - cbn. rewrite app_nil_r. reflexivity.
  - change (concat (map (fun l0 => l0 ++ nl) (l :: l' :: lines)))
      with ((l ++ nl) ++ concat (map (fun l0 => l0 ++ nl) (l' :: lines))).
    rewrite IH by discriminate.
    change (join nl (l :: l' :: lines)) with (l ++ nl ++ join nl (l' :: lines)).
    rewrite <- !app_assoc. reflexivity.
Qed.

Lemma join_entry_lines_end (mds : list LogEntry) :
  mds <> [] -> exists a, join nl (map entry_line mds) = a ++ [41].
Proof.
  induction mds as [|md mds IH]; [congruence|]. intros _.
  destruct mds as [|md' mds].
  - cbn [map join]. unfold entry_line.
    exists (timestamp md ++ lit " - " ++ log_level md ++ lit ": " ++ message md
              ++ lit " (" ++ shown_details (details md)).
    rewrite <- !app_assoc. reflexivity.
  - destruct IH as [a Ha]; [discriminate|].
    change (join nl (map entry_line (md :: md' :: mds)))
      with (entry_line md ++ nl ++ join nl (map entry_line (md' :: mds))).
    rewrite Ha. exists (entry_line md ++ nl ++ a).
    rewrite <- !app_assoc. reflexivity.
Qed.

(** The context is the lines joined by newlines, without the white space
    that the text starts with. *)
Lemma prepare_context_lstrip logs :
  _prepare_context_for_llm logs
  = lstrip (join nl (map (fun log_data => entry_line (metadata log_data)) logs)).
Proof.
  unfold _prepare_context_for_llm. rewrite context_fold. cbn [Datatypes.app].
  destruct logs as [|log logs]; [reflexivity|].
  rewrite <- (map_map metadata (fun md => entry_line md ++ nl)).
  rewrite <- (map_map entry_line (fun l => l ++ nl)).
  rewrite concat_lines_join by discriminate.
  rewrite <- (map_map metadata entry_line).
  destruct (join_entry_lines_end (map metadata (log :: logs))) as [a ->];
    [discriminate|].
  rewrite <- app_assoc. apply strip_line_end. reflexivity.
Qed.

(** C4 (as amended). For every non-empty entry list whose first timestamp
    starts with a character that is no white space, the context text is
    the lines [{timestamp} - {level}: {message} ({details})] of the entries
    in bundle order, joined by newlines, where details longer than 200
    characters are cut to their first 200 characters followed by [...]; so
    details of 250 characters give their first 200 characters and the
    marker. Whatever the timestamps, the context text is that text without
    its leading white space. *)
Theorem C4_context_text (first : LogItem) (rest : list LogItem) c ts :
  timestamp (metadata first) = c :: ts ->
  isspace c = false ->
  context_spec (first :: rest) /\
  (forall logs,
     _prepare_context_for_llm logs
     = lstrip (join nl (map (fun log_data => entry_line (metadata log_data))
                            logs))) /\
  (forall d, length d = 250%nat -> shown_details d = take 200 d ++ lit "...").
Proof.
  intros Hts Hc. split; [|split].
  - unfold context_spec. rewrite prepare_context_lstrip.
    cbn [map]. unfold entry_line at 1 3. rewrite Hts.
    destruct rest; cbn [join Datatypes.app]; apply lstrip_nonspace, Hc.
  - apply prepare_context_lstrip.
  - intros d Hd. unfold shown_details. rewrite Hd. reflexivity.
Qed.

Lemma C4_context_text_witness :
  context_spec [item r_auth; item r_mail] /\
  (forall logs,
     _prepare_context_for_llm logs
     = lstrip (join nl (map (fun log_data => entry_line (metadata log_data))
                            logs))) /\
  (forall d, length d = 250%nat -> shown_details d = take 200 d ++ lit "...").
Proof.
  apply (C4_context_text (item r_auth) [item r_mail] 50
           (lit "024-01-01T10:00:00")); reflexivity.
Defined.

(** C4 as stated fails: a record may have an empty timestamp, its line
    then starts with a blank, and the context text has lost it. *)
Lemma C4_counterexample : ~ context_spec [item r_blank].
Proof. unfold context_spec. vm_compute. discriminate. Qed.

(** ** The classifier *)

Section Classifier.

Variable llm : list pystr -> pystr -> pystr.
Variable cid : pystr.
Variable app_logs : gmap pystr (list LogItem).

Lemma set_llm_calls_same w : set_llm_calls (llm_calls w) w = w.
Proof. destruct w; reflexivity. Qed.

(** One turn of the loop for an application without logs: [NO_LOGS], and
    the state is as it was. *)
Lemma analyze_app_no_logs acc app w :
  has_logs app_logs app = false ->
  analyze_app llm cid app_logs acc app w
  = (Val (<[app := NO_LOGS]> acc), w).
Proof.
  unfold has_logs, analyze_app. intros H.
  destruct (default [] (app_logs !! app)); [reflexivity|discriminate].
Qed.

(** One turn for an application with logs: one prompt is sent, and the
    verdict is parsed from the reply. *)
Lemma analyze_app_logs acc app w :
  has_logs app_logs app = true ->
  analyze_app llm cid app_logs acc app w
  = (Val (<[app := parse_status
                     (strip (llm (llm_calls w)
                                 (prompt_of cid app_logs app)))]> acc),
     set_llm_calls (llm_calls w ++ [prompt_of cid app_logs app]) w).
Proof.
  unfold has_logs, analyze_app, prompt_of. intros H.
  destruct (default [] (app_logs !! app)); [discriminate|reflexivity].
Qed.

(** The loop over a list of applications. *)
Lemma analyze_loop apps : forall acc w,
  exists results,
    for_each apps acc (analyze_app llm cid app_logs) w
    = (Val results,
       set_llm_calls
         (llm_calls w
            ++ map (prompt_of cid app_logs)
                   (List.filter (has_logs app_logs) apps)) w) /\
    dom results = dom acc ∪ list_to_set apps /\
    (forall app, app ∉ apps -> results !! app = acc !! app) /\
    (forall app, app ∈ apps -> has_logs app_logs app = false ->
                 results !! app = Some NO_LOGS) /\
    (forall app, app ∈ apps -> has_logs app_logs app = true ->
                 exists reply,
                   results !! app = Some (parse_status (strip reply))).
Proof.
  induction apps as [|a apps IH]; intros acc w.
  - exists acc. cbn. rewrite app_nil_r, set_llm_calls_same.
    split; [reflexivity|].
    split; [cbn [list_to_set foldr]; rewrite (right_id_L ∅ (∪)); reflexivity|].
    split; [auto|].
    split; intros app H; inversion H.
  - cbn [for_each List.filter].
    destruct (has_logs app_logs a) eqn:Ha.
    + rewrite (bind_val _ _ _ _ _ (analyze_app_logs acc a w Ha)).
      match goal with |- context [for_each apps ?acc' _ ?w'] =>
        destruct (IH acc' w') as (results & Hrun & Hdom & Hout & Hno & Hyes)
      end.
      exists results. split; [|split; [|split; [|split]]].
      * rewrite Hrun. cbn. rewrite <- app_assoc. reflexivity.
      * rewrite Hdom, dom_insert_L. cbn [list_to_set foldr].
        rewrite (comm_L (∪) {[a]} (dom acc)), <- (assoc_L (∪)). reflexivity.
      * intros app Happ. apply not_elem_of_cons in Happ as [Hne Happ].
        rewrite (Hout app Happ). apply lookup_insert_ne. congruence.
      * intros app Happ Hl.
        destruct (decide (app ∈ apps)) as [Hin|Hnin]; [apply Hno; assumption|].
        apply elem_of_cons in Happ as [->|Happ]; [congruence|contradiction].
      * intros app Happ Hl.
        destruct (decide (app ∈ apps)) as [Hin|Hnin]; [apply Hyes; assumption|].
        apply elem_of_cons in Happ as [->|Happ]; [|contradiction].
        eexists. rewrite (Hout a Hnin). apply lookup_insert_eq.
    + rewrite (bind_val _ _ _ _ _ (analyze_app_no_logs acc a w Ha)).
      destruct (IH (<[a := NO_LOGS]> acc) w)
        as (results & Hrun & Hdom & Hout & Hno & Hyes).
      exists results. split; [|split; [|split; [|split]]].
      * exact Hrun.
      * rewrite Hdom, dom_insert_L. cbn [list_to_set foldr].
        rewrite (comm_L (∪) {[a]} (dom acc)), <- (assoc_L (∪)). reflexivity.
      * intros app Happ. apply not_elem_of_cons in Happ as [Hne Happ].
        rewrite (Hout app Happ). apply lookup_insert_ne. congruence.
      * intros app Happ Hl.
        destruct (decide (app ∈ apps)) as [Hin|Hnin]; [apply Hno; assumption|].
        apply elem_of_cons in Happ as [->|Happ]; [|contradiction].
        rewrite (Hout a Hnin). apply lookup_insert_eq.
      * intros app Happ Hl.
        destruct (decide (app ∈ apps)) as [Hin|Hnin]; [apply Hyes; assumption|].
        apply elem_of_cons in Happ as [->|Happ]; [congruence|contradiction].
Qed.

Lemma analyze_run w :
  exists results,
    analyze_logs_with_llm llm cid app_logs w
    = (Val results,
       set_llm_calls
         (llm_calls w
            ++ map (prompt_of cid app_logs)
                   (List.filter (has_logs app_logs) applications)) w) /\
    dom results = list_to_set applications /\
    (forall app, app ∈ applications -> has_logs app_logs app = false ->
                 results !! app = Some NO_LOGS) /\
    (forall app, app ∈ applications -> has_logs app_logs app = true ->
                 exists reply,
                   results !! app = Some (parse_status (strip reply))).
Proof.
  destruct (analyze_loop applications ∅ w)
    as (results & Hrun & Hdom & _ & Hno & Hyes).
  exists results. split; [exact Hrun|]. split; [|split; assumption].
  rewrite Hdom, dom_empty_L. apply (left_id_L ∅ (∪)).
Qed.

End Classifier.

(** C3. An application of the known list that is absent from the bundle,
    or mapped to an empty list, gets the verdict [NO_LOGS]; its turn of the
    loop leaves the state as it was, so no prompt is sent for it: the
    prompts of a classification are those of the applications that have
    logs, one each, in the order of the list. *)
Theorem C3_no_logs_no_call llm cid app_logs app w :
  app ∈ applications ->
  app_logs !! app = None \/ app_logs !! app = Some [] ->
  (forall acc w0,
     analyze_app llm cid app_logs acc app w0
     = (Val (<[app := NO_LOGS]> acc), w0)) /\
  exists results,
    analyze_logs_with_llm llm cid app_logs w
    = (Val results,
       set_llm_calls
         (llm_calls w
            ++ map (prompt_of cid app_logs)
                   (List.filter (has_logs app_logs) applications)) w) /\
    results !! app = Some NO_LOGS /\
    ~ In app (List.filter (has_logs app_logs) applications).
Proof.
  intros Happ Hlogs.
  assert (Hno : has_logs app_logs app = false)
    by (unfold has_logs; destruct Hlogs as [-> | ->]; reflexivity).
  split.
  - intros acc w0. apply analyze_app_no_logs, Hno.
  - destruct (analyze_run llm cid app_logs w) as (results & Hrun & _ & Hn & _).
    exists results. split; [exact Hrun|]. split; [apply Hn; assumption|].
    intros Hin. apply filter_In in Hin as [_ Hin]. congruence.
Qed.

Lemma C3_no_logs_no_call_witness :
  let app_logs : gmap pystr (list LogItem) :=
    {[ lit "AuthService" := [item r_auth]; lit "FileService" := [] ]} in
  (forall acc w0,
     analyze_app (constant_llm (lit "STATUS: SUCCESS - REASON: ok"))
       (lit "CORR-TEST001") app_logs acc (lit "FileService") w0
     = (Val (<[lit "FileService" := NO_LOGS]> acc), w0)) /\
  exists results,
    analyze_logs_with_llm (constant_llm (lit "STATUS: SUCCESS - REASON: ok"))
      (lit "CORR-TEST001") app_logs empty_world
    = (Val results,
       set_llm_calls
         (llm_calls empty_world
            ++ map (prompt_of (lit "CORR-TEST001") app_logs)
                   (List.filter (has_logs app_logs) applications))
         empty_world) /\
    results !! lit "FileService" = Some NO_LOGS /\
    ~ In (lit "FileService") (List.filter (has_logs app_logs) applications).
Proof.
  apply (C3_no_logs_no_call (constant_llm (lit "STATUS: SUCCESS - REASON: ok"))
           (lit "CORR-TEST001")
           {[ lit "AuthService" := [item r_auth]; lit "FileService" := [] ]}
           (lit "FileService") empty_world).
  - apply (bool_decide_unpack _). vm_compute. exact I.
  - right. vm_compute. reflexivity.
Defined.

(** ** The pattern *)

Lemma bt_word {A} (w : pystr) : forall s g (k : pystr -> pystr -> option A),
  bt true (word w) s g k
  = if ci_prefix w s then k (drop (length w) s) g else None.
Proof.
  induction w as [|p w IH]; intros s g k; [reflexivity|].
  cbn [word bt atom_match ci_prefix length drop].
  destruct s as [|c s]; [reflexivity|].
  destruct (ci_eq p c); [apply IH|reflexivity].
Qed.

(** The repetition gives back no white space when what follows cannot
    start with white space. *)
Lemma star_space {A} (k : pystr -> pystr -> option A) :
  (forall c s g, isspace c = true -> k (c :: s) g = None) ->
  forall s g, star true Space s g k = k (lstrip s) g.
Proof.
  intros Hk. induction s as [|c s IH]; intros g; [reflexivity|].
  cbn [star atom_match lstrip].
  destruct (isspace c) eqn:Hc; [|reflexivity].
  rewrite IH. destruct (k (lstrip s) g) eqn:Hrest; [reflexivity|].
  apply Hk, Hc.
Qed.

Lemma ci_eq_In p c : ci_eq p c = true -> In c (ci_class p).
Proof.
  unfold ci_eq. intros H. apply existsb_exists in H as (x & Hin & Hx).
  apply N.eqb_eq in Hx. subst x. exact Hin.
Qed.

Lemma isspace_In c : isspace c = true -> In c whitespace.
Proof.
  unfold isspace. intros H. apply existsb_exists in H as (x & Hin & Hx).
  apply N.eqb_eq in Hx. subst x. exact Hin.
Qed.

(** White space starts neither token. *)
Lemma space_starts_no_token c s :
  isspace c = true -> ci_prefix SUCCESS (c :: s) = false /\
                      ci_prefix FAILURE (c :: s) = false.
Proof.
  intros H. apply isspace_In in H. unfold whitespace in H. cbn [In] in H.
  repeat (destruct H as [<-|H]; [split; reflexivity|]). contradiction.
Qed.

Lemma length_ci_prefix w s : ci_prefix w s = true -> (length w <= length s)%nat.
Proof.
  revert s. induction w as [|p w IH]; intros s H; [cbn; lia|].
  destruct s as [|c s]; [discriminate H|].
  cbn [ci_prefix] in H. apply andb_true_iff in H as [_ H].
  apply IH in H. cbn [length]. lia.
Qed.

Lemma group_text w (s : pystr) :
  ci_prefix w s = true ->
  take (length s - length (drop (length w) s)) s = take (length w) s.
Proof.
  intros H. apply length_ci_prefix in H. rewrite length_drop. f_equal. lia.
Qed.

(** What the matcher does at one position. *)
Lemma bt_status s :
  bt true status_re s [] (fun _ g => Some g) = match_here s.
Proof.
  unfold status_re, match_here.
  cbn [bt]. rewrite bt_word.
  destruct (ci_prefix (lit "STATUS:") s); [|reflexivity].
  change (length (lit "STATUS:")) with 7%nat.
  rewrite star_space.
  - generalize (lstrip (drop 7 s)). intros t. unfold token_here.
    rewrite !bt_word.
    destruct (ci_prefix SUCCESS t) eqn:H1.
    + rewrite (group_text SUCCESS t H1). reflexivity.
    + destruct (ci_prefix FAILURE t) eqn:H2; [|reflexivity].
      rewrite (group_text FAILURE t H2). reflexivity.
  - intros c t g Hc. rewrite !bt_word.
    destruct (space_starts_no_token c t Hc) as [-> ->]. reflexivity.
Qed.

(** [re.search] returns the match at the first position that has one. *)
Lemma search_from_spec s : forall i,
  match search_from true status_re i s with
  | Some m =>
      exists j, start m = (i + j)%nat /\ (j <= length s)%nat /\
                match_here (drop j s) = Some (group1 m) /\
                forall j', (j' < j)%nat -> match_here (drop j' s) = None
  | None => forall j, match_here (drop j s) = None
  end.
Proof.
  induction s as [|c s IH]; intros i.
  - cbn [search_from]. rewrite bt_status.
    destruct (match_here []) eqn:H0.
    + exists 0%nat. cbn. repeat split; try lia. exact H0.
    + intros j. rewrite drop_nil. exact H0.
  - cbn [search_from]. rewrite bt_status.
    destruct (match_here (c :: s)) as [g|] eqn:H0.
    + exists 0%nat. cbn [start group1 drop]. repeat split; try lia. exact H0.
    + specialize (IH (S i)).
      destruct (search_from true status_re (S i) s) as [m|].
      * destruct IH as (j & Hst & Hle & Hm & Hfirst).
        exists (S j). cbn [drop length]. repeat split; try lia; [exact Hm|].
        intros [|j'] Hj'; [exact H0|]. cbn [drop]. apply Hfirst. lia.
      * intros [|j]; [exact H0|]. cbn [drop]. apply IH.
Qed.

(** ** The verdict *)

Lemma ci_prefix_take w s :
  ci_prefix w s = true -> ci_word w (take (length w) s).
Proof.
  revert s. induction w as [|p w IH]; intros s H; [constructor|].
  destruct s as [|c s]; [discriminate|]. cbn in H.
  apply andb_true_iff in H as [Hc H].
  cbn [length take]. constructor; [exact Hc|]. apply IH, H.
Qed.

(** A letter of the pattern other than [I] and the code points it matches:
    [upper] gives the letter back. *)
Lemma upper_of_letter p c :
  In p [65; 67; 69; 70; 76; 82; 83; 84; 85] ->
  ci_eq p c = true -> upper_char c = p.
Proof.
  intros Hp Hc. apply ci_eq_In in Hc. cbn [In] in Hp.
  repeat (destruct Hp as [<-|Hp];
          [cbn in Hc; repeat (destruct Hc as [<-|Hc]; [reflexivity|]);
           contradiction|]).
  contradiction.
Qed.

(** The letter [I] matches U+0130 as well, which has no other capital. *)
Lemma upper_of_i c :
  ci_eq 73 c = true -> upper_char c = 73 \/ (c = 304 /\ upper_char c = 304).
Proof.
  intros Hc. apply ci_eq_In in Hc. cbn in Hc.
  repeat (destruct Hc as [<-|Hc]; [auto|]). contradiction.
Qed.

Lemma upper_success t : ci_word SUCCESS t -> upper t = SUCCESS.
Proof.
  unfold ci_word. change SUCCESS with [83; 85; 67; 67; 69; 83; 83].
  intros H.
  repeat (match goal with
          | H : Forall2 _ (_ :: _) _ |- _ =>
              apply Forall2_cons_inv_l in H as (? & ? & ? & H & ->)
          | H : Forall2 _ [] _ |- _ => apply Forall2_nil_inv_l in H as ->
          end).
  cbn [upper map].
  repeat (match goal with
          | H : ci_eq _ _ = true |- _ =>
              apply upper_of_letter in H; [rewrite H; clear H|cbn; tauto]
          end).
  reflexivity.
Qed.

Lemma upper_failure t :
  ci_word FAILURE t ->
  upper t = FAILURE \/ (upper t = FAILURE_dotted /\ t !! 2%nat = Some 304).
Proof.
  unfold ci_word. change FAILURE with [70; 65; 73; 76; 85; 82; 69].
  intros H.
  repeat (match goal with
          | H : Forall2 _ (_ :: _) _ |- _ =>
              apply Forall2_cons_inv_l in H as (? & ? & ? & H & ->)
          | H : Forall2 _ [] _ |- _ => apply Forall2_nil_inv_l in H as ->
          end).
  cbn [upper map].
  match goal with
  | H : ci_eq 73 _ = true |- _ => apply upper_of_i in H as [Hi|[-> Hi]]
  end;
  repeat (match goal with
          | H : ci_eq _ _ = true |- _ =>
              apply upper_of_letter in H; [rewrite H; clear H|cbn; tauto]
          end);
  rewrite Hi.
  - left. reflexivity.
  - right. split; reflexivity.
Qed.

(** The parse step gives one of four texts: the three verdicts it can
    give by design, and [FAILURE] spelt with U+0130. *)
Lemma parse_status_values s :
  parse_status s = SUCCESS \/ parse_status s = FAILURE \/
  parse_status s = UNKNOWN \/ parse_status s = FAILURE_dotted.
Proof.
  unfold parse_status, re_search.
  pose proof (search_from_spec s 0) as H.
  destruct (search_from true status_re 0 s) as [m|]; [|auto].
  destruct H as (j & _ & _ & Hm & _).
  unfold match_here in Hm.
  destruct (ci_prefix (lit "STATUS:") (drop j s)); [|discriminate].
  unfold token_here in Hm.
  destruct (ci_prefix SUCCESS _) eqn:H1.
  - injection Hm as <-. left.
    apply upper_success, (ci_prefix_take SUCCESS), H1.
  - destruct (ci_prefix FAILURE _) eqn:H2; [|discriminate].
    injection Hm as <-.
    pose proof (upper_failure _ (ci_prefix_take FAILURE _ H2)) as Hu.
    change (length FAILURE) with 7%nat in Hu.
    destruct Hu as [->|[-> _]]; auto.
Qed.

(** ** The pattern, as the specification words it *)

Lemma ci_word_prefix w a x : ci_word w a -> ci_prefix w (a ++ x) = true.
Proof.
  induction 1 as [|p c w a Hc _ IH]; [reflexivity|].
  cbn [Datatypes.app ci_prefix]. rewrite Hc, IH. reflexivity.
Qed.

Lemma ci_word_length w a : ci_word w a -> length a = length w.
Proof. intros H. symmetry. apply (Forall2_length _ _ _ H). Qed.

Lemma lstrip_split s :
  exists ws, s = ws ++ lstrip s /\ Forall (fun c => isspace c = true) ws.
Proof.
  induction s as [|c s (ws & Hs & Hws)].
  - exists []. split; [reflexivity|constructor].
  - cbn [lstrip]. destruct (isspace c) eqn:Hc.
    + exists (c :: ws). split; [cbn; f_equal; exact Hs|].
      constructor; assumption.
    + exists []. split; [reflexivity|constructor].
Qed.

Lemma lstrip_spaces ws u :
  Forall (fun c => isspace c = true) ws -> lstrip (ws ++ u) = lstrip u.
Proof.
  induction 1 as [|c ws Hc _ IH]; [reflexivity|].
  cbn [Datatypes.app lstrip]. rewrite Hc. exact IH.
Qed.

Lemma starts_s_not_space c : ci_eq 83 c = true -> isspace c = false.
Proof.
  intros H. apply ci_eq_In in H. cbn in H.
  repeat (destruct H as [<-|H]; [reflexivity|]). contradiction.
Qed.

Lemma starts_f_not_space c :
  ci_eq 70 c = true -> isspace c = false /\ ci_eq 83 c = false.
Proof.
  intros H. apply ci_eq_In in H. cbn in H.
  repeat (destruct H as [<-|H]; [split; reflexivity|]). contradiction.
Qed.

Lemma take_word w t rest : ci_word w t -> take (length w) (t ++ rest) = t.
Proof.
  intros H. rewrite <- (ci_word_length _ _ H).
  rewrite take_app_length. reflexivity.
Qed.

Lemma token_here_occurs u t :
  token_here u = Some t <->
  exists tok rest, (tok = SUCCESS \/ tok = FAILURE) /\
                   u = t ++ rest /\ ci_word tok t.
Proof.
  unfold token_here. split.
  - destruct (ci_prefix SUCCESS u) eqn:H1.
    + intros [= <-]. exists SUCCESS, (drop 7 u).
      split; [auto|]. split; [symmetry; apply take_drop|].
      apply (ci_prefix_take SUCCESS), H1.
    + destruct (ci_prefix FAILURE u) eqn:H2; [|discriminate].
      intros [= <-]. exists FAILURE, (drop 7 u).
      split; [auto|]. split; [symmetry; apply take_drop|].
      apply (ci_prefix_take FAILURE), H2.
  - intros (tok & rest & [-> | ->] & -> & Hw).
    + rewrite (ci_word_prefix _ _ rest Hw).
      f_equal. apply (take_word SUCCESS), Hw.
    + assert (Hs : ci_prefix SUCCESS (t ++ rest) = false).
      { inversion Hw as [|p c w' t' Hc _]; subst.
        cbn [Datatypes.app]. 
        change SUCCESS with (83 :: [85; 67; 67; 69; 83; 83]).
        cbn [ci_prefix]. apply starts_f_not_space in Hc as [_ ->].
        reflexivity. }
      rewrite Hs, (ci_word_prefix _ _ rest Hw).
      f_equal. apply (take_word FAILURE), Hw.
Qed.

Lemma token_not_space tok t :
  tok = SUCCESS \/ tok = FAILURE -> ci_word tok t ->
  forall rest, lstrip (t ++ rest) = t ++ rest.
Proof.
  intros [-> | ->] Hw rest; inversion Hw as [|p c w' t' Hc _]; subst;
    cbn [Datatypes.app]; apply lstrip_nonspace.
  - apply starts_s_not_space, Hc.
  - apply starts_f_not_space, Hc.
Qed.

(** The matcher finds at the start of a text what the specification
    calls a match there. *)
Lemma match_here_occurs s t :
  match_here s = Some t <->
  exists tok, (tok = SUCCESS \/ tok = FAILURE) /\ occurs_at s 0 tok t.
Proof.
  unfold match_here, occurs_at. split.
  - destruct (ci_prefix (lit "STATUS:") s) eqn:Hp; [|discriminate].
    intros Ht. apply token_here_occurs in Ht as (tok & rest & Htok & Hu & Hw).
    destruct (lstrip_split (drop 7 s)) as (ws & Hws & Hall).
    exists tok. split; [exact Htok|].
    exists (take 7 s), ws, rest. split; [lia|]. split; [|split; [|split]].
    + rewrite drop_0, <- Hu, <- Hws. symmetry. apply take_drop.
    + apply (ci_prefix_take (lit "STATUS:")), Hp.
    + exact Hall.
    + exact Hw.
  - intros (tok & Htok & a & ws & rest & _ & Hs & Ha & Hws & Hw).
    rewrite drop_0 in Hs. subst s.
    rewrite (ci_word_prefix _ _ _ Ha).
    replace (drop 7 (a ++ ws ++ t ++ rest)) with (ws ++ t ++ rest).
    + rewrite (lstrip_spaces _ _ Hws), (token_not_space tok t Htok Hw).
      apply token_here_occurs. exists tok, rest. auto.
    + change 7%nat with (length (lit "STATUS:")).
      rewrite <- (ci_word_length _ _ Ha), drop_app_length. reflexivity.
Qed.

Lemma occurs_at_drop s i tok t :
  occurs_at s i tok t <->
  (i <= length s)%nat /\ occurs_at (drop i s) 0 tok t.
Proof.
  unfold occurs_at. split.
  - intros (a & ws & rest & Hi & H). split; [exact Hi|].
    exists a, ws, rest. rewrite drop_0. split; [lia|exact H].
  - intros (Hi & a & ws & rest & _ & H). rewrite drop_0 in H.
    exists a, ws, rest. auto.
Qed.

(** First match wins: the match that [re.search] returns is a match of
    the pattern in the sense of the specification, no position before it
    has one, and when there is no match anywhere it returns none. *)
Lemma re_search_first_match s :
  match re_search status_re s true with
  | Some m =>
      (exists tok, (tok = SUCCESS \/ tok = FAILURE) /\
                   occurs_at s (start m) tok (group1 m)) /\
      (forall j tok t, (j < start m)%nat -> tok = SUCCESS \/ tok = FAILURE ->
                       ~ occurs_at s j tok t)
  | None =>
      forall j tok t, tok = SUCCESS \/ tok = FAILURE -> ~ occurs_at s j tok t
  end.
Proof.
  unfold re_search. pose proof (search_from_spec s 0) as H.
  destruct (search_from true status_re 0 s) as [m|].
  - destruct H as (j & Hst & Hle & Hm & Hfirst). cbn in Hst. subst j. split.
    + apply match_here_occurs in Hm as (tok & Htok & Hocc).
      exists tok. split; [exact Htok|]. apply occurs_at_drop. auto.
    + intros j tok t Hj Htok Hocc. apply occurs_at_drop in Hocc as [_ Hocc].
      assert (Hsome : match_here (drop j s) = Some t)
        by (apply match_here_occurs; eauto).
      rewrite (Hfirst j Hj) in Hsome. discriminate.
  - intros j tok t Htok Hocc. apply occurs_at_drop in Hocc as [_ Hocc].
    assert (Hsome : match_here (drop j s) = Some t)
      by (apply match_here_occurs; eauto).
    rewrite (H j) in Hsome. discriminate.
Qed.

(** The verdict of a reply: the token of the first match when the match
    spells it in ASCII letters of either case, and [UNKNOWN] when the
    pattern matches nowhere. *)
Lemma parse_status_verdict s :
  match re_search status_re s true with
  | Some m =>
      (ci_word SUCCESS (group1 m) /\ parse_status s = SUCCESS) \/
      (ci_word FAILURE (group1 m) /\
       (parse_status s = FAILURE \/
        (parse_status s = FAILURE_dotted /\ group1 m !! 2%nat = Some 304)))
  | None => parse_status s = UNKNOWN
  end.
Proof.
  pose proof (re_search_first_match s) as H. unfold parse_status.
  destruct (re_search status_re s true) as [m|]; [|reflexivity].
  destruct H as [(tok & [-> | ->] & Hocc) _];
    destruct Hocc as (a & ws & rest & _ & _ & _ & _ & Hw).
  - left. split; [exact Hw|apply upper_success, Hw].
  - right. split; [exact Hw|apply upper_failure, Hw].
Qed.

(** C1. The reply [STATUS: FAILURE - REASON: x] with the [I] of the
    token written as U+0130, capital I with dot above: the pattern matches
    at position 0 under [re.IGNORECASE], the matched token is [FAILURE]
    in the sense of the specification, and the verdict is the matched text
    in upper case, which keeps U+0130 and so is not [FAILURE]. *)
Theorem C1_dotted_capital_i_verdict :
  let reply := lit "STATUS: FA" ++ [304] ++ lit "LURE - REASON: x" in
  occurs_at (strip reply) 0 FAILURE FAILURE_dotted /\
  re_search status_re (strip reply) true
    = Some {| start := 0; group1 := FAILURE_dotted |} /\
  parse_status (strip reply) = FAILURE_dotted /\
  FAILURE_dotted <> FAILURE /\
  ~ In (parse_status (strip reply)) verdicts.
Proof.
  cbv zeta. split; [|split; [|split; [|split]]].
  - exists (lit "STATUS:"), [32], (lit " - REASON: x").
    split; [cbn; lia|]. split; [vm_compute; reflexivity|].
    split; [repeat constructor|]. split; [repeat constructor|].
    repeat constructor.
  - vm_compute. reflexivity.
  - vm_compute. reflexivity.
  - discriminate.
  - vm_compute. intros H. repeat (destruct H as [H|H]; [discriminate H|]).
    exact H.
Qed.

(** C10. A bundle with one entry for [AuthService] and a model that
    replies [STATUS: FAILURE - REASON: error detected] with the [I] written
    as U+0130: the result has the known applications as its keys, and the
    value of [AuthService] is none of the four verdicts. *)
Theorem C10_dotted_reply_verdict :
  let app_logs : gmap pystr (list LogItem) :=
    {[ lit "AuthService" := [item r_auth] ]} in
  exists results w',
    analyze_logs_with_llm (constant_llm reply_failure_dotted)
      (lit "CORR-TEST001") app_logs empty_world = (Val results, w') /\
    dom results = list_to_set applications /\
    results !! lit "AuthService" = Some FAILURE_dotted /\
    ~ In FAILURE_dotted verdicts.
Proof.
  cbv zeta.
  destruct (analyze_run (constant_llm reply_failure_dotted)
              (lit "CORR-TEST001") {[ lit "AuthService" := [item r_auth] ]}
              empty_world) as (results & Hrun & Hdom & _).
  exists results. eexists. split; [exact Hrun|]. split; [exact Hdom|]. split.
  - assert (Hc : (analyze_logs_with_llm (constant_llm reply_failure_dotted)
              (lit "CORR-TEST001") {[ lit "AuthService" := [item r_auth] ]}
              empty_world).1 = Val results) by (rewrite Hrun; reflexivity).
    vm_compute in Hc. injection Hc as <-. vm_compute. reflexivity.
  - vm_compute. intros H. repeat (destruct H as [H|H]; [discriminate H|]).
    exact H.
Qed.

(** The keys of the classifier's result are the known applications, so
    the default of the report builder is never used; a value is one of the
    four verdicts or [FAILURE] spelt with U+0130. *)
Lemma analyze_result_shape llm cid app_logs w :
  exists results w',
    analyze_logs_with_llm llm cid app_logs w = (Val results, w') /\
    dom results = list_to_set applications /\
    forall app, app ∈ applications ->
      exists v, results !! app = Some v /\
                default NO_LOGS (results !! app) = v /\
                (In v verdicts \/ v = FAILURE_dotted).
Proof.
  destruct (analyze_run llm cid app_logs w) as (results & Hrun & Hdom & Hno & Hyes).
  exists results. eexists. split; [exact Hrun|]. split; [exact Hdom|].
  intros app Happ. destruct (has_logs app_logs app) eqn:Hl.
  - destruct (Hyes app Happ Hl) as [reply Hv]. rewrite Hv.
    eexists. split; [reflexivity|]. split; [reflexivity|].
    unfold verdicts. cbn [In].
    destruct (parse_status_values (strip reply)) as [-> | [-> | [-> | ->]]];
      tauto.
  - rewrite (Hno app Happ Hl). eexists. split; [reflexivity|].
    split; [reflexivity|]. unfold verdicts. cbn [In]. tauto.
Qed.

(** ** Stripping the reply does not change the verdict *)

Lemma space_matches_no_letter c p :
  isspace c = true -> In p pattern_letters -> ci_eq p c = false.
Proof.
  intros Hc Hp. apply isspace_In in Hc.
  assert (Hall : forallb (fun p0 => forallb (fun c0 => negb (ci_eq p0 c0))
                                            whitespace)
                         pattern_letters = true)
    by (vm_compute; reflexivity).
  rewrite forallb_forall in Hall. specialize (Hall p Hp).
  rewrite forallb_forall in Hall. specialize (Hall c Hc).
  apply negb_true_iff, Hall.
Qed.

Lemma ci_prefix_app_spaces w ws :
  Forall (fun p => In p pattern_letters) w ->
  Forall (fun c => isspace c = true) ws ->
  forall u, ci_prefix w (u ++ ws) = ci_prefix w u.
Proof.
  intros Hw Hws. induction Hw as [|p w Hp _ IH]; intros u; [reflexivity|].
  destruct u as [|c u].
  - cbn [Datatypes.app ci_prefix]. destruct Hws as [|c ws Hc _]; [reflexivity|].
    rewrite (space_matches_no_letter c p Hc Hp). reflexivity.
  - cbn [Datatypes.app ci_prefix]. rewrite IH. reflexivity.
Qed.

Lemma word_letters :
  Forall (fun p => In p pattern_letters) (lit "STATUS:") /\
  Forall (fun p => In p pattern_letters) SUCCESS /\
  Forall (fun p => In p pattern_letters) FAILURE.
Proof.
  assert (H : forall w,
            forallb (fun p => existsb (N.eqb p) pattern_letters) w = true ->
            Forall (fun p => In p pattern_letters) w).
  { intros w Hw. apply Forall_forall. intros p Hp.
    rewrite forallb_forall in Hw.
    specialize (Hw p (proj1 (list_elem_of_In _ _) Hp)).
    apply existsb_exists in Hw as (q & Hq & Heq).
    apply N.eqb_eq in Heq. subst q. exact Hq. }
  repeat split; apply H; vm_compute; reflexivity.
Qed.

Lemma lstrip_all_spaces ws :
  Forall (fun c => isspace c = true) ws -> lstrip ws = [].
Proof.
  induction 1 as [|c ws Hc _ IH]; [reflexivity|].
  cbn [lstrip]. rewrite Hc. exact IH.
Qed.

Lemma lstrip_app_spaces r ws :
  Forall (fun c => isspace c = true) ws ->
  lstrip (r ++ ws) = lstrip r ++ ws \/
  (lstrip r = [] /\ lstrip (r ++ ws) = []).
Proof.
  intros Hws. induction r as [|c r IH].
  - right. split; [reflexivity|]. apply lstrip_all_spaces, Hws.
  - cbn [Datatypes.app lstrip]. destruct (isspace c); [exact IH|].
    left. reflexivity.
Qed.

Lemma token_here_app_spaces v ws :
  Forall (fun c => isspace c = true) ws ->
  token_here (v ++ ws) = token_here v.
Proof.
  intros Hws. destruct word_letters as (_ & Hs & Hf). unfold token_here.
  rewrite (ci_prefix_app_spaces SUCCESS ws Hs Hws),
          (ci_prefix_app_spaces FAILURE ws Hf Hws).
  destruct (ci_prefix SUCCESS v) eqn:H1.
  - apply length_ci_prefix in H1. change (length SUCCESS) with 7%nat in H1.
    rewrite take_app_le by exact H1. reflexivity.
  - destruct (ci_prefix FAILURE v) eqn:H2; [|reflexivity].
    apply length_ci_prefix in H2. change (length FAILURE) with 7%nat in H2.
    rewrite take_app_le by exact H2. reflexivity.
Qed.

Lemma match_here_app_spaces u ws :
  Forall (fun c => isspace c = true) ws ->
  match_here (u ++ ws) = match_here u.
Proof.
  intros Hws. destruct word_letters as (Hst & _ & _). unfold match_here.
  rewrite (ci_prefix_app_spaces _ ws Hst Hws).
  destruct (ci_prefix (lit "STATUS:") u) eqn:Hp; [|reflexivity].
  apply length_ci_prefix in Hp. change (length (lit "STATUS:")) with 7%nat in Hp.
  rewrite drop_app_le by exact Hp.
  destruct (lstrip_app_spaces (drop 7 u) ws Hws) as [-> | [-> ->]].
  - apply token_here_app_spaces, Hws.
  - reflexivity.
Qed.

Lemma match_here_space c s : isspace c = true -> match_here (c :: s) = None.
Proof.
  intros Hc. unfold match_here.
  change (lit "STATUS:") with (83 :: [84; 65; 84; 85; 83; 58]).
  cbn [ci_prefix].
  rewrite (space_matches_no_letter c 83 Hc) by (cbn; tauto). reflexivity.
Qed.

(** The text of group 1 does not depend on where the count of positions
    starts. *)
Lemma search_group_shift s : forall i j,
  group1 <$> search_from true status_re i s
  = group1 <$> search_from true status_re j s.
Proof.
  induction s as [|c s IH]; intros i j; cbn [search_from];
    destruct (bt true status_re _ [] (fun _ g => Some g)); try reflexivity.
  apply IH.
Qed.

Lemma search_group_lstrip s : forall i,
  group1 <$> search_from true status_re i (lstrip s)
  = group1 <$> search_from true status_re i s.
Proof.
  induction s as [|c s IH]; intros i; [reflexivity|].
  cbn [lstrip]. destruct (isspace c) eqn:Hc; [|reflexivity].
  cbn [search_from]. rewrite bt_status, (match_here_space c s Hc).
  rewrite IH. apply search_group_shift.
Qed.

Lemma search_group_app_spaces ws :
  Forall (fun c => isspace c = true) ws ->
  forall s i,
    group1 <$> search_from true status_re i (s ++ ws)
    = group1 <$> search_from true status_re i s.
Proof.
  intros Hws. induction s as [|c s IH]; intros i.
  - cbn [Datatypes.app]. rewrite <- (search_group_lstrip ws).
    rewrite (lstrip_all_spaces ws Hws). reflexivity.
  - cbn [Datatypes.app search_from]. rewrite !bt_status.
    change (c :: s ++ ws) with ((c :: s) ++ ws).
    rewrite (match_here_app_spaces (c :: s) ws Hws).
    destruct (match_here (c :: s)); [reflexivity|]. apply IH.
Qed.

Lemma rstrip_split s :
  exists ws, s = rstrip s ++ ws /\ Forall (fun c => isspace c = true) ws.
Proof.
  destruct (lstrip_split (rev s)) as (ws & Hs & Hws).
  exists (rev ws). split.
  - unfold rstrip. rewrite <- rev_app_distr, <- Hs, rev_involutive.
    reflexivity.
  - apply Forall_forall. intros c Hc.
    rewrite Forall_forall in Hws. apply Hws.
    apply list_elem_of_In, in_rev. apply list_elem_of_In in Hc. exact Hc.
Qed.

(** The verdict parsed from the stripped reply is the verdict of the
    reply. *)
Lemma parse_status_strip reply :
  parse_status (strip reply) = parse_status reply.
Proof.
  assert (H : group1 <$> re_search status_re (strip reply) true
              = group1 <$> re_search status_re reply true).
  { unfold re_search, strip.
    destruct (rstrip_split (lstrip reply)) as (ws & Hs & Hws).
    rewrite <- (search_group_lstrip reply 0).
    rewrite Hs at 2. rewrite (search_group_app_spaces ws Hws). reflexivity. }
  unfold parse_status.
  destruct (re_search status_re (strip reply) true) as [m|],
           (re_search status_re reply true) as [m'|];
    cbn in H; try discriminate; [|reflexivity].
  injection H as ->. reflexivity.
Qed.

(** ** The report *)

Lemma odict_set_fresh k v (d : odict) :
  k ∉ map fst d -> odict_set k v d = d ++ [(k, v)].
Proof.
  induction d as [|[k' v'] d IH]; intros H; [reflexivity|].
  cbn in H. apply not_elem_of_cons in H as [Hne H].
  cbn. rewrite decide_False by congruence. f_equal. apply IH, H.
Qed.

(** A row built over distinct keys holds them in their order. *)
Lemma fill_row (f : pystr -> pystr) (keys : list pystr) : forall (row : odict),
  NoDup (map fst row ++ keys) ->
  foldl (fun row k => odict_set k (f k) row) row keys
  = row ++ map (fun k => (k, f k)) keys.
Proof.
  induction keys as [|k keys IH]; intros row Hnd.
  - cbn. rewrite app_nil_r. reflexivity.
  - cbn [foldl map]. apply NoDup_app in Hnd as (Hrow & Hdisj & Hkeys).
    rewrite odict_set_fresh.
    + rewrite IH.
      * rewrite <- app_assoc. reflexivity.
      * rewrite map_app. cbn. rewrite <- app_assoc. cbn.
        apply NoDup_app. split; [exact Hrow|]. split; [exact Hdisj|exact Hkeys].
    + intros Hin. apply (Hdisj k Hin). left.
Qed.

Lemma header_NoDup : NoDup header.
Proof. apply (bool_decide_unpack _). vm_compute. exact I. Qed.

Lemma make_row_cells corr_id results :
  make_row corr_id results
  = (lit "correlation_id", corr_id)
      :: map (fun app => (app, default NO_LOGS (results !! app))) applications.
Proof.
  unfold make_row.
  rewrite (fill_row (fun app => default NO_LOGS (results !! app))).
  - reflexivity.
  - exact header_NoDup.
Qed.

Lemma make_row_keys corr_id results :
  map fst (make_row corr_id results) = header.
Proof.
  rewrite make_row_cells. reflexivity.
Qed.

Lemma add_columns_fresh (row : odict) : forall cols,
  NoDup (cols ++ map fst row) -> add_columns cols row = cols ++ map fst row.
Proof.
  unfold add_columns.
  induction row as [|[k v] row IH]; intros cols Hnd.
  - cbn. rewrite app_nil_r. reflexivity.
  - cbn [foldl map fst]. apply NoDup_app in Hnd as (Hc & Hdisj & Hk).
    rewrite decide_False.
    + rewrite IH.
      * rewrite <- app_assoc. reflexivity.
      * rewrite <- app_assoc. cbn. apply NoDup_app.
        split; [exact Hc|]. split; [exact Hdisj|exact Hk].
    + intros Hin. apply (Hdisj k Hin). left.
Qed.

Lemma add_columns_known (row : odict) : forall cols,
  (forall k, k ∈ map fst row -> k ∈ cols) -> add_columns cols row = cols.
Proof.
  unfold add_columns.
  induction row as [|[k v] row IH]; intros cols Hin; [reflexivity|].
  cbn [foldl fst]. rewrite decide_True by (apply Hin; left).
  apply IH. intros k' Hk'. apply Hin. right. exact Hk'.
Qed.

(** Rows that all have the keys [keys], in that order, give these
    columns. *)
Lemma columns_of_rows (keys : list pystr) (dicts : list odict) :
  NoDup keys -> Forall (fun d => map fst d = keys) dicts ->
  foldl add_columns [] dicts = match dicts with [] => [] | _ => keys end.
Proof.
  intros Hnd Hall. destruct dicts as [|d dicts]; [reflexivity|].
  apply Forall_cons in Hall as [Hd Hall]. cbn [foldl].
  rewrite add_columns_fresh by (cbn; rewrite Hd; exact Hnd).
  cbn [Datatypes.app]. rewrite Hd.
  induction Hall as [|d' dicts Hd' Hall IH]; [reflexivity|].
  cbn [foldl]. rewrite add_columns_known; [exact IH|].
  intros k Hk. rewrite Hd' in Hk. exact Hk.
Qed.

Lemma odict_get_own (d : odict) :
  NoDup (map fst d) ->
  map (fun c => odict_get c d) (map fst d) = map (fun kv => Some kv.2) d.
Proof.
  induction d as [|[k v] d IH]; intros Hnd; [reflexivity|].
  cbn [map fst snd odict_get]. apply NoDup_cons in Hnd as [Hk Hnd].
  rewrite decide_True by reflexivity. f_equal.
  rewrite <- IH by exact Hnd.
  apply map_ext_in. intros c Hc.
  rewrite decide_False; [reflexivity|].
  intros ->. apply Hk, list_elem_of_In, Hc.
Qed.

Lemma row_values corr_id results :
  map (fun c => odict_get c (make_row corr_id results)) header
  = verdict_row corr_id results.
Proof.
  rewrite <- (make_row_keys corr_id results) at 1.
  rewrite odict_get_own by (rewrite make_row_keys; exact header_NoDup).
  rewrite make_row_cells. cbn [map snd]. unfold verdict_row.
  rewrite map_map. reflexivity.
Qed.

Section Report.

Variable llm : list pystr -> pystr -> pystr.

(** The classifier always gives a result for a correlation id. *)
Lemma process_run cid w :
  exists results w1,
    process_correlation_id llm cid w = (Val results, w1) /\
    dom results = list_to_set applications.
Proof.
  unfold process_correlation_id.
  rewrite (bind_val _ _ _ _ _ (print_run _ _)).
  destruct (retrieve_run cid 5 (set_stdout (stdout w ++ [PProcessing cid]) w))
    as (bundle & Hret & _).
  rewrite (bind_val _ _ _ _ _ Hret).
  rewrite (bind_val _ _ _ _ _ (print_run _ _)).
  destruct (analyze_run llm cid bundle
              (set_stdout
                 (stdout (set_stdout (stdout w ++ [PProcessing cid]) w)
                    ++ [PRetrieved (size bundle)])
                 (set_stdout (stdout w ++ [PProcessing cid]) w)))
    as (results & Hrun & Hdom & _).
  rewrite (bind_val _ _ _ _ _ Hrun).
  eexists _, _. split; [reflexivity|exact Hdom].
Qed.

(** The loop over the correlation ids. *)
Lemma report_loop ids : forall acc w,
  exists all w1,
    for_each ids acc (add_report_row llm) w
    = (Val (acc ++ zip_with make_row ids all), w1) /\
    processed llm w ids all w1.
Proof.
  induction ids as [|cid ids IH]; intros acc w.
  - exists [], w. cbn. rewrite app_nil_r. split; [reflexivity|constructor].
  - cbn [for_each].
    destruct (process_run cid w) as (results & w1 & Hrun & _).
    assert (Hrow : add_report_row llm acc cid w
                   = (Val (acc ++ [make_row cid results]), w1))
      by (unfold add_report_row; rewrite (bind_val _ _ _ _ _ Hrun);
          reflexivity).
    rewrite (bind_val _ _ _ _ _ Hrow).
    destruct (IH (acc ++ [make_row cid results]) w1) as (all & w2 & Hloop & Hp).
    exists (results :: all), w2. split.
    + rewrite Hloop. rewrite <- app_assoc. reflexivity.
    + econstructor; eassumption.
Qed.

Lemma processed_length w ids all w1 :
  processed llm w ids all w1 -> length all = length ids.
Proof. induction 1; cbn; congruence. Qed.

End Report.

(** C5 (as amended). The report has one row per requested id, in input
    order, duplicates included; a row holds the id and then, for each
    known application in the order of the list, the verdict that the
    classifier returned, or [NO_LOGS] where it returned none. For a
    non-empty input the columns are [correlation_id] and then the known
    applications in the order of the list; for the empty input the report
    has no row and no column. *)
Theorem C5_report_rows llm correlation_ids output_file w :
  report_spec llm
    (match correlation_ids with [] => [] | _ :: _ => header end)
    correlation_ids output_file w.
Proof.
  unfold report_spec, generate_csv_report.
  rewrite (bind_val _ _ _ _ _ (print_run _ _)).
  destruct (report_loop llm correlation_ids []
              (set_stdout (stdout w ++ [PGenerating (length correlation_ids)]) w))
    as (all & w1 & Hloop & Hp).
  rewrite (bind_val _ _ _ _ _ Hloop).
  unfold to_csv. unfold bind, modify, print, ret. cbn [fst snd Datatypes.app].
  eexists _, _, all, w1. split; [reflexivity|]. split; [exact Hp|].
  assert (Hlen := processed_length _ _ _ _ _ Hp).
  assert (Hkeys : Forall (fun d => map fst d = header)
                         (zip_with make_row correlation_ids all)).
  { clear. revert all. induction correlation_ids as [|c ids IH];
      intros [|r all]; cbn; constructor; [apply make_row_keys|apply IH]. }
  unfold DataFrame_of. cbn [columns rows].
  rewrite (columns_of_rows header _ header_NoDup Hkeys).
  destruct correlation_ids as [|c ids].
  - split; reflexivity.
  - destruct all as [|r all]; [discriminate Hlen|]. split; [reflexivity|].
    cbn [zip_with]. rewrite map_cons.
    change (zip_with make_row (c :: ids) (r :: all))
      with (make_row c r :: zip_with make_row ids all).
    cbn [map]. rewrite row_values. f_equal.
    clear. revert all. induction ids as [|c' ids IH]; intros [|r' all];
      cbn [zip_with map]; try reflexivity.
    rewrite row_values, IH. reflexivity.
Qed.

(** C5 as stated fails on the empty list of ids: the data frame of no row
    has no column, so the header does not name [correlation_id] and the
    applications. *)
Lemma C5_counterexample :
  ~ report_spec (constant_llm (lit "STATUS: SUCCESS - REASON: ok")) header []
      (lit "analysis_report.csv") empty_world.
Proof.
  intros (df & w' & all & w1 & Hrun & _ & Hcols & _).
  vm_compute in Hrun. injection Hrun as <- _.
  vm_compute in Hcols. discriminate Hcols.
Qed.

(* ===================================================================== *)
(** ** More on ingestion *)
(* ===================================================================== *)

Lemma load_loop_no_files json_loads str_field dir w apps : forall total,
  (forall app, app ∈ apps -> files w !! log_file_of dir app = None) ->
  forall out,
    for_each apps total (load_app json_loads str_field dir)
      (set_stdout (stdout w ++ out) w)
    = (Val total,
       set_stdout
         (stdout w ++ out
            ++ map (fun app => PNotFound (log_file_of dir app)) apps) w).
Proof.
  induction apps as [|app apps IH]; intros total Hfiles out.
  - cbn. rewrite app_nil_r. reflexivity.
  - cbn [for_each map].
    assert (Hturn : load_app json_loads str_field dir total app
                      (set_stdout (stdout w ++ out) w)
                    = (Val total,
                       set_stdout
                         (stdout w ++ out ++ [PNotFound (log_file_of dir app)])
                         w)).
    { unfold load_app. fold (log_file_of dir app).
      unfold bind at 1, get_world at 1. cbn beta iota.
      cbn [files set_stdout].
      rewrite (Hfiles app) by (apply elem_of_cons; left; reflexivity).
      rewrite (bind_val _ _ _ _ _ (print_run _ _)).
      unfold ret. cbn [stdout set_stdout]. rewrite <- app_assoc. reflexivity. }
    rewrite (bind_val _ _ _ _ _ Hturn).
    rewrite IH by (intros a Ha; apply Hfiles, elem_of_cons; right; exact Ha).
    rewrite <- app_assoc. reflexivity.
Qed.

(** X1. When none of the log files of the known applications exists, the
    ingestion prints one warning per application, in the order of the
    list, reports a total of zero, stores nothing and returns normally. *)
Theorem X1_load_without_files json_loads str_field dir w :
  (forall app, app ∈ applications ->
               files w !! log_file_of dir app = None) ->
  load_application_logs json_loads str_field dir w
  = (Val PyNone,
     set_stdout
       (stdout w ++ [PLoading]
          ++ map (fun app => PNotFound (log_file_of dir app)) applications
          ++ [PTotal 0]) w).
Proof.
  intros Hfiles. unfold load_application_logs.
  rewrite (bind_val _ _ _ _ _ (print_run _ _)).
  rewrite (bind_val _ _ _ _ _
             (load_loop_no_files json_loads str_field dir w applications
                0%nat Hfiles [PLoading])).
  rewrite (bind_val _ _ _ _ _ (print_run _ _)).
  unfold ret. cbn [stdout set_stdout]. rewrite <- !app_assoc. reflexivity.
Qed.

Lemma X1_load_without_files_witness :
  load_application_logs sample_loads strict_str (lit "synthetic_logs")
    (with_collection [stored "AuthService" 0 r_auth])
  = (Val PyNone,
     set_stdout
       (stdout (with_collection [stored "AuthService" 0 r_auth]) ++ [PLoading]
          ++ map (fun app => PNotFound (log_file_of (lit "synthetic_logs") app))
                 applications
          ++ [PTotal 0])
       (with_collection [stored "AuthService" 0 r_auth])).
Proof.
  apply (X1_load_without_files sample_loads strict_str (lit "synthetic_logs")
           (with_collection [stored "AuthService" 0 r_auth])).
  intros app _. apply lookup_empty.
Defined.

Lemma enumerate_lookup {A} (xs : list A) : forall start k x,
  enumerate start xs !! k = Some x <->
  exists y, xs !! k = Some y /\ x = ((start + k)%nat, y).
Proof.
  induction xs as [|a xs IH]; intros start k x.
  - cbn. split; [discriminate|]. intros (y & Hy & _). discriminate.
  - destruct k as [|k]; cbn [enumerate lookup list_lookup].
    + rewrite Nat.add_0_r. split.
      * intros [= <-]. eauto.
      * intros (y & [= <-] & ->). reflexivity.
    + rewrite IH. replace (S start + k)%nat with (start + S k)%nat by lia.
      reflexivity.
Qed.

(** The warnings of a file name its bad lines by their numbers, counted
    from [start]. *)
Lemma line_warnings_elem json_loads str_field log_file start lines ev :
  ev ∈ line_warnings json_loads str_field log_file start lines <->
  exists k line e,
    lines !! k = Some line /\
    parse_line json_loads str_field line = Exc e /\
    caught e = true /\
    ev = PLineError log_file (start + k)%nat e.
Proof.
  unfold line_warnings. rewrite list_elem_of_omap. split.
  - intros ([n line] & Hin & Hev). cbn [fst snd] in Hev.
    apply list_elem_of_lookup in Hin as [k Hk].
    apply enumerate_lookup in Hk as (y & Hy & [= -> ->]).
    destruct (parse_line json_loads str_field y) as [|e] eqn:Hp;
      [discriminate|].
    destruct (caught e) eqn:Hc; [|discriminate].
    injection Hev as <-. exists k, y, e. auto.
  - intros (k & line & e & Hk & Hp & Hc & ->).
    exists ((start + k)%nat, line). split.
    + apply list_elem_of_lookup. exists k. apply enumerate_lookup. eauto.
    + cbn [fst snd]. rewrite Hp, Hc. reflexivity.
Qed.

(** X2. A file every line of which holds a record or raises one of the
    two exceptions that the loop catches ([json.JSONDecodeError] and
    [ValidationError]): the loop keeps the records of the schema-valid
    lines, in file order, prints exactly one warning for every other line,
    naming the line by its number counted from 1, and so accounts for
    every line. *)
Theorem X2_read_log_file_skips_bad_lines json_loads str_field log_file lines w :
  (forall line, line ∈ lines -> uncaught json_loads str_field line = None) ->
  exists warnings,
    read_log_file json_loads str_field log_file lines w
      = (Val (valid_records json_loads str_field lines),
         set_stdout (stdout w ++ warnings) w) /\
    length (valid_records json_loads str_field lines)
      = length (List.filter (is_valid json_loads str_field) lines) /\
    length warnings
      = length (List.filter (is_skipped json_loads str_field) lines) /\
    (length (valid_records json_loads str_field lines) + length warnings
       = length lines)%nat /\
    forall ev,
      ev ∈ warnings <->
      exists k line e,
        lines !! k = Some line /\
        parse_line json_loads str_field line = Exc e /\
        caught e = true /\
        ev = PLineError log_file (S k) e.
Proof.
  intros Hok. apply first_uncaught_None in Hok.
  destruct (read_log_file_counts json_loads str_field log_file lines w Hok)
    as (Hrun & Hn & Hm & Hsum).
  exists (line_warnings json_loads str_field log_file 1 lines).
  split; [exact Hrun|]. split; [exact Hn|]. split; [exact Hm|].
  split; [rewrite Hn, Hm; exact Hsum|].
  intros ev. apply (line_warnings_elem json_loads str_field log_file 1).
Qed.

Lemma X2_read_log_file_skips_bad_lines_witness :
  exists warnings,
    read_log_file sample_loads strict_str auth_file
      [record_line r_auth; line_garbage; line_missing; record_line r_auth2]
      empty_world
      = (Val (valid_records sample_loads strict_str
                [record_line r_auth; line_garbage; line_missing;
                 record_line r_auth2]),
         set_stdout (stdout empty_world ++ warnings) empty_world) /\
    length (valid_records sample_loads strict_str
              [record_line r_auth; line_garbage; line_missing;
               record_line r_auth2])
      = length (List.filter (is_valid sample_loads strict_str)
                  [record_line r_auth; line_garbage; line_missing;
                   record_line r_auth2]) /\
    length warnings
      = length (List.filter (is_skipped sample_loads strict_str)
                  [record_line r_auth; line_garbage; line_missing;
                   record_line r_auth2]) /\
    (length (valid_records sample_loads strict_str
               [record_line r_auth; line_garbage; line_missing;
                record_line r_auth2]) + length warnings
       = length [record_line r_auth; line_garbage; line_missing;
                 record_line r_auth2])%nat /\
    forall ev,
      ev ∈ warnings <->
      exists k line e,
        [record_line r_auth; line_garbage; line_missing; record_line r_auth2]
          !! k = Some line /\
        parse_line sample_loads strict_str line = Exc e /\
        caught e = true /\
        ev = PLineError auth_file (S k) e.
Proof.
  apply (X2_read_log_file_skips_bad_lines sample_loads strict_str auth_file
           [record_line r_auth; line_garbage; line_missing; record_line r_auth2]
           empty_world).
  intros line Hin.
  repeat (apply elem_of_cons in Hin as [->|Hin]; [vm_compute; reflexivity|]).
  inversion Hin.
Defined.

Lemma loaded_prefix_stops json_loads str_field dir w pre app post e :
  (forall a, a ∈ pre -> turn_exn json_loads str_field dir w a = None) ->
  turn_exn json_loads str_field dir w app = Some e ->
  loaded_prefix json_loads str_field dir w (pre ++ app :: post) = pre /\
  run_exn json_loads str_field dir w (pre ++ app :: post) = Some e.
Proof.
  intros Hpre Happ. induction pre as [|a pre IH].
  - cbn. rewrite Happ. auto.
  - cbn. rewrite (Hpre a) by (apply elem_of_cons; left; reflexivity).
    destruct IH as [IH1 IH2].
    { intros b Hb. apply Hpre, elem_of_cons. right. exact Hb. }
    rewrite IH1, IH2. auto.
Qed.

(** X3. Ingestion stops at the first application whose turn raises, be it
    a line of its file that raises an exception the loop does not catch or
    the store refusing its batch: the exception leaves the method; the
    collection holds what it held and what the store kept of the batches
    of the applications before that one, every identifier of those batches
    among them, and nothing of that file or of the files after it. *)
Theorem X3_load_stops_at_first_raise json_loads str_field dir w
    pre app post e :
  applications = pre ++ app :: post ->
  (forall a, a ∈ pre -> turn_exn json_loads str_field dir w a = None) ->
  turn_exn json_loads str_field dir w app = Some e ->
  exists w',
    load_application_logs json_loads str_field dir w = (Exc e, w') /\
    collection w'
      = stored_after json_loads str_field dir (files w) (collection w) pre /\
    (forall entry,
       entry ∈ collection w' ->
       entry ∈ collection w \/
       exists a, a ∈ pre /\
                 entry ∈ app_batch json_loads str_field dir (files w) a) /\
    (forall entry, entry ∈ collection w -> entry ∈ collection w') /\
    (forall a entry,
       a ∈ pre -> entry ∈ app_batch json_loads str_field dir (files w) a ->
       entry_id entry ∈ map entry_id (collection w')).
Proof.
  intros Hsplit Hpre Happ.
  destruct (load_run json_loads str_field dir w) as [out Hrun].
  rewrite Hsplit in Hrun.
  destruct (loaded_prefix_stops json_loads str_field dir w pre app post e
              Hpre Happ) as [Hp He].
  rewrite Hp, He in Hrun.
  eexists. split; [exact Hrun|].
  cbn [collection set_stdout set_collection].
  split; [reflexivity|]. split; [|split].
  - intros entry. apply stored_after_elem.
  - intros entry. apply stored_after_held.
  - intros a entry Ha Hin. apply stored_after_ids. right.
    exists a, entry. auto.
Qed.

Lemma X3_load_stops_at_first_raise_witness :
  exists w',
    load_application_logs sample_loads strict_str (lit "synthetic_logs")
      (with_files [(auth_file, [record_line r_auth]);
                   (mail_file, [record_line r_mail; line_huge])])
    = (Exc ValueError, w') /\
    collection w'
      = stored_after sample_loads strict_str (lit "synthetic_logs")
          (files (with_files [(auth_file, [record_line r_auth]);
                              (mail_file, [record_line r_mail; line_huge])]))
          (collection (with_files
                         [(auth_file, [record_line r_auth]);
                          (mail_file, [record_line r_mail; line_huge])]))
          [lit "AuthService"] /\
    (forall entry,
       entry ∈ collection w' ->
       entry ∈ collection (with_files
                             [(auth_file, [record_line r_auth]);
                              (mail_file, [record_line r_mail; line_huge])]) \/
       exists a, a ∈ [lit "AuthService"] /\
                 entry ∈ app_batch sample_loads strict_str
                           (lit "synthetic_logs")
                           (files (with_files
                                     [(auth_file, [record_line r_auth]);
                                      (mail_file, [record_line r_mail;
                                                   line_huge])])) a) /\
    (forall entry,
       entry ∈ collection (with_files
                             [(auth_file, [record_line r_auth]);
                              (mail_file, [record_line r_mail; line_huge])]) ->
       entry ∈ collection w') /\
    (forall a entry,
       a ∈ [lit "AuthService"] ->
       entry ∈ app_batch sample_loads strict_str (lit "synthetic_logs")
                 (files (with_files
                           [(auth_file, [record_line r_auth]);
                            (mail_file, [record_line r_mail; line_huge])])) a ->
       entry_id entry ∈ map entry_id (collection w')).
Proof.
  apply (X3_load_stops_at_first_raise sample_loads strict_str
           (lit "synthetic_logs")
           (with_files [(auth_file, [record_line r_auth]);
                        (mail_file, [record_line r_mail; line_huge])])
           [lit "AuthService"] (lit "EmailService")
           [lit "NotificationService"; lit "UserManagement";
            lit "AuditService"; lit "DatabaseService"; lit "FileService";
            lit "ReportingService"] ValueError).
  - reflexivity.
  - intros a Ha. apply list_elem_of_singleton in Ha as ->.
    vm_compute. reflexivity.
  - vm_compute. reflexivity.
Defined.

(** X4. [_store_logs_in_chroma] keeps the identifiers of the collection
    pairwise distinct and drops nothing of what the collection held. When
    it returns, the collection holds the identifier
    [{application}_{correlation_id}_{i}] of every log at its index [i],
    and the log at an index whose identifier the collection did not hold
    is stored under it with the five-line document text and its six
    fields as metadata. When the store refuses the batch, the exception
    leaves the method and nothing changes. Either way a second call with
    the same logs does what the first did and changes nothing more. *)
Theorem X4_store_keeps_ids_unique logs app w :
  ids_unique w ->
  let run := _store_logs_in_chroma logs app w in
  ids_unique run.2 /\
  (forall entry, entry ∈ collection w -> entry ∈ collection run.2) /\
  (run.1 = Val tt ->
   forall i log,
     logs !! i = Some log ->
     make_id app log i ∈ map entry_id (collection run.2) /\
     (make_id app log i ∉ map entry_id (collection w) ->
      {| entry_id := make_id app log i; entry_document := doc_text log;
         entry_metadata := log |} ∈ collection run.2)) /\
  (run.1 <> Val tt -> run = (Exc StoreError, w)) /\
  _store_logs_in_chroma logs app run.2 = run.
Proof.
  intros Hw run. subst run. rewrite store_run.
  destruct (accepts w (batch_entries app logs)) eqn:Hacc;
    cbn [fst snd collection set_collection].
  - assert (Hin : forall i log, logs !! i = Some log ->
              {| entry_id := make_id app log i; entry_document := doc_text log;
                 entry_metadata := log |} ∈ batch_entries app logs).
    { intros i log Hlog. apply list_elem_of_lookup. exists i.
      unfold batch_entries. rewrite list_lookup_imap, Hlog. reflexivity. }
    split; [|split; [|split; [|split]]].
    + apply store_add_NoDup; [exact Hw|apply batch_ids_NoDup].
    + intros entry. apply store_add_held.
    + intros _ i log Hlog. split.
      * apply store_add_ids. right.
        apply list_elem_of_fmap. eexists. split; [|apply (Hin i log Hlog)].
        reflexivity.
      * intros Hfresh. apply elem_of_app. right.
        apply new_entries_fresh; [apply (Hin i log Hlog)|exact Hfresh].
    + intros Hne. contradiction.
    + rewrite store_run.
      change (accepts (set_collection _ w) (batch_entries app logs))
        with (accepts w (batch_entries app logs)).
      rewrite Hacc. cbn [collection set_collection]. f_equal.
      unfold store_add at 1. rewrite new_entries_held.
      * rewrite app_nil_r. destruct w; reflexivity.
      * intros e He. apply store_add_ids. right.
        apply list_elem_of_fmap. exists e. auto.
  - split; [exact Hw|]. split; [auto|]. split; [discriminate|].
    split; [reflexivity|].
    rewrite store_run, Hacc. reflexivity.
Qed.

Lemma X4_store_keeps_ids_unique_witness :
  let run := _store_logs_in_chroma [r_auth; r_auth2] (lit "AuthService")
               (with_collection [stored "AuthService" 0 r_auth]) in
  ids_unique run.2 /\
  (forall entry,
     entry ∈ collection (with_collection [stored "AuthService" 0 r_auth]) ->
     entry ∈ collection run.2) /\
  (run.1 = Val tt ->
   forall i log,
     [r_auth; r_auth2] !! i = Some log ->
     make_id (lit "AuthService") log i ∈ map entry_id (collection run.2) /\
     (make_id (lit "AuthService") log i
        ∉ map entry_id
            (collection (with_collection [stored "AuthService" 0 r_auth])) ->
      {| entry_id := make_id (lit "AuthService") log i;
         entry_document := doc_text log;
         entry_metadata := log |} ∈ collection run.2)) /\
  (run.1 <> Val tt ->
   run = (Exc StoreError, with_collection [stored "AuthService" 0 r_auth])) /\
  _store_logs_in_chroma [r_auth; r_auth2] (lit "AuthService") run.2 = run.
Proof.
  apply (X4_store_keeps_ids_unique [r_auth; r_auth2] (lit "AuthService")
           (with_collection [stored "AuthService" 0 r_auth])).
  apply (bool_decide_unpack _). vm_compute. exact I.
Defined.

Lemma item_in_matching c e :
  e ∈ c ->
  item_of e ∈ matching c (correlation_id (entry_metadata e))
                       (application (entry_metadata e)).
Proof.
  intros He. unfold matching. fold item_of.
  apply list_elem_of_fmap_2, list_elem_of_filter. auto.
Qed.

(** X5. What ingestion loads, retrieval finds. When every line of the
    files holds a record or raises an exception the loop catches, and the
    store accepts every batch, the record of a schema-valid line has the
    id made of the file's application, its correlation id and its index
    among the valid records of the file; if the collection did not hold
    that id, the record is stored under it, and retrieval by its
    correlation id lists it under the application named in the record
    itself, whenever [top_k] is not smaller than the number of entries
    that match. *)
Theorem X5_loaded_record_is_retrieved json_loads str_field dir w
    app lines i r top_k :
  lines_caught json_loads str_field dir w ->
  batches_accepted json_loads str_field dir w ->
  app ∈ applications ->
  files w !! log_file_of dir app = Some lines ->
  valid_records json_loads str_field lines !! i = Some r ->
  make_id app r i ∉ map entry_id (collection w) ->
  let w1 := (load_application_logs json_loads str_field dir w).2 in
  {| entry_id := make_id app r i; entry_document := doc_text r;
     entry_metadata := r |} ∈ collection w1 /\
  exists bundle l,
    retrieve_logs_by_correlation_id (correlation_id r) top_k w1
      = (Val bundle, w1) /\
    bundle !! application r = Some l /\
    ((Z.of_nat (length (matching (collection w1) (correlation_id r)
                          (application r))) <= top_k)%Z ->
     {| document := doc_text r; metadata := r |} ∈ l).
Proof.
  intros Hl Hb Happ Hf Hr Hfresh w1.
  assert (Hin : {| entry_id := make_id app r i; entry_document := doc_text r;
                   entry_metadata := r |} ∈ collection w1).
  { subst w1. destruct (load_run json_loads str_field dir w) as [out Hrun].
    rewrite Hrun. cbn [snd collection set_stdout set_collection].
    rewrite (loaded_prefix_all _ _ _ _ _
               (complete_run json_loads str_field dir w Hl Hb)).
    assert (He : {| entry_id := make_id app r i; entry_document := doc_text r;
                    entry_metadata := r |}
                 ∈ app_batch json_loads str_field dir (files w) app).
    { unfold app_batch. rewrite Hf. unfold batch_entries.
      apply list_elem_of_lookup. exists i.
      rewrite list_lookup_imap, Hr. reflexivity. }
    apply (stored_after_keeps json_loads str_field dir (files w)
             applications (collection w) app _ Happ He Hfresh).
    intros app' e' Happ' Hne He' Heq. apply Hne.
    eapply (app_batch_ids_apart json_loads str_field dir (files w) app' app);
      [apply applications_no_underscore, Happ'
      |apply applications_no_underscore, Happ
      |exact He'|exact He|exact Heq]. }
  split; [exact Hin|].
  destruct (retrieve_run (correlation_id r) top_k w1) as (bundle & Hrun & Hget).
  apply item_in_matching in Hin. cbn [entry_metadata] in Hin.
  unfold item_of in Hin. cbn [entry_document entry_metadata] in Hin.
  specialize (Hget (application r)).
  destruct (matching (collection w1) (correlation_id r) (application r))
    as [|m ms] eqn:Hm; [inversion Hin|].
  exists bundle, (slice_to top_k (m :: ms)).
  split; [exact Hrun|]. split; [exact Hget|].
  intros Hk. unfold slice_to.
  destruct (0 <=? top_k)%Z eqn:Hpos; [|cbn [length] in Hk; lia].
  rewrite take_ge by (cbn [length] in *; lia). exact Hin.
Qed.

Lemma X5_loaded_record_is_retrieved_witness :
  let w := with_files [(auth_file, [line_garbage; record_line r_mail])] in
  let w1 := (load_application_logs sample_loads strict_str
               (lit "synthetic_logs") w).2 in
  {| entry_id := make_id (lit "AuthService") r_mail 0;
     entry_document := doc_text r_mail;
     entry_metadata := r_mail |} ∈ collection w1 /\
  exists bundle l,
    retrieve_logs_by_correlation_id (correlation_id r_mail) 5 w1
      = (Val bundle, w1) /\
    bundle !! application r_mail = Some l /\
    ((Z.of_nat (length (matching (collection w1) (correlation_id r_mail)
                          (application r_mail))) <= 5)%Z ->
     {| document := doc_text r_mail; metadata := r_mail |} ∈ l).
Proof.
  apply (X5_loaded_record_is_retrieved sample_loads strict_str
           (lit "synthetic_logs")
           (with_files [(auth_file, [line_garbage; record_line r_mail])])
           (lit "AuthService") [line_garbage; record_line r_mail] 0 r_mail 5).
  - apply (complete_run_inv sample_loads strict_str).
    vm_compute. reflexivity.
  - apply (complete_run_inv sample_loads strict_str).
    vm_compute. reflexivity.
  - apply (bool_decide_unpack _). vm_compute. exact I.
  - vm_compute. reflexivity.
  - vm_compute. reflexivity.
  - intros Hin. apply elem_of_nil in Hin. exact Hin.
Defined.

(** X6. With a [top_k] that the slice turns into an empty list ([top_k]
    zero, or negative and at least as large in size as the number of
    matches), an application that has matching entries is still a key of
    the bundle, mapped to the empty list, and the bundle has exactly the
    keys it has for any other [top_k]. *)
Theorem X6_retrieve_keeps_emptied_keys w cid top_k app :
  (top_k <= 0)%Z ->
  (top_k = 0 \/
   Z.of_nat (length (matching (collection w) cid app)) <= - top_k)%Z ->
  matching (collection w) cid app <> [] ->
  exists bundle,
    retrieve_logs_by_correlation_id cid top_k w = (Val bundle, w) /\
    bundle !! app = Some [] /\
    forall top_k' bundle',
      retrieve_logs_by_correlation_id cid top_k' w = (Val bundle', w) ->
      dom bundle' = dom bundle.
Proof.
  intros Hk Hsmall Hm.
  destruct (retrieve_run cid top_k w) as (bundle & Hrun & Hget).
  exists bundle. split; [exact Hrun|]. split.
  - rewrite Hget.
    destruct (matching (collection w) cid app) as [|m ms] eqn:Hmm;
      [contradiction|].
    f_equal. unfold slice_to.
    destruct (0 <=? top_k)%Z eqn:Hpos.
    + replace top_k with 0%Z by lia. reflexivity.
    + destruct Hsmall as [->|Hsmall]; [discriminate Hpos|].
      replace (length (m :: ms) - Z.to_nat (- top_k))%nat with 0%nat by lia.
      reflexivity.
  - intros top_k' bundle' Hrun'.
    destruct (retrieve_run cid top_k' w) as (b & Hb & Hget').
    rewrite Hrun' in Hb. injection Hb as <-.
    apply set_eq. intros a. rewrite !elem_of_dom, Hget, Hget'.
    destruct (matching (collection w) cid a); split; intros [x Hx];
      try discriminate; eauto.
Qed.

Lemma X6_retrieve_keeps_emptied_keys_witness :
  exists bundle,
    retrieve_logs_by_correlation_id (lit "CORR-TEST001") 0
      (with_collection [stored "AuthService" 0 r_auth;
                        stored "EmailService" 0 r_mail]) =
      (Val bundle,
       with_collection [stored "AuthService" 0 r_auth;
                        stored "EmailService" 0 r_mail]) /\
    bundle !! lit "EmailService" = Some [] /\
    forall top_k' bundle',
      retrieve_logs_by_correlation_id (lit "CORR-TEST001") top_k'
        (with_collection [stored "AuthService" 0 r_auth;
                          stored "EmailService" 0 r_mail]) =
        (Val bundle',
         with_collection [stored "AuthService" 0 r_auth;
                          stored "EmailService" 0 r_mail]) ->
      dom bundle' = dom bundle.
Proof.
  apply (X6_retrieve_keeps_emptied_keys
           (with_collection [stored "AuthService" 0 r_auth;
                             stored "EmailService" 0 r_mail])
           (lit "CORR-TEST001") 0 (lit "EmailService")).
  - lia.
  - left. reflexivity.
  - vm_compute. discriminate.
Defined.

(* ===================================================================== *)
(** ** More on the verdict *)
(* ===================================================================== *)

(** At one position the pattern matches one text at most. *)
Lemma occurs_at_unique s i tok t tok' t' :
  tok = SUCCESS \/ tok = FAILURE -> tok' = SUCCESS \/ tok' = FAILURE ->
  occurs_at s i tok t -> occurs_at s i tok' t' -> t = t'.
Proof.
  intros Htok Htok' H H'.
  apply occurs_at_drop in H as [_ H]. apply occurs_at_drop in H' as [_ H'].
  assert (H1 : match_here (drop i s) = Some t)
    by (apply match_here_occurs; eauto).
  assert (H2 : match_here (drop i s) = Some t')
    by (apply match_here_occurs; eauto).
  congruence.
Qed.

Lemma occurs_at_word s i tok t : occurs_at s i tok t -> ci_word tok t.
Proof. intros (a & ws & rest & _ & _ & _ & _ & Hw). exact Hw. Qed.

Lemma upper_token tok t :
  tok = SUCCESS \/ tok = FAILURE -> ci_word tok t ->
  upper t = tok \/
  (tok = FAILURE /\ t !! 2%nat = Some 304 /\ upper t = FAILURE_dotted).
Proof.
  intros [-> | ->] Hw.
  - left. apply upper_success, Hw.
  - destruct (upper_failure t Hw) as [H|[H1 H2]]; auto.
Qed.

Lemma upper_token_known tok t :
  tok = SUCCESS \/ tok = FAILURE -> ci_word tok t -> upper t <> UNKNOWN.
Proof.
  intros Htok Hw.
  destruct (upper_token tok t Htok Hw) as [-> | (_ & _ & ->)].
  - destruct Htok as [-> | ->]; discriminate.
  - discriminate.
Qed.

(** X7. The verdict of a reply is [UNKNOWN] exactly when the pattern
    matches at no position of it; otherwise the match at the leftmost
    position that has one decides, whatever follows: the verdict is its
    token text in upper case, which is the token, except that a [FAILURE]
    whose third character is U+0130 keeps that character. *)
Theorem X7_parse_status_first_match reply :
  (parse_status reply = UNKNOWN <->
   forall j tok t, tok = SUCCESS \/ tok = FAILURE ->
                   ~ occurs_at reply j tok t) /\
  (forall i tok t,
     tok = SUCCESS \/ tok = FAILURE ->
     occurs_at reply i tok t ->
     (forall j tok' t', (j < i)%nat -> tok' = SUCCESS \/ tok' = FAILURE ->
                        ~ occurs_at reply j tok' t') ->
     parse_status reply = upper t /\
     (upper t = tok \/
      (tok = FAILURE /\ t !! 2%nat = Some 304 /\ upper t = FAILURE_dotted))).
Proof.
  pose proof (re_search_first_match reply) as Hfirst.
  unfold parse_status.
  destruct (re_search status_re reply true) as [m|] eqn:Hs.
  - destruct Hfirst as [(tokm & Htokm & Hocc) Hmin]. split.
    + split.
      * intros Hu. exfalso.
        exact (upper_token_known tokm _ Htokm (occurs_at_word _ _ _ _ Hocc) Hu).
      * intros Hnone. exfalso. exact (Hnone _ _ _ Htokm Hocc).
    + intros i tok t Htok Hi Hbefore.
      assert (Hpos : start m = i).
      { destruct (Nat.lt_trichotomy (start m) i) as [Hlt|[Heq|Hgt]].
        - exfalso. exact (Hbefore _ _ _ Hlt Htokm Hocc).
        - exact Heq.
        - exfalso. exact (Hmin _ _ _ Hgt Htok Hi). }
      rewrite Hpos in Hocc.
      rewrite (occurs_at_unique _ _ _ _ _ _ Htokm Htok Hocc Hi).
      split; [reflexivity|].
      apply upper_token; [exact Htok|exact (occurs_at_word _ _ _ _ Hi)].
  - split.
    + split; [intros _; exact Hfirst|reflexivity].
    + intros i tok t Htok Hi _. exfalso. exact (Hfirst _ _ _ Htok Hi).
Qed.

(** X8. The classifier strips the reply before it parses it, and that
    changes no verdict: for an application with logs, one prompt is sent
    and the value recorded is the verdict of the reply as the model gave
    it. *)
Theorem X8_verdict_of_raw_reply llm cid app_logs acc app first rest w :
  app_logs !! app = Some (first :: rest) ->
  (forall reply, parse_status (strip reply) = parse_status reply) /\
  analyze_app llm cid app_logs acc app w
  = (Val (<[app := parse_status
                     (llm (llm_calls w)
                          (prompt_format app cid
                             (_prepare_context_for_llm (first :: rest))))]>
            acc),
     set_llm_calls
       (llm_calls w
          ++ [prompt_format app cid
                (_prepare_context_for_llm (first :: rest))]) w).
Proof.
  intros Hlogs. split; [apply parse_status_strip|].
  rewrite analyze_app_logs by (unfold has_logs; rewrite Hlogs; reflexivity).
  unfold prompt_of. rewrite Hlogs, parse_status_strip. reflexivity.
Qed.

Lemma X8_verdict_of_raw_reply_witness :
  (forall reply, parse_status (strip reply) = parse_status reply) /\
  analyze_app (constant_llm (nl ++ lit "  status:   success" ++ nl))
    (lit "CORR-TEST001") {[ lit "AuthService" := [item r_auth] ]} ∅
    (lit "AuthService") empty_world
  = (Val (<[lit "AuthService" :=
              parse_status
                (constant_llm (nl ++ lit "  status:   success" ++ nl)
                   (llm_calls empty_world)
                   (prompt_format (lit "AuthService") (lit "CORR-TEST001")
                      (_prepare_context_for_llm [item r_auth])))]> ∅),
     set_llm_calls
       (llm_calls empty_world
          ++ [prompt_format (lit "AuthService") (lit "CORR-TEST001")
                (_prepare_context_for_llm [item r_auth])]) empty_world).
Proof.
  apply (X8_verdict_of_raw_reply
           (constant_llm (nl ++ lit "  status:   success" ++ nl))
           (lit "CORR-TEST001") {[ lit "AuthService" := [item r_auth] ]} ∅
           (lit "AuthService") (item r_auth) [] empty_world).
  vm_compute. reflexivity.
Defined.

Lemma occurs_at_within (P : char -> Prop) s i tok t :
  Forall P s -> occurs_at s i tok t -> Forall P t.
Proof.
  intros Hs (a & ws & rest & _ & Hd & _).
  assert (Hdrop : Forall P (drop i s)) by (apply Forall_drop, Hs).
  rewrite Hd in Hdrop.
  apply Forall_app in Hdrop as [_ Hdrop].
  apply Forall_app in Hdrop as [_ Hdrop].
  apply Forall_app in Hdrop as [Ht _]. exact Ht.
Qed.

(** X9. A reply made of ASCII characters always gets one of the three
    verdicts [SUCCESS], [FAILURE] and [UNKNOWN]. *)
Theorem X9_ascii_reply_verdict reply :
  Forall (fun c => c < 128) reply ->
  In (parse_status reply) [SUCCESS; FAILURE; UNKNOWN].
Proof.
  intros Hascii.
  pose proof (parse_status_verdict reply) as Hv.
  pose proof (re_search_first_match reply) as Hfirst.
  destruct (re_search status_re reply true) as [m|].
  - destruct Hfirst as [(tok & _ & Hocc) _].
    pose proof (occurs_at_within _ _ _ _ _ Hascii Hocc) as Hg.
    destruct Hv as [[_ ->]|[_ [->|[_ H304]]]]; cbn [In]; auto.
    exfalso. rewrite Forall_forall in Hg.
    specialize (Hg 304 (list_elem_of_lookup_2 _ _ _ H304)). lia.
  - rewrite Hv. cbn [In]. auto.
Qed.

Lemma X9_ascii_reply_verdict_witness :
  In (parse_status (lit "Status: Failure - reason: timeout"))
     [SUCCESS; FAILURE; UNKNOWN].
Proof.
  apply (X9_ascii_reply_verdict (lit "Status: Failure - reason: timeout")).
  apply Forall_forall. intros c Hc.
  assert (H : forallb (fun c0 => c0 <? 128)
                      (lit "Status: Failure - reason: timeout") = true)
    by (vm_compute; reflexivity).
  rewrite forallb_forall in H. apply N.ltb_lt, H, list_elem_of_In, Hc.
Defined.

(* ===================================================================== *)
(** ** More on classification and the report *)
(* ===================================================================== *)

Section PipelineFacts.

Variable llm : list pystr -> pystr -> pystr.

(** The bundle of a retrieval with [top_k = 5], key by key. *)
Lemma bundle_of_five cid w :
  exists bundle,
    retrieve_logs_by_correlation_id cid 5 w = (Val bundle, w) /\
    (forall app,
       default [] (bundle !! app) = take 5 (matching (collection w) cid app)) /\
    (forall app, has_logs bundle app = logged (collection w) cid app) /\
    (forall app, prompt_of cid bundle app = prompt_for (collection w) cid app).
Proof.
  destruct (retrieve_run cid 5 w) as (bundle & Hrun & Hget).
  exists bundle. split; [exact Hrun|].
  assert (Hdef : forall app,
    default [] (bundle !! app) = take 5 (matching (collection w) cid app)).
  { intros app. rewrite Hget.
    destruct (matching (collection w) cid app); reflexivity. }
  split; [exact Hdef|]. split.
  - intros app. unfold has_logs, logged. rewrite Hdef.
    destruct (matching (collection w) cid app); reflexivity.
  - intros app. unfold prompt_of, prompt_for. rewrite Hdef. reflexivity.
Qed.

Lemma filter_ext_bool {A} (f g : A -> bool) (l : list A) :
  (forall x, f x = g x) -> List.filter f l = List.filter g l.
Proof.
  intros H. induction l as [|x l IH]; [reflexivity|].
  cbn. rewrite H, IH. reflexivity.
Qed.

(** The classification, value by value. *)
Lemma analyze_loop_exact cid bundle (c : list StoredEntry) :
  (forall app, has_logs bundle app = logged c cid app) ->
  (forall app, prompt_of cid bundle app = prompt_for c cid app) ->
  forall apps acc w,
    NoDup apps ->
    exists results,
      for_each apps acc (analyze_app llm cid bundle) w
      = (Val results,
         set_llm_calls (llm_calls w ++ prompts_for c cid apps) w) /\
      (forall app, app ∉ apps -> results !! app = acc !! app) /\
      (forall k app,
         apps !! k = Some app ->
         results !! app
         = Some (verdict_for llm c cid (llm_calls w) (take k apps) app)).
Proof.
  intros Hlogs Hprompt.
  induction apps as [|a apps IH]; intros acc w Hnd.
  - exists acc. unfold prompts_for. cbn. rewrite app_nil_r, set_llm_calls_same.
    split; [reflexivity|]. split; [auto|]. intros k app Hk. discriminate.
  - apply NoDup_cons in Hnd as [Ha Hnd]. cbn [for_each].
    destruct (logged c cid a) eqn:Hl.
    + rewrite (bind_val _ _ _ _ _
                 (analyze_app_logs llm cid bundle acc a w
                    (eq_trans (Hlogs a) Hl))).
      match goal with |- context [for_each apps ?acc' _ ?w'] =>
        destruct (IH acc' w' Hnd) as (results & Hrun & Hout & Hval)
      end.
      exists results. split; [|split].
      * rewrite Hrun. cbn [llm_calls set_llm_calls]. unfold prompts_for.
        cbn [List.filter]. rewrite Hl. cbn [map].
        rewrite Hprompt, <- app_assoc. reflexivity.
      * intros app Happ. apply not_elem_of_cons in Happ as [Hne Happ].
        rewrite (Hout app Happ). apply lookup_insert_ne. congruence.
      * intros [|k] app Hk.
        -- injection Hk as <-. rewrite (Hout a Ha), lookup_insert_eq.
           unfold verdict_for, prompts_for. cbn [take List.filter map].
           rewrite Hl, app_nil_r, Hprompt, parse_status_strip. reflexivity.
        -- cbn [lookup list_lookup] in Hk. rewrite (Hval k app Hk).
           unfold verdict_for, prompts_for.
           cbn [take List.filter llm_calls set_llm_calls]. rewrite Hl.
           cbn [map]. rewrite Hprompt, <- app_assoc. reflexivity.
    + rewrite (bind_val _ _ _ _ _
                 (analyze_app_no_logs llm cid bundle acc a w
                    (eq_trans (Hlogs a) Hl))).
      destruct (IH (<[a := NO_LOGS]> acc) w Hnd)
        as (results & Hrun & Hout & Hval).
      exists results. split; [|split].
      * rewrite Hrun. unfold prompts_for. cbn [List.filter]. rewrite Hl.
        reflexivity.
      * intros app Happ. apply not_elem_of_cons in Happ as [Hne Happ].
        rewrite (Hout app Happ). apply lookup_insert_ne. congruence.
      * intros [|k] app Hk.
        -- injection Hk as <-. rewrite (Hout a Ha), lookup_insert_eq.
           unfold verdict_for. rewrite Hl. reflexivity.
        -- cbn [lookup list_lookup] in Hk. rewrite (Hval k app Hk).
           unfold verdict_for, prompts_for. cbn [take List.filter].
           rewrite Hl. reflexivity.
Qed.

(** The whole of [process_correlation_id]. *)
Lemma process_exact cid w :
  exists results n,
    process_correlation_id llm cid w
    = (Val results,
       set_llm_calls
         (llm_calls w ++ prompts_for (collection w) cid applications)
         (set_stdout (stdout w ++ [PProcessing cid; PRetrieved n]) w)) /\
    dom results = list_to_set applications /\
    (forall k app,
       applications !! k = Some app ->
       results !! app
       = Some (verdict_for llm (collection w) cid (llm_calls w)
                 (take k applications) app)) /\
    ((forall e, e ∈ collection w ->
                correlation_id (entry_metadata e) <> cid) -> n = 0%nat).
Proof.
  unfold process_correlation_id.
  rewrite (bind_val _ _ _ _ _ (print_run _ _)).
  destruct (bundle_of_five cid (set_stdout (stdout w ++ [PProcessing cid]) w))
    as (bundle & Hret & _ & Hl & Hp).
  cbn [collection set_stdout] in Hl, Hp.
  rewrite (bind_val _ _ _ _ _ Hret).
  rewrite (bind_val _ _ _ _ _ (print_run _ _)).
  unfold analyze_logs_with_llm.
  match goal with |- context [bind (for_each _ _ _) _ ?w0] =>
    destruct (analyze_loop_exact cid bundle (collection w) Hl Hp
                applications ∅ w0 applications_NoDup)
      as (results & Hrun & _ & Hval);
    destruct (analyze_run llm cid bundle w0) as (results' & Hrun' & Hdom & _)
  end.
  unfold analyze_logs_with_llm in Hrun'.
  assert (Hsame : results' = results) by congruence. subst results'.
  rewrite (bind_val _ _ _ _ _ Hrun).
  exists results, (size bundle). split; [|split; [exact Hdom|split]].
  - unfold ret. cbn [llm_calls stdout set_stdout set_llm_calls collection
                     files csv_files].
    rewrite <- app_assoc. reflexivity.
  - exact Hval.
  - intros Hnone.
    pose proof (matching_none (collection w) cid Hnone) as Hempty.
    assert (Hb : bundle = ∅).
    { apply map_eq. intros app. rewrite lookup_empty.
      destruct (retrieve_run cid 5
                  (set_stdout (stdout w ++ [PProcessing cid]) w))
        as (b & Hb & Hget).
      rewrite Hret in Hb. injection Hb as <-.
      rewrite Hget. cbn [collection set_stdout]. rewrite (Hempty app).
      reflexivity. }
    rewrite Hb. apply map_size_empty.
Qed.

End PipelineFacts.

(** X10. When processing a correlation id returns, the collection and
    the files are as they were, and two lines have been printed. It has
    sent one prompt for each known application that has a stored entry
    with the id, in the order of the list, each with a context of at most
    the first five entries; entries of applications outside the list
    cause no prompt. The result has the known applications as keys:
    [NO_LOGS] for an application without entries, and otherwise the
    verdict parsed from the model's reply to that application's prompt. *)
Theorem X10_process_correlation_id llm cid w results w' :
  process_correlation_id llm cid w = (Val results, w') ->
  (exists n,
     w' = set_llm_calls
            (llm_calls w ++ prompts_for (collection w) cid applications)
            (set_stdout (stdout w ++ [PProcessing cid; PRetrieved n]) w)) /\
  collection w' = collection w /\ files w' = files w /\
  dom results = list_to_set applications /\
  forall k app,
    applications !! k = Some app ->
    results !! app
    = Some (verdict_for llm (collection w) cid (llm_calls w)
              (take k applications) app).
Proof.
  intros Hret.
  destruct (process_exact llm cid w) as (r & n & Hrun & Hdom & Hval & _).
  rewrite Hrun in Hret. injection Hret as <- <-.
  split; [exists n; reflexivity|]. auto.
Qed.

Lemma X10_process_correlation_id_witness :
  exists results w',
    process_correlation_id (constant_llm (lit "STATUS: FAILURE - REASON: x"))
      (lit "CORR-TEST001")
      (with_collection [stored "AuthService" 0 r_auth;
                        stored "EmailService" 0 r_mail])
    = (Val results, w') /\
    (exists n,
       w' = set_llm_calls
              (llm_calls (with_collection [stored "AuthService" 0 r_auth;
                                           stored "EmailService" 0 r_mail])
                 ++ prompts_for
                      (collection
                         (with_collection [stored "AuthService" 0 r_auth;
                                           stored "EmailService" 0 r_mail]))
                      (lit "CORR-TEST001") applications)
              (set_stdout
                 (stdout (with_collection [stored "AuthService" 0 r_auth;
                                           stored "EmailService" 0 r_mail])
                    ++ [PProcessing (lit "CORR-TEST001"); PRetrieved n])
                 (with_collection [stored "AuthService" 0 r_auth;
                                   stored "EmailService" 0 r_mail]))) /\
    collection w'
      = collection (with_collection [stored "AuthService" 0 r_auth;
                                     stored "EmailService" 0 r_mail]) /\
    files w' = files (with_collection [stored "AuthService" 0 r_auth;
                                       stored "EmailService" 0 r_mail]) /\
    dom results = list_to_set applications /\
    forall k app,
      applications !! k = Some app ->
      results !! app
      = Some (verdict_for (constant_llm (lit "STATUS: FAILURE - REASON: x"))
                (collection (with_collection [stored "AuthService" 0 r_auth;
                                              stored "EmailService" 0 r_mail]))
                (lit "CORR-TEST001")
                (llm_calls (with_collection [stored "AuthService" 0 r_auth;
                                             stored "EmailService" 0 r_mail]))
                (take k applications) app).
Proof.
  destruct (process_correlation_id
              (constant_llm (lit "STATUS: FAILURE - REASON: x"))
              (lit "CORR-TEST001")
              (with_collection [stored "AuthService" 0 r_auth;
                                stored "EmailService" 0 r_mail]))
    as [[results|e] w'] eqn:Hrun; [|vm_compute in Hrun; discriminate Hrun].
  exists results, w'. split; [reflexivity|].
  apply (X10_process_correlation_id
           (constant_llm (lit "STATUS: FAILURE - REASON: x"))
           (lit "CORR-TEST001")
           (with_collection [stored "AuthService" 0 r_auth;
                             stored "EmailService" 0 r_mail])
           results w' Hrun).
Defined.

Lemma prompts_for_none c cid apps :
  (forall e, e ∈ c -> correlation_id (entry_metadata e) <> cid) ->
  prompts_for c cid apps = [].
Proof.
  intros Hnone. unfold prompts_for.
  induction apps as [|a apps IH]; [reflexivity|].
  cbn [List.filter]. unfold logged at 1.
  rewrite (matching_none c cid Hnone a). exact IH.
Qed.

(** X11. A correlation id that no stored entry has: every known
    application gets [NO_LOGS], no prompt is sent, and the method reports
    that it retrieved logs from 0 applications. *)
Theorem X11_unknown_correlation_id llm cid w :
  (forall e, e ∈ collection w -> correlation_id (entry_metadata e) <> cid) ->
  exists results,
    process_correlation_id llm cid w
    = (Val results,
       set_stdout (stdout w ++ [PProcessing cid; PRetrieved 0]) w) /\
    forall app, app ∈ applications -> results !! app = Some NO_LOGS.
Proof.
  intros Hnone.
  destruct (process_exact llm cid w) as (results & n & Hrun & _ & Hval & Hn).
  rewrite (Hn Hnone) in Hrun.
  rewrite (prompts_for_none _ _ _ Hnone), app_nil_r in Hrun.
  exists results. split.
  - rewrite Hrun. f_equal.
  - intros app Happ. apply list_elem_of_lookup in Happ as [k Hk].
    rewrite (Hval k app Hk). unfold verdict_for, logged.
    rewrite (matching_none _ _ Hnone app). reflexivity.
Qed.

Lemma X11_unknown_correlation_id_witness :
  exists results,
    process_correlation_id (constant_llm (lit "STATUS: SUCCESS - REASON: ok"))
      (lit "CORR-NOBODY")
      (with_collection [stored "AuthService" 0 r_auth])
    = (Val results,
       set_stdout
         (stdout (with_collection [stored "AuthService" 0 r_auth])
            ++ [PProcessing (lit "CORR-NOBODY"); PRetrieved 0])
         (with_collection [stored "AuthService" 0 r_auth])) /\
    forall app, app ∈ applications -> results !! app = Some NO_LOGS.
Proof.
  apply (X11_unknown_correlation_id
           (constant_llm (lit "STATUS: SUCCESS - REASON: ok"))
           (lit "CORR-NOBODY")
           (with_collection [stored "AuthService" 0 r_auth])).
  intros e He. apply list_elem_of_singleton in He as ->.
  vm_compute. discriminate.
Defined.

(** The rows of the data frame are the rows of the ids. *)
Lemma report_frame_rows ids : forall all,
  length all = length ids ->
  rows (DataFrame_of (zip_with make_row ids all))
  = zip_with verdict_row ids all.
Proof.
  intros all Hlen.
  assert (Hkeys : Forall (fun d => map fst d = header)
                         (zip_with make_row ids all)).
  { clear. revert all. induction ids as [|c ids IH]; intros [|r all]; cbn;
      constructor; [apply make_row_keys|apply IH]. }
  unfold DataFrame_of. cbn [rows].
  rewrite (columns_of_rows header _ header_NoDup Hkeys).
  destruct ids as [|c ids]; [reflexivity|].
  destruct all as [|r all]; [discriminate Hlen|].
  change (match zip_with make_row (c :: ids) (r :: all) with
          | [] => [] | _ :: _ => header end) with header.
  clear. generalize (c :: ids) (r :: all).
  induction l as [|c' ids' IH]; intros [|r' all']; cbn [zip_with map];
    try reflexivity.
  rewrite row_values. f_equal. apply IH.
Qed.

Section ReportFacts.

Variable llm : list pystr -> pystr -> pystr.

Lemma length_prompts_for c cid apps :
  (length (prompts_for c cid apps) <= length apps)%nat.
Proof.
  unfold prompts_for. rewrite length_map.
  induction apps as [|a apps IH]; [cbn; lia|].
  cbn [List.filter length]. destruct (logged c cid a); cbn [length]; lia.
Qed.

(** The loop over the ids: what it keeps and what it adds. *)
Lemma report_loop_frame ids : forall acc w,
  exists all w1 extra,
    for_each ids acc (add_report_row llm) w
    = (Val (acc ++ zip_with make_row ids all), w1) /\
    length all = length ids /\
    collection w1 = collection w /\ files w1 = files w /\
    csv_files w1 = csv_files w /\
    llm_calls w1 = llm_calls w ++ extra /\
    (length extra <= 8 * length ids)%nat /\
    Forall2 (fun cid results =>
               exists calls,
                 forall k app,
                   applications !! k = Some app ->
                   results !! app
                   = Some (verdict_for llm (collection w) cid calls
                             (take k applications) app))
            ids all.
Proof.
  induction ids as [|cid ids IH]; intros acc w.
  - exists [], w, []. cbn. rewrite !app_nil_r.
    split; [reflexivity|]. split; [reflexivity|]. split; [reflexivity|].
    split; [reflexivity|]. split; [reflexivity|]. split; [reflexivity|].
    split; [cbn; lia|constructor].
  - cbn [for_each].
    destruct (process_exact llm cid w) as (results & n & Hrun & _ & Hval & _).
    assert (Hrow : add_report_row llm acc cid w
                   = (Val (acc ++ [make_row cid results]),
                      set_llm_calls
                        (llm_calls w
                           ++ prompts_for (collection w) cid applications)
                        (set_stdout
                           (stdout w ++ [PProcessing cid; PRetrieved n]) w)))
      by (unfold add_report_row; rewrite (bind_val _ _ _ _ _ Hrun);
          reflexivity).
    rewrite (bind_val _ _ _ _ _ Hrow).
    match goal with |- context [for_each ids ?acc' _ ?w'] =>
      destruct (IH acc' w')
        as (all & w1 & extra & Hloop & Hlen & Hc & Hf & Hcsv & Hcalls
            & Hbound & Hall)
    end.
    cbn [collection files csv_files llm_calls set_llm_calls set_stdout]
      in Hc, Hf, Hcsv, Hcalls, Hall.
    exists (results :: all), w1,
           (prompts_for (collection w) cid applications ++ extra).
    split; [|split; [|split; [|split; [|split; [|split; [|split]]]]]].
    + rewrite Hloop, <- app_assoc. reflexivity.
    + cbn. rewrite Hlen. reflexivity.
    + exact Hc.
    + exact Hf.
    + exact Hcsv.
    + rewrite Hcalls, <- app_assoc. reflexivity.
    + rewrite length_app.
      pose proof (length_prompts_for (collection w) cid applications) as Hp.
      change (length applications) with 8%nat in Hp. cbn [length]. lia.
    + constructor; [exists (llm_calls w); exact Hval|exact Hall].
Qed.

End ReportFacts.




Lemma verdict_for_constant reply c cid calls before app :
  verdict_for (constant_llm reply) c cid calls before app
  = if logged c cid app then parse_status reply else NO_LOGS.
Proof. reflexivity. Qed.

(** X13. With a model that gives the same reply to every prompt, the
    report is known cell by cell: the row of an id holds the id and then,
    for each known application in the order of the list, the verdict of
    that reply where the application has a stored entry with the id, and
    [NO_LOGS] where it has none. *)
Theorem X13_report_of_constant_model reply correlation_ids output_file w :
  exists df w',
    generate_csv_report (constant_llm reply) correlation_ids output_file w
    = (Val df, w') /\
    rows df = map (mock_row reply (collection w)) correlation_ids.
Proof.
  unfold generate_csv_report.
  rewrite (bind_val _ _ _ _ _ (print_run _ _)).
  destruct (report_loop_frame (constant_llm reply) correlation_ids []
              (set_stdout
                 (stdout w ++ [PGenerating (length correlation_ids)]) w))
    as (all & w1 & extra & Hloop & Hlen & _ & _ & _ & _ & _ & Hall).
  cbn [collection set_stdout] in Hall.
  rewrite (bind_val _ _ _ _ _ Hloop).
  unfold to_csv. unfold bind, modify, print, ret.
  cbn [fst snd Datatypes.app].
  eexists _, _. split; [reflexivity|].
  rewrite (report_frame_rows correlation_ids all Hlen).
  clear Hloop Hlen. induction Hall as [|cid results ids all Hres _ IH];
    [reflexivity|].
  cbn [zip_with map]. rewrite IH. f_equal.
  unfold verdict_row, mock_row. f_equal.
  destruct Hres as [calls Hres].
  apply map_ext_in. intros app Happ.
  apply list_elem_of_In, list_elem_of_lookup in Happ as [k Hk].
  rewrite (Hres k app Hk), verdict_for_constant. reflexivity.
Qed.

Import Generator Workflows.

(* ===================================================================== *)
(** ** Text files *)
(* ===================================================================== *)

Lemma universal_newlines_plain s : 13 ∉ s -> universal_newlines s = s.
Proof.
  induction s as [|c s IH]; intros H; [reflexivity|].
  apply not_elem_of_cons in H as [Hc Hs].
  cbn [universal_newlines].
  destruct (N.eqb_spec c 13) as [->|_]; [congruence|].
  rewrite (IH Hs). reflexivity.
Qed.

Lemma lines_from_line l : forall cur rest,
  10 ∉ l ->
  lines_from cur (l ++ nl ++ rest)
  = (rev cur ++ l ++ nl) :: lines_from [] rest.
Proof.
  induction l as [|c l IH]; intros cur rest H.
  - cbn. reflexivity.
  - apply not_elem_of_cons in H as [Hc Hl].
    cbn [Datatypes.app lines_from].
    destruct (N.eqb_spec c 10) as [->|_]; [congruence|].
    rewrite (IH (c :: cur) rest Hl). cbn [rev].
    rewrite <- app_assoc. reflexivity.
Qed.

Lemma lines_from_written lines :
  Forall (fun l => 10 ∉ l) lines ->
  lines_from [] (Generator.written_lines lines)
  = map (fun l => l ++ nl) lines.
Proof.
  unfold Generator.written_lines.
  induction 1 as [|l lines Hl _ IH]; [reflexivity|].
  cbn [map concat]. rewrite <- app_assoc.
  rewrite (lines_from_line l [] _ Hl), IH. reflexivity.
Qed.

Lemma written_lines_plain lines :
  Forall (fun l => 13 ∉ l) lines -> 13 ∉ Generator.written_lines lines.
Proof.
  unfold Generator.written_lines.
  induction 1 as [|l lines Hl _ IH]; cbn [map concat].
  - apply not_elem_of_nil.
  - rewrite !not_elem_of_app. split; [split; [exact Hl|]|exact IH].
    unfold nl. apply not_elem_of_cons. split; [discriminate|].
    apply not_elem_of_nil.
Qed.

Lemma readlines_written lines :
  Forall no_line_break lines ->
  readlines (Generator.written_lines lines) = map (fun l => l ++ nl) lines.
Proof.
  intros H. unfold readlines.
  rewrite universal_newlines_plain.
  - apply lines_from_written. eapply Forall_impl; [exact H|].
    intros l [Hl _]. exact Hl.
  - apply written_lines_plain. eapply Forall_impl; [exact H|].
    intros l [_ Hl]. exact Hl.
Qed.

Lemma rstrip_line_end s : rstrip (s ++ nl) = rstrip s.
Proof.
  unfold rstrip, nl. rewrite rev_app_distr. reflexivity.
Qed.

Lemma strip_line s : strip (s ++ nl) = strip s.
Proof.
  unfold strip.
  assert (Hnl : Forall (fun c => isspace c = true) nl)
    by (repeat constructor).
  destruct (lstrip_app_spaces s nl Hnl) as [-> | [H1 ->]].
  - apply rstrip_line_end.
  - rewrite H1. reflexivity.
Qed.

(** X14. A text file written line by line is read back line by line:
    when no item holds a line break, [readlines] over what a loop of
    [f.write(item + '\n')] wrote gives the items in order, each with its
    [\n]. *)
Theorem X14_written_lines_read_back lines :
  Forall no_line_break lines ->
  readlines (Generator.written_lines lines) = map (fun l => l ++ nl) lines.
Proof. exact (readlines_written lines). Qed.

Lemma X14_written_lines_read_back_witness :
  Forall no_line_break [lit "CORR-1"; lit "CORR-2"] /\
  readlines (Generator.written_lines [lit "CORR-1"; lit "CORR-2"])
  = map (fun l => l ++ nl) [lit "CORR-1"; lit "CORR-2"].
Proof.
  assert (H : Forall no_line_break [lit "CORR-1"; lit "CORR-2"]).
  { repeat constructor;
      apply (bool_decide_unpack _); vm_compute; exact I. }
  split; [exact H|].
  apply (X14_written_lines_read_back [lit "CORR-1"; lit "CORR-2"] H).
Defined.

Lemma read_written_ids ids :
  Forall no_line_break ids ->
  read_correlation_ids (Generator.correlation_ids_file ids) = map strip ids.
Proof.
  intros H. unfold read_correlation_ids, Generator.correlation_ids_file.
  rewrite (readlines_written ids H), map_map.
  apply map_ext. intros id. apply strip_line.
Qed.

(** X15. The ids file, from the generator to [main]: the ids that
    [create_sample_files] writes, one per line, are the ids that [main]
    reads, each stripped of the white space around it, when no id holds a
    line break. *)
Theorem X15_ids_file_round_trip ids :
  Forall no_line_break ids ->
  read_correlation_ids (Generator.correlation_ids_file ids) = map strip ids.
Proof. exact (read_written_ids ids). Qed.

Lemma X15_ids_file_round_trip_witness :
  Forall no_line_break [lit " CORR-1"; lit "CORR-2 "] /\
  read_correlation_ids
    (Generator.correlation_ids_file [lit " CORR-1"; lit "CORR-2 "])
  = map strip [lit " CORR-1"; lit "CORR-2 "].
Proof.
  assert (H : Forall no_line_break [lit " CORR-1"; lit "CORR-2 "]).
  { repeat constructor;
      apply (bool_decide_unpack _); vm_compute; exact I. }
  split; [exact H|].
  apply (X15_ids_file_round_trip [lit " CORR-1"; lit "CORR-2 "] H).
Defined.

(* ===================================================================== *)
(** ** Correlation ids *)
(* ===================================================================== *)

Lemma upper_hex_digit c :
  Generator.is_hex_digit c = true ->
  Generator.is_upper_hex (upper_char c) = true.
Proof.
  unfold Generator.is_hex_digit, Generator.is_upper_hex, upper_char, is_lower.
  intros H.
  apply orb_true_iff in H as [H|H];
    apply andb_true_iff in H as [H1 H2];
    apply N.leb_le in H1; apply N.leb_le in H2.
  - replace (97 <=? c) with false by (symmetry; apply N.leb_gt; lia).
    cbn [andb].
    replace (c =? 305) with false by (symmetry; apply N.eqb_neq; lia).
    replace (c =? 383) with false by (symmetry; apply N.eqb_neq; lia).
    apply orb_true_iff. left. apply andb_true_iff.
    split; apply N.leb_le; lia.
  - replace (97 <=? c) with true by (symmetry; apply N.leb_le; lia).
    replace (c <=? 122) with true by (symmetry; apply N.leb_le; lia).
    cbn [andb].
    apply orb_true_iff. right. apply andb_true_iff.
    split; apply N.leb_le; lia.
Qed.

Lemma upper_hex_not_space c :
  Generator.is_upper_hex c = true -> isspace c = false.
Proof.
  intros H. destruct (isspace c) eqn:Hs; [|reflexivity].
  apply isspace_In in Hs.
  assert (Hall : forallb (fun c => negb (Generator.is_upper_hex c)) whitespace
                 = true)
    by (vm_compute; reflexivity).
  rewrite forallb_forall in Hall. specialize (Hall c Hs).
  rewrite H in Hall. discriminate.
Qed.

Lemma correlation_id_digits h :
  Generator.is_uuid_hex h = true ->
  length (upper (take 12 h)) = 12%nat /\
  Forall (fun c => Generator.is_upper_hex c = true) (upper (take 12 h)).
Proof.
  unfold Generator.is_uuid_hex. intros H.
  apply andb_true_iff in H as [Hlen Hall].
  apply Nat.eqb_eq in Hlen. rewrite forallb_forall in Hall.
  unfold upper. split.
  - rewrite length_map, length_take. lia.
  - apply Forall_forall. intros c Hc.
    apply list_elem_of_fmap in Hc as (d & -> & Hd).
    apply upper_hex_digit, Hall, list_elem_of_In.
    eapply subseteq_take, Hd.
Qed.

(** X16. A correlation id of the generator is [CORR-] followed by twelve
    upper-case hexadecimal digits: seventeen characters, whatever the
    uuid. *)
Theorem X16_correlation_id_shape h :
  Generator.is_uuid_hex h = true ->
  exists digits,
    Generator.generate_correlation_id h = lit "CORR-" ++ digits /\
    length digits = 12%nat /\
    Forall (fun c => Generator.is_upper_hex c = true) digits /\
    length (Generator.generate_correlation_id h) = 17%nat.
Proof.
  intros H. destruct (correlation_id_digits h H) as [Hlen Hall].
  exists (upper (take 12 h)). split; [reflexivity|].
  split; [exact Hlen|]. split; [exact Hall|].
  unfold Generator.generate_correlation_id.
  rewrite length_app, Hlen. reflexivity.
Qed.

Lemma X16_correlation_id_shape_witness :
  exists digits,
    Generator.generate_correlation_id (lit "0123456789abcdef0123456789abcdef")
    = lit "CORR-" ++ digits /\
    length digits = 12%nat /\
    Forall (fun c => Generator.is_upper_hex c = true) digits /\
    length
      (Generator.generate_correlation_id
         (lit "0123456789abcdef0123456789abcdef")) = 17%nat.
Proof.
  apply (X16_correlation_id_shape (lit "0123456789abcdef0123456789abcdef")).
  vm_compute. reflexivity.
Defined.

Lemma correlation_id_chars h c :
  Generator.is_uuid_hex h = true ->
  c ∈ Generator.generate_correlation_id h ->
  isspace c = false.
Proof.
  intros H Hc. destruct (correlation_id_digits h H) as [_ Hall].
  unfold Generator.generate_correlation_id in Hc.
  apply elem_of_app in Hc as [Hc|Hc].
  - apply list_elem_of_In in Hc. cbn in Hc.
    repeat (destruct Hc as [<-|Hc]; [reflexivity|]). contradiction.
  - rewrite Forall_forall in Hall. apply upper_hex_not_space, Hall, Hc.
Qed.

Lemma strip_no_space s :
  (forall c, c ∈ s -> isspace c = false) -> strip s = s.
Proof.
  intros H. unfold strip.
  assert (Hl : forall t, (forall c, c ∈ t -> isspace c = false) ->
                         lstrip t = t).
  { intros [|c t] Ht; [reflexivity|].
    apply lstrip_nonspace, Ht, elem_of_cons. left. reflexivity. }
  rewrite (Hl s H). unfold rstrip.
  rewrite Hl, rev_involutive; [reflexivity|].
  intros c Hc. apply H, list_elem_of_In, in_rev, list_elem_of_In, Hc.
Qed.

(** X17. The ids of the generator reach [main]: [create_sample_files]
    writes the ids generated, each once and in the order that
    [list(set(correlation_ids))] gives them, and [main] reads back that
    very list; so [main] gets every id generated, each once, and no other
    text. *)
Theorem X17_generated_ids_reach_main hexes unique :
  Forall (fun h => Generator.is_uuid_hex h = true) hexes ->
  Generator.list_of_set (map Generator.generate_correlation_id hexes) unique ->
  read_correlation_ids (Generator.correlation_ids_file unique) = unique /\
  NoDup (read_correlation_ids (Generator.correlation_ids_file unique)) /\
  forall id,
    id ∈ read_correlation_ids (Generator.correlation_ids_file unique) <->
    exists h, h ∈ hexes /\ id = Generator.generate_correlation_id h.
Proof.
  intros H [Hnd Hsame].
  assert (Hchars : forall id c, id ∈ unique -> c ∈ id -> isspace c = false).
  { intros id c Hid Hc. apply Hsame in Hid.
    apply list_elem_of_fmap in Hid as (h & -> & Hh).
    apply (correlation_id_chars h c); [|exact Hc].
    rewrite Forall_forall in H. apply H, Hh. }
  assert (Hread : read_correlation_ids (Generator.correlation_ids_file unique)
                  = unique).
  { rewrite read_written_ids.
    - rewrite <- (map_id unique) at 2. apply map_ext_in. intros id Hid.
      apply strip_no_space. intros c Hc.
      apply (Hchars id c); [apply list_elem_of_In, Hid|exact Hc].
    - apply Forall_forall. intros id Hid.
      split; intros Hc; apply (Hchars id _ Hid) in Hc; discriminate Hc. }
  rewrite Hread. split; [reflexivity|]. split; [exact Hnd|].
  intros id. rewrite Hsame, list_elem_of_fmap. split.
  - intros (h & -> & Hh). eauto.
  - intros (h & Hh & ->). eauto.
Qed.

Lemma X17_generated_ids_reach_main_witness :
  read_correlation_ids
    (Generator.correlation_ids_file
       [Generator.generate_correlation_id
          (lit "fedcba9876543210fedcba9876543210");
        Generator.generate_correlation_id
          (lit "0123456789abcdef0123456789abcdef")])
  = [Generator.generate_correlation_id
       (lit "fedcba9876543210fedcba9876543210");
     Generator.generate_correlation_id
       (lit "0123456789abcdef0123456789abcdef")] /\
  NoDup (read_correlation_ids
           (Generator.correlation_ids_file
              [Generator.generate_correlation_id
                 (lit "fedcba9876543210fedcba9876543210");
               Generator.generate_correlation_id
                 (lit "0123456789abcdef0123456789abcdef")])) /\
  forall id,
    id ∈ read_correlation_ids
           (Generator.correlation_ids_file
              [Generator.generate_correlation_id
                 (lit "fedcba9876543210fedcba9876543210");
               Generator.generate_correlation_id
                 (lit "0123456789abcdef0123456789abcdef")]) <->
    exists h,
      h ∈ [lit "0123456789abcdef0123456789abcdef";
           lit "fedcba9876543210fedcba9876543210";
           lit "0123456789abcdef0123456789abcdef"] /\
      id = Generator.generate_correlation_id h.
Proof.
  apply (X17_generated_ids_reach_main
           [lit "0123456789abcdef0123456789abcdef";
            lit "fedcba9876543210fedcba9876543210";
            lit "0123456789abcdef0123456789abcdef"]
           [Generator.generate_correlation_id
              (lit "fedcba9876543210fedcba9876543210");
            Generator.generate_correlation_id
              (lit "0123456789abcdef0123456789abcdef")]).
  - repeat constructor.
  - split.
    + apply (bool_decide_unpack _). vm_compute. exact I.
    + intros x. cbn [map]. rewrite !elem_of_cons, !elem_of_nil. tauto.
Defined.

(* ===================================================================== *)
(** ** Saving the generated logs *)
(* ===================================================================== *)








Section SavingFacts.

Variable json_dumps : gen_log -> pystr.




End SavingFacts.







Section HandoverFacts.

Variable json_dumps : gen_log -> pystr.
Variable json_loads : pystr -> res json.
Variable str_field : json -> option pystr.




End HandoverFacts.




(* ===================================================================== *)
(** ** Generated entries and workflows *)
(* ===================================================================== *)

Lemma getitem_setitem key key' v log :
  getitem key (setitem key' v log)
  = if decide (key' = key) then Some v else getitem key log.
Proof.
  induction log as [|[k x] log IH]; cbn [setitem getitem].
  - destruct (decide (key' = key)); reflexivity.
  - destruct (decide (k = key')) as [->|Hk]; cbn [getitem].
    + destruct (decide (key' = key)); reflexivity.
    + destruct (decide (k = key)) as [->|Hk'].
      * rewrite decide_False by congruence. reflexivity.
      * exact IH.
Qed.

(** Counting in the logs of the steps of a loop. *)
Lemma length_filter_concat {A} (P : A -> bool) (ls : list (list A)) :
  length (List.filter P (concat ls))
  = sum_list (map (fun l => length (List.filter P l)) ls).
Proof.
  induction ls as [|l ls IH]; [reflexivity|].
  cbn [concat map sum_list]. rewrite List.filter_app, length_app, IH.
  reflexivity.
Qed.

Lemma length_concat_imap {A B} (F : nat -> A -> list B) (l : list A) :
  length (concat (imap F l)) = sum_list (imap (fun i a => length (F i a)) l).
Proof.
  revert F. induction l as [|a l IH]; intros F; [reflexivity|].
  cbn [imap concat sum_list]. rewrite length_app, IH. reflexivity.
Qed.

Lemma count_concat_imap {A B} (P : B -> bool) (F : nat -> A -> list B)
    (l : list A) :
  length (List.filter P (concat (imap F l)))
  = sum_list (imap (fun i a => length (List.filter P (F i a))) l).
Proof.
  revert F. induction l as [|a l IH]; intros F; [reflexivity|].
  cbn [imap concat sum_list]. rewrite List.filter_app, length_app, IH.
  reflexivity.
Qed.

Lemma sum_imap_bounds {A} (c : nat -> A -> nat) (lo hi : nat) (l : list A) :
  (forall i a, lo <= c i a <= hi)%nat ->
  (lo * length l <= sum_list (imap c l) <= hi * length l)%nat.
Proof.
  revert c. induction l as [|a l IH]; intros c H; [cbn; lia|].
  cbn [imap sum_list length].
  specialize (IH (c ∘ S) (fun i a => H (S i) a)).
  specialize (H 0%nat a). rewrite !Nat.mul_succ_r. unfold id in *. lia.
Qed.

(** The sum over the steps of what only step [e] counts. *)
Lemma sum_imap_at {A} (e : Z) (l : list A) : forall k,
  sum_list (imap (fun i _ => if decide (Z.of_nat (k + i) = e)
                             then 1%nat else 0%nat) l)
  = if decide (Z.of_nat k <= e < Z.of_nat (k + length l))%Z
    then 1%nat else 0%nat.
Proof.
  induction l as [|a l IH]; intros k.
  - cbn. rewrite decide_False by lia. reflexivity.
  - cbn [imap sum_list length].
    rewrite (imap_ext _ (fun i _ => if decide (Z.of_nat (S k + i) = e)
                                    then 1%nat else 0%nat))
      by (intros i x _; cbn; repeat case_decide; lia).
    rewrite (IH (S k)).
    change (id ?x) with x. repeat case_decide; lia.
Qed.

(** The sum over the steps of what only the steps of [t] count, when [t]
    has one step. *)
Lemma sum_imap_one {A} (t : A) (lo hi : nat) (l : list A) :
  forall c : nat -> A -> nat,
    NoDup l -> t ∈ l ->
    (forall i a, a <> t -> c i a = 0%nat) ->
    (forall i, lo <= c i t <= hi)%nat ->
    (lo <= sum_list (imap c l) <= hi)%nat.
Proof.
  induction l as [|a l IH]; intros c Hnd Hin Hzero Hone.
  - apply elem_of_nil in Hin. contradiction.
  - apply NoDup_cons in Hnd as [Ha Hnd]. cbn [imap sum_list].
    apply elem_of_cons in Hin as [<-|Hin].
    + assert (Hrest : sum_list (imap (c ∘ S) l) = 0%nat).
      { clear IH Hone Hnd. revert c Hzero.
        induction l as [|b l IH]; intros c Hzero; [reflexivity|].
        apply not_elem_of_cons in Ha as [Hb Ha].
        cbn [imap sum_list]. rewrite (IH Ha (c ∘ S)).
        - unfold compose at 1. change (id ?x) with x.
          rewrite Hzero by congruence. reflexivity.
        - intros i x Hx. apply Hzero, Hx. }
      rewrite Hrest. specialize (Hone 0%nat). change (id ?x) with x. lia.
    + change (id ?x) with x. rewrite (Hzero 0%nat a) by (intros ->; auto).
      apply (IH (c ∘ S) Hnd Hin).
      * intros i x Hx. apply Hzero, Hx.
      * intros i. apply Hone.
Qed.

Lemma logs_of_all app t logs :
  Forall (fun log => getitem (lit "application") log = Some (GStr app)) logs ->
  logs_of (GStr t) logs = if decide (app = t) then logs else [].
Proof.
  intros H. unfold logs_of.
  induction H as [|log logs Hlog _ IH].
  - destruct (decide (app = t)); reflexivity.
  - cbn [List.filter]. rewrite IH, Hlog.
    destruct (decide (app = t)) as [->|Hne].
    + rewrite bool_decide_eq_true_2 by reflexivity. reflexivity.
    + rewrite bool_decide_eq_false_2 by congruence. reflexivity.
Qed.

Lemma errors_of cid app level log :
  log_of cid app level log ->
  level_is (lit "ERROR") log = bool_decide (level = lit "ERROR").
Proof.
  intros (_ & _ & H). unfold level_is. rewrite H.
  destruct (decide (level = lit "ERROR")) as [->|Hne].
  - rewrite !bool_decide_eq_true_2 by reflexivity. reflexivity.
  - rewrite !bool_decide_eq_false_2 by congruence. reflexivity.
Qed.

Section EntryFacts.

Variable lower : pystr -> pystr.

(** The fields of an entry that the call gives. *)
Lemma entry_fields cid app ts level d :
  log_of cid app level (generate_log_entry lower cid app ts level d).
Proof.
  unfold log_of, generate_log_entry.
  destruct (decide (level = lit "ERROR"));
    [|destruct (decide (level = lit "WARN"));
      [|destruct (decide (level = lit "DEBUG"))]];
    (split; [reflexivity|split; reflexivity]).
Qed.

Lemma setitem_log_of cid app level key v log :
  key = lit "message" \/ key = lit "details" ->
  log_of cid app level log -> log_of cid app level (setitem key v log).
Proof.
  intros Hkey (H1 & H2 & H3). unfold log_of.
  rewrite !getitem_setitem.
  destruct Hkey as [-> | ->];
    rewrite !decide_False
      by (apply (bool_decide_unpack _); vm_compute; exact I);
    auto.
Qed.

Lemma context_logs_of cid i app d :
  Forall (log_of cid app (lit "DEBUG")) (context_logs lower cid i app d) /\
  (length (context_logs lower cid i app d) <= 1)%nat.
Proof.
  unfold context_logs. destruct (context_draw d) as [[ts e]|].
  - split; [|cbn; lia]. constructor; [|constructor].
    apply setitem_log_of; [auto|]. apply entry_fields.
  - split; [constructor|cbn; lia].
Qed.

Lemma step_level_error e i d :
  bool_decide (step_level e i d = lit "ERROR")
  = bool_decide (Z.of_nat i = e).
Proof.
  unfold step_level. destruct (decide (Z.of_nat i = e)) as [H|H].
  - rewrite !bool_decide_eq_true_2; auto.
  - rewrite (bool_decide_eq_false_2 _ H).
    destruct (warn_draw d); reflexivity.
Qed.

(** The logs of a step: the main log, and after it up to two logs that
    are no errors. *)
Lemma targeted_step_logs cid e i app d :
  exists main rest,
    targeted_step lower cid e i app d = main :: rest /\
    log_of cid app (step_level e i d) main /\
    Forall (fun log => exists level,
              level <> lit "ERROR" /\ log_of cid app level log) rest /\
    (length rest <= 2)%nat.
Proof.
  unfold targeted_step. eexists _, _. split; [reflexivity|].
  split; [apply entry_fields|].
  destruct (context_logs_of cid i app d) as [Hc Hlen].
  split.
  - apply Forall_app. split.
    + eapply Forall_impl; [exact Hc|]. intros log Hlog.
      exists (lit "DEBUG"). split; [discriminate|exact Hlog].
    + destruct (perf_draw d) as [[[[ts ed] rt] mem]|]; [|constructor].
      constructor; [|constructor].
      exists (lit "INFO"). split; [discriminate|].
      apply setitem_log_of; [auto|]. apply setitem_log_of; [auto|].
      apply entry_fields.
  - rewrite length_app.
    destruct (perf_draw d) as [[[[ts ed] rt] mem]|]; cbn [length]; lia.
Qed.

Lemma workflow_step_logs cid e i app d :
  exists main rest,
    workflow_step lower cid e i app d = main :: rest /\
    log_of cid app (step_level e i d) main /\
    Forall (fun log => exists level,
              level <> lit "ERROR" /\ log_of cid app level log) rest /\
    (length rest <= 1)%nat.
Proof.
  unfold workflow_step. eexists _, _. split; [reflexivity|].
  split; [apply entry_fields|].
  destruct (context_logs_of cid i app d) as [Hc Hlen].
  split; [|exact Hlen].
  eapply Forall_impl; [exact Hc|]. intros log Hlog.
  exists (lit "DEBUG"). split; [discriminate|exact Hlog].
Qed.

(** What follows for any step with such logs. *)
Lemma step_facts cid e i app d (logs : list gen_log) (n : nat) :
  (exists main rest,
     logs = main :: rest /\
     log_of cid app (step_level e i d) main /\
     Forall (fun log => exists level,
               level <> lit "ERROR" /\ log_of cid app level log) rest /\
     (length rest <= n)%nat) ->
  Forall (fun log => exists level, log_of cid app level log) logs /\
  (1 <= length logs <= S n)%nat /\
  length (errors logs)
  = (if decide (Z.of_nat i = e) then 1%nat else 0%nat).
Proof.
  intros (main & rest & -> & Hmain & Hrest & Hlen).
  split; [|split].
  - constructor; [eauto|]. eapply Forall_impl; [exact Hrest|].
    intros log (level & _ & H). eauto.
  - cbn [length]. lia.
  - unfold errors. cbn [List.filter].
    rewrite (errors_of _ _ _ _ Hmain), step_level_error.
    assert (Hnone : List.filter (level_is (lit "ERROR")) rest = []).
    { clear Hlen. induction Hrest as [|log rest (level & Hne & Hlog) _ IH];
        [reflexivity|].
      cbn [List.filter]. rewrite (errors_of _ _ _ _ Hlog).
      rewrite bool_decide_eq_false_2 by exact Hne. exact IH. }
    rewrite Hnone.
    destruct (decide (Z.of_nat i = e)) as [H|H].
    + rewrite bool_decide_eq_true_2 by exact H. reflexivity.
    + rewrite bool_decide_eq_false_2 by exact H. reflexivity.
Qed.

End EntryFacts.

Section WorkflowFacts.

Variable lower : pystr -> pystr.

(** A loop over the applications of a workflow whose steps log as
    above. *)
Lemma loop_facts (F : nat -> pystr -> list gen_log) cid e
    (ds : nat -> StepDraws) (n : nat) (apps : list pystr) :
  (forall i app,
     exists main rest,
       F i app = main :: rest /\
       log_of cid app (step_level e i (ds i)) main /\
       Forall (fun log => exists level,
                 level <> lit "ERROR" /\ log_of cid app level log) rest /\
       (length rest <= n)%nat) ->
  Forall (fun log => exists app level,
            app ∈ apps /\ log_of cid app level log)
         (concat (imap F apps)) /\
  (length apps <= length (concat (imap F apps)) <= S n * length apps)%nat /\
  length (errors (concat (imap F apps)))
  = (if decide (0 <= e < Z.of_nat (length apps))%Z then 1%nat else 0%nat) /\
  (forall t, NoDup apps -> t ∈ apps ->
             (1 <= length (logs_of (GStr t) (concat (imap F apps)))
              <= S n)%nat).
Proof.
  intros HF.
  assert (Hstep : forall i app,
            Forall (fun log => exists level, log_of cid app level log)
                   (F i app) /\
            (1 <= length (F i app) <= S n)%nat /\
            length (errors (F i app))
            = (if decide (Z.of_nat i = e) then 1%nat else 0%nat))
    by (intros i app; apply (step_facts cid e i app (ds i)), HF).
  split; [|split; [|split]].
  - apply Forall_forall. intros log Hlog.
    apply elem_of_concat in Hlog as (l & Hlog & Hl).
    apply elem_of_lookup_imap_1 in Hl as (i & app & -> & Happ).
    destruct (Hstep i app) as (Hall & _ & _).
    rewrite Forall_forall in Hall.
    destruct (Hall log Hlog) as [level Hlevel].
    exists app, level. split; [|exact Hlevel].
    eapply list_elem_of_lookup_2, Happ.
  - rewrite length_concat_imap.
    pose proof (sum_imap_bounds (fun i a => length (F i a)) 1 (S n) apps
                  (fun i a => proj1 (proj2 (Hstep i a)))) as H.
    lia.
  - unfold errors. rewrite count_concat_imap.
    rewrite (imap_ext _ (fun i _ => if decide (Z.of_nat (0 + i) = e)
                                    then 1%nat else 0%nat))
      by (intros i app _; apply (Hstep i app)).
    rewrite (sum_imap_at e apps 0). reflexivity.
  - intros t Hnd Hin. unfold logs_of. rewrite count_concat_imap.
    apply (sum_imap_one t 1 (S n) apps _ Hnd Hin).
    + intros i app Hne. destruct (Hstep i app) as (Hall & _ & _).
      change (List.filter _ (F i app)) with (logs_of (GStr t) (F i app)).
      rewrite (logs_of_all app t).
      * rewrite decide_False by exact Hne. reflexivity.
      * eapply Forall_impl; [exact Hall|].
        intros log (level & _ & H & _). exact H.
    + intros i. destruct (Hstep i t) as (Hall & Hlen & _).
      change (List.filter _ (F i t)) with (logs_of (GStr t) (F i t)).
      rewrite (logs_of_all t t).
      * rewrite decide_True by reflexivity. exact Hlen.
      * eapply Forall_impl; [exact Hall|].
        intros log (level & _ & H & _). exact H.
Qed.

Lemma targeted_facts cid target d :
  let logs := generate_targeted_workflow_logs lower cid target d in
  Forall (fun log => exists app level,
            app ∈ drawn_apps d /\ log_of cid app level log) logs /\
  (length (drawn_apps d) <= length logs <= 3 * length (drawn_apps d))%nat /\
  length (errors logs)
  = (if decide (0 <= error_at_step d < Z.of_nat (length (drawn_apps d)))%Z
     then 1%nat else 0%nat) /\
  (forall t, NoDup (drawn_apps d) -> t ∈ drawn_apps d ->
             (1 <= length (logs_of (GStr t) logs) <= 3)%nat).
Proof.
  apply (loop_facts _ cid (error_at_step d) (steps d) 2 (drawn_apps d)).
  intros i app. apply targeted_step_logs.
Qed.

Lemma workflow_facts cid workflow_type d :
  let logs := generate_workflow_logs lower cid workflow_type d in
  Forall (fun log => exists app level,
            app ∈ apps_sequence workflow_type d /\
            log_of cid app level log) logs /\
  (length (apps_sequence workflow_type d) <= length logs
   <= 2 * length (apps_sequence workflow_type d))%nat /\
  length (errors logs)
  = (if decide (0 <= error_at_step d
                < Z.of_nat (length (apps_sequence workflow_type d)))%Z
     then 1%nat else 0%nat) /\
  (forall t, NoDup (apps_sequence workflow_type d) ->
             t ∈ apps_sequence workflow_type d ->
             (1 <= length (logs_of (GStr t) logs) <= 2)%nat).
Proof.
  apply (loop_facts _ cid (error_at_step d) (steps d) 1
           (apps_sequence workflow_type d)).
  intros i app. apply workflow_step_logs.
Qed.

Lemma targeted_apps target d :
  targeted_draws target d ->
  NoDup (drawn_apps d) /\ target ∈ drawn_apps d /\
  (3 <= length (drawn_apps d) <= 5)%nat /\
  (forall app, app ∈ drawn_apps d ->
               app = target \/ app ∈ applications).
Proof.
  intros [(sampled & Hperm & Hnd & Hsub & Hlen) _].
  split; [|split; [|split]].
  - rewrite Hperm. apply NoDup_cons. split; [|exact Hnd].
    intros Hin. apply Hsub in Hin as [_ Hne]. congruence.
  - rewrite Hperm. apply elem_of_cons. auto.
  - rewrite (Permutation_length Hperm). cbn [length]. lia.
  - intros app Happ. rewrite Hperm in Happ.
    apply elem_of_cons in Happ as [->|Happ]; [auto|].
    right. apply Hsub, Happ.
Qed.

Lemma targeted_valid cid target d :
  targeted_draws target d ->
  Forall (fun log => exists app level,
            (app = target \/ app ∈ applications) /\
            log_of cid app level log)
         (generate_targeted_workflow_logs lower cid target d) /\
  (3 <= length (generate_targeted_workflow_logs lower cid target d)
   <= 15)%nat /\
  (1 <= length (logs_of (GStr target)
                  (generate_targeted_workflow_logs lower cid target d))
   <= 3)%nat.
Proof.
  intros Hd.
  destruct (targeted_apps target d Hd) as (Hnd & Hin & Hlen & Hsub).
  destruct (targeted_facts cid target d) as (Hall & Hn & _ & Hone).
  split; [|split].
  - eapply Forall_impl; [exact Hall|].
    intros log (app & level & Happ & Hlog).
    exists app, level. split; [apply Hsub, Happ|exact Hlog].
  - cbn zeta in Hn. lia.
  - apply (Hone target Hnd Hin).
Qed.

(** X21. A targeted workflow, for any draws that [random] can give:
    every log carries the correlation id of the workflow and the name
    of the target or of a known application; between 3 and 15 logs
    are generated; and between 1 and 3 of them are logs of the
    target. *)
Theorem X21_targeted_workflow_logs cid target d :
  targeted_draws target d ->
  Forall (fun log => exists app level,
            (app = target \/ app ∈ applications) /\
            log_of cid app level log)
         (generate_targeted_workflow_logs lower cid target d) /\
  (3 <= length (generate_targeted_workflow_logs lower cid target d)
   <= 15)%nat /\
  (1 <= length (logs_of (GStr target)
                  (generate_targeted_workflow_logs lower cid target d))
   <= 3)%nat.
Proof. exact (targeted_valid cid target d). Qed.

(** X22. A targeted workflow, for any draws that [random] can give,
    has exactly one log of level [ERROR] when an error is drawn, and
    none otherwise. *)
Theorem X22_targeted_workflow_errors cid target d :
  targeted_draws target d ->
  length (errors (generate_targeted_workflow_logs lower cid target d))
  = (if has_error d then 1%nat else 0%nat).
Proof.
  intros Hd.
  destruct (targeted_facts cid target d) as (_ & _ & Herr & _).
  cbn zeta in Herr. rewrite Herr. unfold error_at_step.
  destruct Hd as [_ Hstep].
  destruct (has_error d).
  - specialize (Hstep eq_refl). rewrite decide_True by lia. reflexivity.
  - rewrite decide_False by lia. reflexivity.
Qed.

Lemma apps_sequence_length workflow_type d :
  workflow_draws workflow_type d ->
  (4 <= length (apps_sequence workflow_type d) <= 5)%nat /\
  NoDup (apps_sequence workflow_type d) /\
  (forall app, app ∈ apps_sequence workflow_type d -> app ∈ applications).
Proof.
  intros [(Hnd & Hlen & Hsub) _]. unfold apps_sequence.
  destruct (List.find _ workflows) as [p|] eqn:Hfind.
  - apply find_some in Hfind as [Hin _]. cbn in Hin.
    repeat (destruct Hin as [<-|Hin];
            [cbn [snd]; split; [cbn; lia|];
             split; [apply (bool_decide_unpack _); vm_compute; exact I|];
             apply Forall_forall; apply (bool_decide_unpack _);
             vm_compute; exact I|]).
    contradiction.
  - rewrite Hlen. split; [lia|]. split; [exact Hnd|exact Hsub].
Qed.

Lemma workflow_valid cid workflow_type d :
  workflow_draws workflow_type d ->
  Forall (fun log => exists app level,
            app ∈ applications /\ log_of cid app level log)
         (generate_workflow_logs lower cid workflow_type d) /\
  (forall app, app ∈ apps_sequence workflow_type d ->
     (1 <= length (logs_of (GStr app)
                     (generate_workflow_logs lower cid workflow_type d))
      <= 2)%nat) /\
  (4 <= length (generate_workflow_logs lower cid workflow_type d)
   <= 10)%nat /\
  length (errors (generate_workflow_logs lower cid workflow_type d))
  = (if has_error d then 1%nat else 0%nat) /\
  exists first rest,
    generate_workflow_logs lower cid workflow_type d = first :: rest /\
    level_is (lit "ERROR") first = false.
Proof.
  intros Hd.
  destruct (apps_sequence_length workflow_type d Hd) as (Hlen & Hnd & Hsub).
  destruct (workflow_facts cid workflow_type d) as (Hall & Hn & Herr & Hone).
  cbn zeta in Hall, Hn, Herr, Hone.
  split; [|split; [|split; [|split]]].
  - eapply Forall_impl; [exact Hall|].
    intros log (app & level & Happ & Hlog).
    exists app, level. split; [apply Hsub, Happ|exact Hlog].
  - intros app Happ. apply (Hone app Hnd Happ).
  - lia.
  - rewrite Herr. unfold error_at_step. destruct Hd as [_ Hstep].
    destruct (has_error d).
    + specialize (Hstep eq_refl). rewrite decide_True by lia. reflexivity.
    + rewrite decide_False by lia. reflexivity.
  - unfold generate_workflow_logs.
    destruct (apps_sequence workflow_type d) as [|app apps] eqn:Happs;
      [cbn in Hlen; lia|].
    cbn [imap concat].
    destruct (workflow_step_logs lower cid (error_at_step d) 0 app
                (steps d 0%nat))
      as (main & rest & -> & Hmain & _ & _).
    exists main, (rest ++ concat (imap
      ((fun i app0 => workflow_step lower cid (error_at_step d) i app0
                        (steps d i)) ∘ S) apps)).
    split; [reflexivity|].
    rewrite (errors_of _ _ _ _ Hmain), step_level_error.
    apply bool_decide_eq_false_2.
    unfold error_at_step. destruct Hd as [_ Hstep].
    destruct (has_error d); [specialize (Hstep eq_refl)|]; lia.
Qed.

(** X23. A workflow of [generate_workflow_logs], for any draws that
    [random] can give: every log carries the correlation id of the
    workflow and the name of a known application; every application of
    the sequence has one or two logs, between 4 and 10 in all; one log
    has level [ERROR] when an error is drawn and none otherwise; and
    the first log, that of the first step, is never the error. *)
Theorem X23_workflow_logs cid workflow_type d :
  workflow_draws workflow_type d ->
  Forall (fun log => exists app level,
            app ∈ applications /\ log_of cid app level log)
         (generate_workflow_logs lower cid workflow_type d) /\
  (forall app, app ∈ apps_sequence workflow_type d ->
     (1 <= length (logs_of (GStr app)
                     (generate_workflow_logs lower cid workflow_type d))
      <= 2)%nat) /\
  (4 <= length (generate_workflow_logs lower cid workflow_type d)
   <= 10)%nat /\
  length (errors (generate_workflow_logs lower cid workflow_type d))
  = (if has_error d then 1%nat else 0%nat) /\
  exists first rest,
    generate_workflow_logs lower cid workflow_type d = first :: rest /\
    level_is (lit "ERROR") first = false.
Proof. exact (workflow_valid cid workflow_type d). Qed.

End WorkflowFacts.

Lemma sample_targeted_draws target :
  target ∈ applications -> targeted_draws target (sample_targeted target).
Proof.
  intros Hin.
  assert (Hall : Forall (fun t =>
            NoDup (sample_others t) /\
            Forall (fun app => app ∈ applications /\ app <> t)
                   (sample_others t) /\
            (2 <= length (sample_others t) <= 4)%nat) applications)
    by (apply (bool_decide_unpack _); vm_compute; exact I).
  rewrite Forall_forall in Hall.
  destruct (Hall target Hin) as (Hnd & Hsub & Hlen).
  split.
  - eexists. split; [|split; [exact Hnd|split; [|exact Hlen]]].
    + apply (Permutation_app_comm _ [target]).
    + rewrite Forall_forall in Hsub. exact Hsub.
  - intros _. cbn [error_step sample_targeted drawn_apps].
    rewrite length_app. cbn [length]. lia.
Qed.

Lemma sample_workflow_draws :
  workflow_draws (lit "email_send") sample_workflow.
Proof.
  split; [split; [|split]|].
  - apply (bool_decide_unpack _). vm_compute. exact I.
  - reflexivity.
  - apply Forall_forall. apply (bool_decide_unpack _). vm_compute. exact I.
  - intros _. vm_compute. split; discriminate.
Qed.

Lemma X21_targeted_workflow_logs_witness :
  Forall (fun log => exists app level,
            (app = lit "AuthService" \/ app ∈ applications) /\
            log_of (lit "CORR-0123456789AB") app level log)
         (generate_targeted_workflow_logs ascii_lower
            (lit "CORR-0123456789AB") (lit "AuthService")
            (sample_targeted (lit "AuthService"))) /\
  (3 <= length (generate_targeted_workflow_logs ascii_lower
                  (lit "CORR-0123456789AB") (lit "AuthService")
                  (sample_targeted (lit "AuthService")))
   <= 15)%nat /\
  (1 <= length (logs_of (GStr (lit "AuthService"))
                  (generate_targeted_workflow_logs ascii_lower
                     (lit "CORR-0123456789AB") (lit "AuthService")
                     (sample_targeted (lit "AuthService"))))
   <= 3)%nat.
Proof.
  apply (X21_targeted_workflow_logs ascii_lower (lit "CORR-0123456789AB")
           (lit "AuthService") (sample_targeted (lit "AuthService"))).
  apply sample_targeted_draws.
  apply (bool_decide_unpack _). vm_compute. exact I.
Defined.

Lemma X22_targeted_workflow_errors_witness :
  length (errors (generate_targeted_workflow_logs ascii_lower
                    (lit "CORR-0123456789AB") (lit "AuthService")
                    (sample_targeted (lit "AuthService"))))
  = (if has_error (sample_targeted (lit "AuthService"))
     then 1%nat else 0%nat).
Proof.
  apply (X22_targeted_workflow_errors ascii_lower (lit "CORR-0123456789AB")
           (lit "AuthService") (sample_targeted (lit "AuthService"))).
  apply sample_targeted_draws.
  apply (bool_decide_unpack _). vm_compute. exact I.
Defined.

Lemma X23_workflow_logs_witness :
  Forall (fun log => exists app level,
            app ∈ applications /\
            log_of (lit "CORR-0123456789AB") app level log)
         (generate_workflow_logs ascii_lower (lit "CORR-0123456789AB")
            (lit "email_send") sample_workflow) /\
  (forall app, app ∈ apps_sequence (lit "email_send") sample_workflow ->
     (1 <= length (logs_of (GStr app)
                     (generate_workflow_logs ascii_lower
                        (lit "CORR-0123456789AB") (lit "email_send")
                        sample_workflow))
      <= 2)%nat) /\
  (4 <= length (generate_workflow_logs ascii_lower (lit "CORR-0123456789AB")
                  (lit "email_send") sample_workflow)
   <= 10)%nat /\
  length (errors (generate_workflow_logs ascii_lower
                    (lit "CORR-0123456789AB") (lit "email_send")
                    sample_workflow))
  = (if has_error sample_workflow then 1%nat else 0%nat) /\
  exists first rest,
    generate_workflow_logs ascii_lower (lit "CORR-0123456789AB")
      (lit "email_send") sample_workflow = first :: rest /\
    level_is (lit "ERROR") first = false.
Proof.
  apply (X23_workflow_logs ascii_lower (lit "CORR-0123456789AB")
           (lit "email_send") sample_workflow).
  apply sample_workflow_draws.
Defined.

(* ===================================================================== *)
(** ** The logs of all the applications *)
(* ===================================================================== *)

Lemma sum_map_bounds {A} (c : A -> nat) (lo hi : nat) (l : list A) :
  Forall (fun a => lo <= c a <= hi)%nat l ->
  (lo * length l <= sum_list (map c l) <= hi * length l)%nat.
Proof.
  induction 1 as [|a l Ha _ IH]; [cbn; lia|].
  cbn [map sum_list length]. rewrite !Nat.mul_succ_r.
  change (id ?x) with x. lia.
Qed.

Lemma length_concat_map {A B} (g : A -> list B) (l : list A) :
  length (concat (map g l)) = sum_list (map (fun a => length (g a)) l).
Proof.
  induction l as [|a l IH]; [reflexivity|].
  cbn [map concat sum_list]. rewrite length_app, IH. reflexivity.
Qed.

Section AdditionalFacts.

Variable lower : pystr -> pystr.

(** The workflows of one application. *)
Lemma app_workflows_facts w ds app :
  (forall j, targeted_draws app (ds j).2) ->
  length (app_workflows lower w ds app) = w /\
  Forall (fun p =>
            Forall (fun log => exists a level, log_of p.1 a level log) p.2 /\
            (3 <= length p.2 <= 15)%nat /\
            (1 <= length (logs_of (GStr app) p.2) <= 3)%nat)
         (app_workflows lower w ds app).
Proof.
  intros Hds. unfold app_workflows. split.
  - rewrite length_map, length_seq. reflexivity.
  - apply Forall_forall. intros p Hp.
    apply list_elem_of_fmap in Hp as (j & -> & _). cbn [fst snd].
    destruct (targeted_valid lower (generate_correlation_id (ds j).1) app
                (ds j).2 (Hds j)) as (Hall & Hlen & Hown).
    split; [|split; [exact Hlen|exact Hown]].
    eapply Forall_impl; [exact Hall|].
    intros log (a & level & _ & Hlog). eauto.
Qed.

(** X24. The logs generated for all the applications, for any draws that
    [random] can give: the method returns eight times
    [target_logs_per_app // 3] correlation ids; every log carries one of
    them, and the number of logs lies between 3 and 15 times that of the
    ids; the target is printed first and then one line per application,
    and the number printed for an application, that of the logs of the
    application in its own workflows, lies between
    [target_logs_per_app // 3] and three times that. *)
Theorem X24_additional_logs_per_app target draws :
  (forall i j app,
     applications !! i = Some app -> targeted_draws app (draws i j).2) ->
  let w := Z.to_nat (target / 3) in
  let result := generate_additional_logs_per_app lower target draws in
  length result.1.2 = (8 * w)%nat /\
  Forall (fun log => exists id app level,
            id ∈ result.1.2 /\ log_of id app level log) result.1.1 /\
  (3 * (8 * w) <= length result.1.1 <= 15 * (8 * w))%nat /\
  result.2 !! 0%nat = Some (GEnsuring target) /\
  length result.2 = 9%nat /\
  forall i app,
    applications !! i = Some app ->
    exists n, result.2 !! S i = Some (GGenerated n app) /\
              (w <= n <= 3 * w)%nat.
Proof.
  intros Hdraws w result. subst result.
  unfold generate_additional_logs_per_app. fold w. cbn [fst snd].
  set (per_app := imap (fun i app =>
                          (app, app_workflows lower w (draws i) app))
                       applications).
  assert (Hper : Forall (fun p =>
            length p.2 = w /\
            Forall (fun q =>
                Forall (fun log => exists a level, log_of q.1 a level log)
                       q.2 /\
                (3 <= length q.2 <= 15)%nat /\
                (1 <= length (logs_of (GStr p.1) q.2) <= 3)%nat) p.2)
            per_app).
  { apply Forall_forall. intros p Hp.
    apply elem_of_lookup_imap_1 in Hp as (i & app & -> & Happ).
    cbn [fst snd]. apply app_workflows_facts.
    intros j. apply (Hdraws i j app Happ). }
  assert (Hlen : length per_app = 8%nat)
    by (unfold per_app; rewrite length_imap; reflexivity).
  split; [|split; [|split; [|split; [|split]]]].
  - rewrite length_concat_map.
    pose proof (sum_map_bounds (fun p : pystr * list (pystr * list gen_log)
                                => length (map fst p.2)) w w per_app) as H.
    rewrite Hlen in H. cut (w * 8 <= sum_list
      (map (fun p : pystr * list (pystr * list gen_log)
            => length (map fst p.2)) per_app) <= w * 8)%nat; [lia|].
    apply H. eapply Forall_impl; [exact Hper|].
    intros p [Hp _]. rewrite length_map. lia.
  - apply Forall_forall. intros log Hlog.
    apply elem_of_concat in Hlog as (l & Hlog & Hl).
    apply list_elem_of_fmap in Hl as (p & -> & Hp).
    unfold app_logs_of in Hlog.
    apply elem_of_concat in Hlog as (l & Hlog & Hl).
    apply list_elem_of_fmap in Hl as (q & -> & Hq).
    rewrite Forall_forall in Hper. destruct (Hper p Hp) as [_ Hqs].
    rewrite Forall_forall in Hqs. destruct (Hqs q Hq) as (Hlogs & _ & _).
    rewrite Forall_forall in Hlogs.
    destruct (Hlogs log Hlog) as (a & level & Hlv).
    exists q.1, a, level. split; [|exact Hlv].
    apply elem_of_concat. exists (map fst p.2). split.
    + apply list_elem_of_fmap. exists q. auto.
    + apply list_elem_of_fmap. exists p. auto.
  - rewrite length_concat_map.
    pose proof (sum_map_bounds
                  (fun p : pystr * list (pystr * list gen_log)
                   => length (app_logs_of p.2)) (3 * w) (15 * w) per_app)
      as H.
    rewrite Hlen in H.
    cut (3 * w * 8 <= sum_list
           (map (fun p : pystr * list (pystr * list gen_log)
                 => length (app_logs_of p.2)) per_app) <= 15 * w * 8)%nat;
      [lia|].
    apply H. eapply Forall_impl; [exact Hper|].
    intros p [Hp Hqs]. unfold app_logs_of. rewrite length_concat_map.
    pose proof (sum_map_bounds (fun q : pystr * list gen_log
                                => length q.2) 3 15 p.2) as Hq.
    rewrite Hp in Hq. apply Hq.
    eapply Forall_impl; [exact Hqs|]. intros q (_ & Hq3 & _). exact Hq3.
  - reflexivity.
  - cbn [length]. rewrite length_map, Hlen. reflexivity.
  - intros i app Happ. cbn [lookup list_lookup].
    exists (length (logs_of (GStr app)
                      (app_logs_of (app_workflows lower w (draws i) app)))).
    split.
    { etrans; [apply list_lookup_fmap|]. unfold per_app.
      rewrite list_lookup_imap, Happ. reflexivity. }
    rewrite Forall_forall in Hper.
    assert (Hp : (app, app_workflows lower w (draws i) app) ∈ per_app).
    { unfold per_app.
      apply (elem_of_lookup_imap_2
               (fun i app => (app, app_workflows lower w (draws i) app))
               applications app i Happ). }
    destruct (Hper _ Hp) as [Hw Hqs]. cbn [fst snd] in Hw, Hqs.
    unfold app_logs_of, logs_of. rewrite length_filter_concat, map_map.
    pose proof (sum_map_bounds
                  (fun q : pystr * list gen_log =>
                     length (List.filter
                               (fun log => bool_decide
                                  (getitem (lit "application") log
                                   = Some (GStr app))) q.2))
                  1 3 (app_workflows lower w (draws i) app)) as H.
    rewrite Hw in H. cut (1 * w <= sum_list
      (map (fun q : pystr * list gen_log =>
              length (List.filter
                        (fun log => bool_decide
                           (getitem (lit "application") log
                            = Some (GStr app))) q.2))
           (app_workflows lower w (draws i) app)) <= 3 * w)%nat; [lia|].
    apply H. eapply Forall_impl; [exact Hqs|].
    intros q (_ & _ & Hq). exact Hq.
Qed.

End AdditionalFacts.

Lemma X24_additional_logs_per_app_witness :
  let w := Z.to_nat (7 / 3) in
  let result := generate_additional_logs_per_app ascii_lower 7 sample_draws in
  length result.1.2 = (8 * w)%nat /\
  Forall (fun log => exists id app level,
            id ∈ result.1.2 /\ log_of id app level log) result.1.1 /\
  (3 * (8 * w) <= length result.1.1 <= 15 * (8 * w))%nat /\
  result.2 !! 0%nat = Some (GEnsuring 7) /\
  length result.2 = 9%nat /\
  forall i app,
    applications !! i = Some app ->
    exists n, result.2 !! S i = Some (GGenerated n app) /\
              (w <= n <= 3 * w)%nat.
Proof.
  apply (X24_additional_logs_per_app ascii_lower 7 sample_draws).
  intros i j app Happ. unfold sample_draws. cbn [snd].
  assert (Hnth : nth i applications [] = app).
  { apply nth_lookup_Some with (d := []) in Happ. exact Happ. }
  rewrite Hnth. apply sample_targeted_draws.
  eapply list_elem_of_lookup_2, Happ.
Defined.

Section DatasetFacts.

Variable lower : pystr -> pystr.

(** X25. A dataset, for any draws that [random] can give: one
    correlation id per workflow asked for; every log carries one of
    the ids returned and the name of a known application; the number
    of logs lies between 4 and 10 times that of the workflows; and
    there are no more logs of level [ERROR] than workflows. *)
Theorem X25_dataset num_workflows draws :
  (forall j, workflow_draws (choice workflow_types (draws j).1.2)
               (draws j).2) ->
  let result := generate_dataset lower num_workflows draws in
  length result.2 = Z.to_nat num_workflows /\
  Forall (fun log => exists id app level,
            id ∈ result.2 /\ app ∈ applications /\
            log_of id app level log) result.1 /\
  (4 * length result.2 <= length result.1 <= 10 * length result.2)%nat /\
  (length (errors result.1) <= length result.2)%nat.
Proof.
  intros Hdraws result. subst result. unfold generate_dataset.
  cbn [fst snd].
  set (ws := dataset_workflows lower num_workflows draws).
  assert (Hws : Forall (fun p =>
            Forall (fun log => exists app level,
                      app ∈ applications /\ log_of p.1 app level log) p.2 /\
            (4 <= length p.2 <= 10)%nat /\
            (0 <= length (errors p.2) <= 1)%nat) ws).
  { apply Forall_forall. intros p Hp. unfold ws, dataset_workflows in Hp.
    apply list_elem_of_fmap in Hp as (j & -> & _). cbn [fst snd].
    destruct (workflow_valid lower
                (generate_correlation_id (draws j).1.1)
                (choice workflow_types (draws j).1.2) (draws j).2
                (Hdraws j)) as (Hall & _ & Hlen & Herr & _).
    split; [exact Hall|]. split; [exact Hlen|].
    rewrite Herr. destruct (has_error (draws j).2); lia. }
  split; [|split; [|split]].
  - unfold ws, dataset_workflows. rewrite !length_map, length_seq.
    reflexivity.
  - apply Forall_forall. intros log Hlog.
    apply elem_of_concat in Hlog as (l & Hlog & Hl).
    apply list_elem_of_fmap in Hl as (p & -> & Hp).
    rewrite Forall_forall in Hws. destruct (Hws p Hp) as (Hall & _ & _).
    rewrite Forall_forall in Hall.
    destruct (Hall log Hlog) as (app & level & Happ & Hlv).
    exists p.1, app, level. split; [|split; [exact Happ|exact Hlv]].
    apply list_elem_of_fmap. exists p. auto.
  - rewrite length_concat_map, length_map.
    apply (sum_map_bounds (fun p : pystr * list gen_log => length p.2)
             4 10 ws).
    eapply Forall_impl; [exact Hws|]. intros p (_ & H & _). exact H.
  - unfold errors. rewrite length_filter_concat, map_map, length_map.
    pose proof (sum_map_bounds
                  (fun p : pystr * list gen_log => length (errors p.2))
                  0 1 ws) as H.
    unfold errors in H. cut (0 * length ws <= sum_list
      (map (fun p : pystr * list gen_log =>
              length (List.filter (level_is (lit "ERROR")) p.2)) ws)
      <= 1 * length ws)%nat; [lia|].
    apply H. eapply Forall_impl; [exact Hws|]. intros p (_ & _ & Hp).
    exact Hp.
Qed.

End DatasetFacts.

Lemma X25_dataset_witness :
  let result := generate_dataset ascii_lower 3 sample_dataset_draws in
  length result.2 = Z.to_nat 3 /\
  Forall (fun log => exists id app level,
            id ∈ result.2 /\ app ∈ applications /\
            log_of id app level log) result.1 /\
  (4 * length result.2 <= length result.1 <= 10 * length result.2)%nat /\
  (length (errors result.1) <= length result.2)%nat.
Proof.
  apply (X25_dataset ascii_lower 3 sample_dataset_draws).
  intros j. apply sample_workflow_draws.
Defined.
